(** * ms_peak_picker.scan_filter: registry, filter variants and [transform]

    A shallow embedding of [ms_peak_picker/scan_filter.py].

    - A finite float64 value is the rational it denotes, and an array
      holds finite float64 values.  [float64.of_Q] rounds a rational to the
      nearest float64 value; [float64.add], [sub], [mul] and [div] are the
      correctly rounded operations.  The computations whose rounding
      decides which points a filter keeps or how many it returns are
      written with them: the mean of an array, with numpy's pairwise
      summation, and [np.arange] with the addition that gives its stop
      value.  Comparisons are exact.  The quotient that
      [NPercentOfMaxFilter] compares with [p], the scaling of
      [MaximumScaler], the mean of the two middle values in [np.median]
      and the chords of [np.interp] are computed exactly; float64 can
      differ from them in the last digit.  Overflow of finite operands to
      [inf] is not modelled, and [-0.0] is not told apart from [0.0].
    - A scalar that numpy may return as [nan] (mean or median of an empty
      array) is an [option Q] with [None] for [nan].  An elementwise
      division by zero gives [inf] or [nan] elements ([float64.t]); numpy
      warns and goes on.  The store holds finite values: where the code
      would store such an array (the maximum rescale with maximum 0 and a
      negative threshold), the run of the model ends with
      [FloatingPointError], numpy's behaviour under
      [np.errstate(all="raise")].
    - ndarray objects live in a store indexed by allocation order, so that
      a filter that writes into its argument can be told apart from one
      that writes into a copy.
    - Python exceptions are the [Raise] outcome of a state-and-error monad;
      the store reached when the exception is raised is kept.
    - [binary64] runs the grid of [LinearResampling] on the kernel's IEEE
      binary64 floats, next to the rational model.
    - [scipy.signal.savgol_filter] and [fticr_denoising.denoise] are not
      defined in the module; they are the two fields of [Collaborators]. *)

From Stdlib Require Import QArith Qround Qminmax Qpower Lqa Lia Floats Uint63.
From stdpp Require Import gmap strings list fin_maps sorting.

(** ** Exceptions, outcomes *)

Inductive exn : Type :=
| KeyError (key : string)
| ValueError
| IndexError
| TypeError
| FloatingPointError
| OverflowError
| ImportError.

Inductive outcome (A : Type) : Type :=
| Return (a : A)
| Raise (e : exn).
Arguments Return {A} a.
Arguments Raise {A} e.

(** ** Comparisons on [Q] as booleans *)

Definition Qltb (x y : Q) : bool := negb (Qle_bool y x).

#[global] Instance Qle_dec : RelDecision Qle.
Proof.
  intros x y. destruct (Qlt_le_dec y x) as [H|H].
  - right. apply Qlt_not_le, H.
  - left. exact H.
Defined.

Definition Qofnat (n : nat) : Q := inject_Z (Z.of_nat n).

(** ** float64 values

    A finite float64 value is the rational it denotes.  [of_Q] is the
    conversion to float64: the nearest value with a 53-bit significand and
    an exponent not below that of the subnormal values, ties to the even
    significand.  Overflow is not modelled: the exponent is not bounded
    above. *)

Module float64.

(** The binary logarithm of a positive rational, rounded down. *)
Definition ilog2 (q : Q) : Z :=
  let k := (Z.log2 (Qnum q) - Z.log2 (Zpos (Qden q)))%Z in
  if Qle_bool (2 ^ k) q then k else (k - 1)%Z.

(** The nearest integer, the even one on a tie. *)
Definition rint (q : Q) : Z :=
  let f := Qfloor q in
  match (q - inject_Z f ?= 1 # 2)%Q with
  | Lt => f
  | Gt => (f + 1)%Z
  | Eq => if Z.even f then f else (f + 1)%Z
  end.

(** The exponent of the unit in the last place of a positive rational. *)
Definition expo (a : Q) : Z := Z.max (ilog2 a - 52) (-1074).

(** The nearest float64 value to a positive rational. *)
Definition round (a : Q) : Q :=
  (inject_Z (rint (a / 2 ^ expo a)) * 2 ^ expo a)%Q.

Definition of_Q (q : Q) : Q :=
  let q := Qred q in
  match Qnum q with
  | Z0 => 0%Q
  | Zpos _ => Qred (round q)
  | Zneg _ => Qred (- round (- q))
  end.

(** The arithmetic of float64 scalars: the correctly rounded result on the
    float64 values of the operands. *)
Definition add (x y : Q) : Q := of_Q (of_Q x + of_Q y).
Definition sub (x y : Q) : Q := of_Q (of_Q x - of_Q y).
Definition mul (x y : Q) : Q := of_Q (of_Q x * of_Q y).
Definition div (x y : Q) : Q := of_Q (of_Q x / of_Q y).

(** An element of an array that an elementwise division has produced: it
    need not be finite. *)
Inductive t : Type :=
| finite (q : Q)
| inf (negative : bool)
| nan.

End float64.

(** ** The numpy primitives the filters use *)

Module np.

(** [a < s] for an array and a scalar; a comparison with [nan] is False. *)
Definition less (a : list Q) (s : option Q) : list bool :=
  match s with
  | Some m => map (λ x, Qltb x m) a
  | None => map (λ _, false) a
  end.

(** [a > s] *)
Definition greater (a : list Q) (s : Q) : list bool :=
  map (λ x, Qltb s x) a.

(** The float64 sum of an array, [np.add.reduce]: numpy's pairwise
    summation.  Fewer than 8 values are added from left to right; up to
    128 values are added into 8 running sums, which are then added in
    pairs, the remaining values last; a longer array is split in two near
    its middle, at a multiple of 8. *)
Definition sum_block (r : list Q) (a : list Q) : list Q :=
  zip_with float64.add r a.

Fixpoint sum_blocks (blocks : nat) (r : list Q) (a : list Q) : list Q * list Q :=
  match blocks with
  | 0 => (r, a)
  | S blocks' => sum_blocks blocks' (sum_block r (take 8 a)) (drop 8 a)
  end.

Definition sum_unrolled (a : list Q) : Q :=
  let n := length a in
  let '(r, rest) := sum_blocks (n / 8 - 1) (take 8 a) (drop 8 a) in
  let r k := nth k r 0%Q in
  let res :=
    float64.add
      (float64.add (float64.add (r 0) (r 1)) (float64.add (r 2) (r 3)))
      (float64.add (float64.add (r 4) (r 5)) (float64.add (r 6) (r 7))) in
  foldl float64.add res rest.

Fixpoint pairwise_sum (fuel : nat) (a : list Q) : Q :=
  let n := length a in
  if n <? 8 then foldl float64.add 0%Q a
  else if n <=? 128 then sum_unrolled a
  else
    match fuel with
    | 0 => 0%Q
    | S fuel' =>
        let n2 := n / 2 in
        let n2 := n2 - n2 mod 8 in
        float64.add (pairwise_sum fuel' (take n2 a))
          (pairwise_sum fuel' (drop n2 a))
    end.

Definition sum (a : list Q) : Q := pairwise_sum (length a) a.

(** [a.mean()]: the float64 sum divided by the length; [nan] on an empty
    array. *)
Definition mean (a : list Q) : option Q :=
  match a with
  | [] => None
  | _ => Some (float64.div (sum a) (Qofnat (length a)))
  end.

Definition count_nonzero (m : list bool) : nat :=
  length (List.filter (λ b : bool, b) m).

(** [m.mean()] for a boolean array: the number of True entries, summed as
    float64 values, divided by the length. *)
Definition mean_bool (m : list bool) : option Q :=
  match m with
  | [] => None
  | _ => Some (float64.div (Qofnat (count_nonzero m)) (Qofnat (length m)))
  end.

(** [np.median(a)]: the middle of the sorted values, the mean of the two
    middle ones when the length is even; [nan] on an empty array. *)
Definition median (a : list Q) : option Q :=
  let s := merge_sort Qle a in
  let n := length s in
  if Nat.even n then
    match s !! (n / 2 - 1)%nat, s !! (n / 2)%nat with
    | Some x, Some y => Some ((x + y) / 2)%Q
    | _, _ => None
    end
  else s !! (n / 2)%nat.

(** [a.max()], [a.min()]: ValueError on an empty array. *)
Fixpoint amax (a : list Q) : outcome Q :=
  match a with
  | [] => Raise ValueError
  | x :: a' =>
      match amax a' with
      | Return m => Return (if Qltb m x then x else m)
      | Raise _ => Return x
      end
  end.

Fixpoint amin (a : list Q) : outcome Q :=
  match a with
  | [] => Raise ValueError
  | x :: a' =>
      match amin a' with
      | Return m => Return (if Qltb x m then x else m)
      | Raise _ => Return x
      end
  end.

(** The positions of [a] where [mask] is True. *)
Fixpoint select (mask : list bool) (a : list Q) : list Q :=
  match mask, a with
  | b :: mask', x :: a' => if b then x :: select mask' a' else select mask' a'
  | _, _ => []
  end.

(** [a[mask]] for a boolean mask: IndexError unless the lengths agree. *)
Definition getitem (a : list Q) (mask : list bool) : outcome (list Q) :=
  if decide (length mask = length a) then Return (select mask a)
  else Raise IndexError.

(** The value of [a] after [a[mask] = v]. *)
Definition setitem (a : list Q) (mask : list bool) (v : Q) : outcome (list Q) :=
  if decide (length mask = length a)
  then Return (zip_with (λ (b : bool) x, if b then v else x) mask a)
  else Raise IndexError.

(** [a / s].  A division by zero gives [inf] with the sign of the
    dividend, and [nan] for a zero dividend, with a RuntimeWarning and no
    exception. *)
Definition divide (a : list Q) (s : Q) : list float64.t :=
  map (λ x,
         if Qeq_bool s 0 then
           if Qeq_bool x 0 then float64.nan else float64.inf (Qltb x 0)
         else float64.finite (x / s)) a.

(** [r * s] *)
Definition multiply (r : list float64.t) (s : Q) : list float64.t :=
  map (λ y,
         match y with
         | float64.finite q => float64.finite (q * s)
         | float64.inf negative =>
             if Qeq_bool s 0 then float64.nan
             else float64.inf (xorb negative (Qltb s 0))
         | float64.nan => float64.nan
         end) r.

(** [r < s]; a comparison with [nan] is False. *)
Definition less_float (r : list float64.t) (s : Q) : list bool :=
  map (λ y,
         match y with
         | float64.finite q => Qltb q s
         | float64.inf negative => negative
         | float64.nan => false
         end) r.

(** The values of [r] when all of them are finite. *)
Fixpoint finite_values (r : list float64.t) : option (list Q) :=
  match r with
  | [] => Some []
  | float64.finite q :: r' =>
      match finite_values r' with
      | Some a => Some (q :: a)
      | None => None
      end
  | _ :: _ => None
  end.

(** [a.clip(lo)] *)
Definition clip (a : list Q) (lo : Q) : list Q :=
  map (λ x, if Qltb x lo then lo else x) a.

(** [np.arange(start, stop, step)] on float64 arguments.  The length is the
    ceiling of the float64 quotient [(stop - start) / step], and 1 when a
    positive quotient has underflowed to zero; an infinite quotient is an
    OverflowError and [nan] a ValueError.  The first two values are [start]
    and [start + step]; the value at position [k >= 2] is
    [start + k * delta] for [delta] the float64 difference of the first
    two. *)
Definition arange_length (start stop step : Q) : outcome nat :=
  let span := float64.sub stop start in
  if Qeq_bool (float64.of_Q step) 0 then
    if Qeq_bool span 0 then Raise ValueError else Raise OverflowError
  else
    let q := float64.div span step in
    if Qeq_bool q 0 && negb (Qeq_bool span 0) then
      Return (if Qltb (span / float64.of_Q step) 0 then 0 else 1)
    else Return (Z.to_nat (Qceiling q)).

Definition arange_item (start step : Q) (k : nat) : Q :=
  let next := float64.add start step in
  let delta := float64.sub next start in
  match k with
  | 0 => float64.of_Q start
  | 1 => next
  | _ => float64.add start (float64.mul (Qofnat k) delta)
  end.

Definition arange (start stop step : Q) : outcome (list Q) :=
  match arange_length start stop step with
  | Return n => Return (map (arange_item start step) (seq 0 n))
  | Raise e => Raise e
  end.

(** [np.interp(x, xp, fp)], as numpy's compiled routine computes it.  For
    each [x] in turn the routine looks for the index [j] with
    [xp[j] <= x < xp[j+1]], starting from the index found for the previous
    [x]: [-1] to the left of [xp[0]], the length to the right of [xp[-1]],
    a scan from the left when there are at most 4 sample points, and
    otherwise the three positions around the guess followed by a
    bisection.  The sample points are not required to be sorted. *)
Definition item (a : list Q) (k : Z) : Q := nth (Z.to_nat k) a 0%Q.

Fixpoint linear_scan (key : Q) (rest : list Q) (i : Z) : Z :=
  match rest with
  | [] => (i - 1)%Z
  | y :: rest' =>
      if Qle_bool y key then linear_scan key rest' (i + 1)%Z else (i - 1)%Z
  end.

Definition linear_search (key : Q) (arr : list Q) : Z :=
  linear_scan key (drop 1 arr) 1%Z.

Fixpoint bisect (fuel : nat) (key : Q) (arr : list Q) (imin imax : Z) : Z :=
  match fuel with
  | 0 => (imin - 1)%Z
  | S fuel' =>
      if (imin <? imax)%Z then
        let imid := (imin + Z.shiftr (imax - imin) 1)%Z in
        if Qle_bool (item arr imid) key
        then bisect fuel' key arr (imid + 1)%Z imax
        else bisect fuel' key arr imin imid
      else (imin - 1)%Z
  end.

Definition binary_search_with_guess (key : Q) (arr : list Q) (guess : Z) : Z :=
  let len := Z.of_nat (length arr) in
  if Qltb (item arr (len - 1)) key then len
  else if Qltb key (item arr 0) then (-1)%Z
  else if (len <=? 4)%Z then linear_search key arr
  else
    let guess := if (len - 3 <? guess)%Z then (len - 3)%Z else guess in
    let guess := if (guess <? 1)%Z then 1%Z else guess in
    if Qltb key (item arr guess) then
      if Qltb key (item arr (guess - 1)) then
        let imax := (guess - 1)%Z in
        let imin :=
          if (8 <? guess)%Z && Qle_bool (item arr (guess - 8)) key
          then (guess - 8)%Z else 0%Z in
        bisect (length arr) key arr imin imax
      else (guess - 1)%Z
    else if Qltb key (item arr (guess + 1)) then guess
    else if Qltb key (item arr (guess + 2)) then (guess + 1)%Z
    else
      let imin := (guess + 2)%Z in
      let imax :=
        if (guess <? len - 8 - 1)%Z && Qltb key (item arr (guess + 8))
        then (guess + 8)%Z else len in
      bisect (length arr) key arr imin imax.

(** The interpolant at [x] once the index [j] is found: [fp[0]] to the
    left, [fp[-1]] to the right, the sample value at the last sample point
    and at a sample point met exactly, and otherwise the point of the
    chord through the samples [j] and [j + 1]. *)
Definition interp_value (xp fp : list Q) (j : Z) (x : Q) : Q :=
  let len := Z.of_nat (length xp) in
  if (j =? -1)%Z then item fp 0
  else if (j =? len)%Z then item fp (len - 1)
  else if (j =? len - 1)%Z then item fp j
  else if Qeq_bool (item xp j) x then item fp j
  else
    let slope :=
      ((item fp (j + 1) - item fp j) / (item xp (j + 1) - item xp j))%Q in
    (slope * (x - item xp j) + item fp j)%Q.

Fixpoint interp_loop (xp fp : list Q) (j : Z) (x : list Q) : list Q :=
  match x with
  | [] => []
  | x_val :: x' =>
      let j := binary_search_with_guess x_val xp j in
      interp_value xp fp j x_val :: interp_loop xp fp j x'
  end.

Definition interp (x xp fp : list Q) : outcome (list Q) :=
  match xp with
  | [] => Raise ValueError
  | _ =>
      if decide (length fp = length xp) then Return (interp_loop xp fp 0 x)
      else Raise ValueError
  end.

End np.

(** ** The resampling grid in IEEE binary64

    The coordinates [LinearResampling.filter] computes, on the kernel's
    binary64 floats, for arrays of finite values: [mz_array.min()],
    [mz_array.max()] and [np.arange], which takes
    [ceil((stop - start) / step)] values, the first two being [start] and
    [start + step] and the one at position [k] being [start + k * delta]
    for [delta] the difference of the first two. *)

Module binary64.

(** The least integer not below a finite float. *)
Definition ceil (x : float) : Z :=
  match Prim2SF x with
  | S754_finite s m e =>
      let num := if s then Z.neg m else Z.pos m in
      if (0 <=? e)%Z then (num * 2 ^ e)%Z
      else (- ((- num) / 2 ^ (- e)))%Z
  | _ => 0%Z
  end.

Definition of_nat (n : nat) : float := of_uint63 (Uint63.of_Z (Z.of_nat n)).

(** The rational a finite float denotes. *)
Definition to_Q (x : float) : Q :=
  match Prim2SF x with
  | S754_finite s m e =>
      Qred ((if s then inject_Z (Z.neg m) else inject_Z (Z.pos m)) * 2 ^ e)
  | _ => 0%Q
  end.

Fixpoint amax (a : list float) : option float :=
  match a with
  | [] => None
  | x :: a' =>
      match amax a' with
      | Some m => Some (if PrimFloat.ltb m x then x else m)
      | None => Some x
      end
  end.

Fixpoint amin (a : list float) : option float :=
  match a with
  | [] => None
  | x :: a' =>
      match amin a' with
      | Some m => Some (if PrimFloat.ltb x m then x else m)
      | None => Some x
      end
  end.

Definition arange (start stop step : float) : list float :=
  let n := Z.to_nat (ceil ((stop - start) / step)) in
  match n with
  | 0 => []
  | 1 => [start]
  | S (S k) =>
      let next := (start + step)%float in
      let delta := (next - start)%float in
      start :: next :: map (λ i, start + of_nat i * delta)%float (seq 2 k)
  end.

(** [new_mz] of [LinearResampling.filter]; [None] for the ValueError of an
    empty array. *)
Definition new_mz (spacing : float) (mz_array : list float)
  : option (list float) :=
  match amin mz_array, amax mz_array with
  | Some lo, Some hi => Some (arange lo (hi + spacing) spacing)
  | _, _ => None
  end.

End binary64.

(** ** The store of ndarray objects and the monad of filter code *)

Definition loc := nat.
Abbreviation heap := (list (list Q)).

Definition M (A : Type) : Type := heap → heap * outcome A.

Definition ret {A} (a : A) : M A := λ h, (h, Return a).

Definition raise {A} (e : exn) : M A := λ h, (h, Raise e).

Definition bind {A B} (m : M A) (k : A → M B) : M B :=
  λ h, match m h with
       | (h', Return a) => k a h'
       | (h', Raise e) => (h', Raise e)
       end.

Notation "'let*' x ':=' m 'in' k" := (bind m (λ x, k))
  (at level 10, x name, m at level 100, k at level 200).
Notation "'let*' ( x , y ) ':=' m 'in' k" :=
  (bind m (λ p, let '(x, y) := p in k))
  (at level 10, x name, y name, m at level 100, k at level 200).

(** A pure numpy call inside filter code. *)
Definition lift {A} (o : outcome A) : M A := λ h, (h, o).

(** The values of the array object at [l]; a reference that is not an array
    of the store is a TypeError. *)
Definition get_array (l : loc) : M (list Q) :=
  λ h, match h !! l with
       | Some a => (h, Return a)
       | None => (h, Raise TypeError)
       end.

(** A new array object holding [a]. *)
Definition new_array (a : list Q) : M loc :=
  λ h, (h ++ [a], Return (length h)).

(** A new array object for the result of an elementwise operation.  The
    store holds finite values: when the result holds [inf] or [nan] the run
    ends here. *)
Definition new_float_array (r : list float64.t) : M loc :=
  match np.finite_values r with
  | Some a => new_array a
  | None => raise FloatingPointError
  end.

(** [arr[mask] = v], in place. *)
Definition setitem_mask (l : loc) (mask : list bool) (v : Q) : M unit :=
  let* a := get_array l in
  let* a' := lift (np.setitem a mask v) in
  λ h, (<[l := a']> h, Return tt).

(** ** External collaborators *)

(** Modelled from the spec: the two functions the module imports and does
    not define.  [scipy.signal.savgol_filter] is the windowed polynomial
    smoother; [fticr_denoising.denoise] is the baseline denoiser, which the
    spec gives as a pure function from the two arrays and three parameters
    to a pair of arrays.  Either may fail with an exception. *)
Class Collaborators := {
  savgol_filter : list Q → Z → Z → Z → outcome (list Q);
  fticr_remove_baseline :
    list Q → list Q → Q → Q → Q → outcome (list Q * list Q)
}.

(** Modelled from the spec: what the length invariant needs of them.  The
    smoother returns one value per input value; the denoiser removes
    points, so the two arrays it returns have one length. *)
Class CollaboratorsContract (ext : Collaborators) : Prop := {
  savgol_filter_length x w p d s :
    savgol_filter x w p d = Return s → length s = length x;
  fticr_remove_baseline_length c i w r k c' i' :
    fticr_remove_baseline c i w r k = Return (c', i') → length c' = length i'
}.

(** ** The filter classes *)

Inductive FilterBase : Type :=
| BareFilterBase
| MedianIntensityFilter
| MeanBelowMeanFilter
| SavitskyGolayFilter (window_length polyorder deriv : Z)
| NPercentOfMaxFilter (p : Q)
| FTICRBaselineRemoval (window_length region_width scale : Q)
| LinearResampling (spacing : Q)
| ConstantThreshold (constant : Q)
| MaximumScaler (threshold : Q).

Section Filters.
Context {ext : Collaborators}.

Definition FilterBase_filter (mz_array intensity_array : loc) : M (loc * loc) :=
  ret (mz_array, intensity_array).

Definition MedianIntensityFilter_filter (mz_array intensity_array : loc)
  : M (loc * loc) :=
  let* i := get_array intensity_array in
  let mask := np.less i (np.median i) in
  let* intensity_array := new_array i in
  let* _ := setitem_mask intensity_array mask 0 in
  ret (mz_array, intensity_array).

Definition MeanBelowMeanFilter_filter (mz_array intensity_array : loc)
  : M (loc * loc) :=
  let* i := get_array intensity_array in
  let mean := np.mean i in
  let mean_below_mean := np.mean_bool (np.less i mean) in
  let mask := np.less i mean_below_mean in
  let* _ := setitem_mask intensity_array mask 0 in
  ret (mz_array, intensity_array).

Definition SavitskyGolayFilter_filter (window_length polyorder deriv : Z)
  (mz_array intensity_array : loc) : M (loc * loc) :=
  let* i := get_array intensity_array in
  let* s := lift (savgol_filter i window_length polyorder deriv) in
  let smoothed := np.clip s 0 in
  let mask := np.greater smoothed 0 in
  let* c := get_array mz_array in
  let* c' := lift (np.getitem c mask) in
  let* mz' := new_array c' in
  let* i' := lift (np.getitem smoothed mask) in
  let* int' := new_array i' in
  ret (mz', int').

Definition NPercentOfMaxFilter_filter (p : Q) (mz_array intensity_array : loc)
  : M (loc * loc) :=
  let* i := get_array intensity_array in
  let* m := lift (np.amax i) in
  let mask := np.less_float (np.divide i m) p in
  let* intensity_array_clone := new_array i in
  let* _ := setitem_mask intensity_array_clone mask 0 in
  ret (mz_array, intensity_array_clone).

Definition FTICRBaselineRemoval_filter (window_length region_width scale : Q)
  (mz_array intensity_array : loc) : M (loc * loc) :=
  let* c := get_array mz_array in
  let* i := get_array intensity_array in
  let* (c', i') :=
    lift (fticr_remove_baseline c i window_length region_width scale) in
  let* mz' := new_array c' in
  let* int' := new_array i' in
  ret (mz', int').

Definition LinearResampling_filter (spacing : Q) (mz_array intensity_array : loc)
  : M (loc * loc) :=
  let* c := get_array mz_array in
  let* lo := lift (np.amin c) in
  let* hi := lift (np.amax c) in
  let* g := lift (np.arange lo (float64.add hi spacing) spacing) in
  let* new_mz := new_array g in
  let* i := get_array intensity_array in
  let* v := lift (np.interp g c i) in
  let* new_intensity := new_array v in
  ret (new_mz, new_intensity).

Definition ConstantThreshold_filter (constant : Q) (mz_array intensity_array : loc)
  : M (loc * loc) :=
  let* i := get_array intensity_array in
  let mask := np.greater i constant in
  let* c := get_array mz_array in
  let* c' := lift (np.getitem c mask) in
  let* mz' := new_array c' in
  let* i' := lift (np.getitem i mask) in
  let* int' := new_array i' in
  ret (mz', int').

Definition MaximumScaler_filter (threshold : Q) (mz_array intensity_array : loc)
  : M (loc * loc) :=
  let* i := get_array intensity_array in
  let* m := lift (np.amax i) in
  if Qltb threshold m then
    let* m' := lift (np.amax i) in
    let* scaled :=
      new_float_array (np.multiply (np.divide i m') threshold) in
    ret (mz_array, scaled)
  else ret (mz_array, intensity_array).

(** Method dispatch: [self.filter(mz_array, intensity_array)]. *)
Definition filter_method (self : FilterBase) : loc → loc → M (loc * loc) :=
  match self with
  | BareFilterBase => FilterBase_filter
  | MedianIntensityFilter => MedianIntensityFilter_filter
  | MeanBelowMeanFilter => MeanBelowMeanFilter_filter
  | SavitskyGolayFilter w p d => SavitskyGolayFilter_filter w p d
  | NPercentOfMaxFilter p => NPercentOfMaxFilter_filter p
  | FTICRBaselineRemoval w r s => FTICRBaselineRemoval_filter w r s
  | LinearResampling spacing => LinearResampling_filter spacing
  | ConstantThreshold constant => ConstantThreshold_filter constant
  | MaximumScaler threshold => MaximumScaler_filter threshold
  end.

(** [FilterBase.__call__] *)
Definition call (self : FilterBase) (mz_array intensity_array : loc)
  : M (loc * loc) :=
  filter_method self mz_array intensity_array.

(** ** The registry *)

(** The decorator [register(name, ...)] applied to a class [cls]:
    [instance] is the value of [cls] called on the remaining registration
    arguments; the decorated class itself is returned unchanged and is
    not part of the registry state. *)
Definition register (name : string) (instance : FilterBase)
  (filter_register : gmap string FilterBase) : gmap string FilterBase :=
  <[name := instance]> filter_register.

(** The [__init__] methods that have default arguments; an argument that
    is not passed is [None] here. *)
Definition SavitskyGolayFilter_init (window_length polyorder deriv : option Z)
  : FilterBase :=
  SavitskyGolayFilter (default 5%Z window_length) (default 3%Z polyorder)
    (default 0%Z deriv).

Definition NPercentOfMaxFilter_init (p : option Q) : FilterBase :=
  NPercentOfMaxFilter (default 0.001%Q p).

Definition FTICRBaselineRemoval_init (window_length region_width scale : option Q)
  : FilterBase :=
  FTICRBaselineRemoval (default 1%Q window_length) (default 10%Q region_width)
    (default 5%Q scale).

(** The registry once the module is imported: the decorators run top to
    bottom of the file, the inner decorator of a stack first. *)
Definition filter_register : gmap string FilterBase :=
  register "extreme_scale_limiter" (MaximumScaler 30e3)
  (register "over_10" (ConstantThreshold 10)
  (register "over_100" (ConstantThreshold 100)
  (register "linear_resampling" (LinearResampling 0.01)
  (register "fticr_baseline" (FTICRBaselineRemoval_init None None None)
  (register "tenth_percent_of_max" (NPercentOfMaxFilter_init None)
  (register "one_percent_of_max" (NPercentOfMaxFilter_init (Some 0.01%Q))
  (register "savitsky_golay" (SavitskyGolayFilter_init None None None)
  (register "mean_below_mean" MeanBelowMeanFilter
  (register "median" MedianIntensityFilter ∅))))))))).

(** ** [transform] *)

(** An element of the [filters] iterable: a string, an instance of a
    [FilterBase] class, or any other callable on two arrays. *)
Inductive filter_reference : Type :=
| Name (name : string)
| Instance (filt : FilterBase)
| Callable (f : loc → loc → M (loc * loc)).

(** The callable a reference stands for; [filter_register[filt]] raises
    KeyError for a string that is not registered. *)
Definition resolve (reg : gmap string FilterBase) (filt : filter_reference)
  : M (loc → loc → M (loc * loc)) :=
  match filt with
  | Name name =>
      match reg !! name with
      | Some instance => ret (call instance)
      | None => raise (KeyError name)
      end
  | Instance instance => ret (call instance)
  | Callable f => ret f
  end.

(** The [for filt in filters] loop. *)
Fixpoint transform_loop (reg : gmap string FilterBase)
  (filters : list filter_reference) (mz_array intensity_array : loc)
  : M (loc * loc) :=
  match filters with
  | [] => ret (mz_array, intensity_array)
  | filt :: filters' =>
      let* filt := resolve reg filt in
      let* (mz_array, intensity_array) := filt mz_array intensity_array in
      transform_loop reg filters' mz_array intensity_array
  end.

Definition transform (reg : gmap string FilterBase)
  (mz_array intensity_array : loc) (filters : option (list filter_reference))
  : M (loc * loc) :=
  let filters := default [] filters in
  transform_loop reg filters mz_array intensity_array.

End Filters.

(** * Notions the properties are stated with *)

(** ** Stand-in collaborators for running the model

    The degree-0, window-1 smoother is the identity; every other smoothing
    request and every denoising request is answered as when the
    collaborator cannot be loaded. *)
#[export] Instance stand_in : Collaborators := {
  savgol_filter x w p d :=
    if decide (w = 1 ∧ p = 0 ∧ d = 0)%Z then Return x else Raise ImportError;
  fticr_remove_baseline c i w r k := Raise ImportError
}.

(** ** Values and points *)

(** The values left by [a[a < s] = 0]. *)
Definition zero_below (s : option Q) (a : list Q) : list Q :=
  map (λ x, match s with
            | Some m => if Qltb x m then 0%Q else x
            | None => x
            end) a.

(** Following the spec's words for the constant-threshold variant: the
    points, in order, whose intensity is strictly greater than the
    constant. *)
Definition points_over (constant : Q) (c i : list Q) : list (Q * Q) :=
  List.filter (λ p, Qltb constant p.2) (zip c i).

(** ** Stages *)

(** The one class whose [filter] assigns into its argument. *)
Definition writes_in_place (instance : FilterBase) : bool :=
  match instance with
  | MeanBelowMeanFilter => true
  | _ => false
  end.

(** A stage that stands for such a filter. *)
Definition copying_stage (reg : gmap string FilterBase)
  (filt : filter_reference) : Prop :=
  match filt with
  | Name name =>
      ∀ instance, reg !! name = Some instance → writes_in_place instance = false
  | Instance instance => writes_in_place instance = false
  | Callable _ => False
  end.

(** A stage that stands for one of the filter variants. *)
Definition variant_stage (filt : filter_reference) : Prop :=
  match filt with
  | Callable _ => False
  | _ => True
  end.

(** A reference that is not a string. *)
Definition nameless (filt : filter_reference) : Prop :=
  match filt with
  | Name _ => False
  | _ => True
  end.

(** ** Measurement pairs *)

(** The two references are arrays of the store of one length. *)
Definition paired (h : heap) (mz int : loc) : Prop :=
  ∃ c i, h !! mz = Some c ∧ h !! int = Some i ∧ length c = length i.

(** The inputs on which a variant returns: the arrays are not empty where
    a maximum or a minimum is taken, the float64 spacing is not zero, the
    collaborator answers.  For the maximum rescale the inputs with maximum
    0 and a negative threshold are left out: the code returns an array of
    [inf] and [nan] on them, which the store does not hold. *)
Definition valid_input {ext : Collaborators} (instance : FilterBase)
  (c i : list Q) : Prop :=
  match instance with
  | BareFilterBase | MedianIntensityFilter | MeanBelowMeanFilter
  | ConstantThreshold _ => True
  | SavitskyGolayFilter w p d => ∃ s, savgol_filter i w p d = Return s
  | NPercentOfMaxFilter _ => i ≠ []
  | FTICRBaselineRemoval w r k =>
      ∃ c' i', fticr_remove_baseline c i w r k = Return (c', i')
  | LinearResampling spacing => c ≠ [] ∧ ¬ (float64.of_Q spacing == 0)%Q
  | MaximumScaler threshold =>
      ∃ m, np.amax i = Return m ∧ ((m <= threshold)%Q ∨ ¬ (m == 0)%Q)
  end.

(** The intensity [v] that a variant which keeps or selects points has for
    each input position, from the input intensities [i]: the input
    intensity itself; that or 0 for the variants that zero values; the
    input intensity times one factor for the maximum rescale; the clipped
    value of the smoother for Savitzky-Golay. *)
Definition point_values {ext : Collaborators} (instance : FilterBase)
  (i v : list Q) : Prop :=
  match instance with
  | BareFilterBase | ConstantThreshold _ => v = i
  | SavitskyGolayFilter w p d =>
      ∃ s, savgol_filter i w p d = Return s ∧ v = np.clip s 0
  | MaximumScaler _ => ∃ k, Forall2 (λ x y, y == x * k)%Q i v
  | _ => Forall2 (λ x y, y = x ∨ y = 0%Q) i v
  end.

(** How the returned arrays relate position by position to the input.
    For the variants that keep or select points there is one selection of
    input positions that gives both arrays: the coordinates returned are
    the input coordinates at these positions, and the intensities returned
    are the values [point_values] at the same positions.  For resampling
    the intensities are [np.interp] of the input at the coordinates
    returned.  For the external denoiser the pair is the one it
    returned. *)
Definition corresponds {ext : Collaborators} (instance : FilterBase)
  (c i c' i' : list Q) : Prop :=
  match instance with
  | FTICRBaselineRemoval w r k =>
      fticr_remove_baseline c i w r k = Return (c', i')
  | LinearResampling _ => np.interp c' c i = Return i'
  | _ =>
      ∃ (mask : list bool) (v : list Q),
        length mask = length c ∧ length v = length c ∧
        point_values instance i v ∧
        c' = np.select mask c ∧ i' = np.select mask v
  end.

(** What the interval search of [np.interp] returns for [key] in the
    sample points [arr]: [-1] below the first sample point, the length
    above the last one, and otherwise an index [j] with [arr[j] <= key]
    that is the last index or has [key < arr[j + 1]]. *)
Definition bracket (arr : list Q) (key : Q) (j : Z) : Prop :=
  let len := Z.of_nat (length arr) in
  (j = (-1)%Z ∧ (key < np.item arr 0)%Q) ∨
  (j = len ∧ (np.item arr (len - 1) < key)%Q) ∨
  ((0 <= j < len)%Z ∧
   ((np.item arr 0 <= key)%Q ∧ (key <= np.item arr (len - 1))%Q) ∧
   (np.item arr j <= key)%Q ∧
   (j = (len - 1)%Z ∨ (key < np.item arr (j + 1))%Q)).

(** A rational that is a float64 value. *)
Definition is_float64 (x : Q) : Prop := (float64.of_Q x == x)%Q.

(** No operation of the resampling grid rounds: the ends, the spacing and
    every grid point are float64 values, and so are the stop value, the
    span and the number of steps. *)
Definition exact_grid (lo hi spacing : Q) (n : nat) : Prop :=
  is_float64 lo ∧ is_float64 hi ∧ is_float64 spacing ∧
  is_float64 (hi + spacing) ∧ is_float64 (hi + spacing - lo) ∧
  is_float64 ((hi + spacing - lo) / spacing) ∧
  ∀ k, k < n →
    is_float64 (Qofnat k) ∧ is_float64 (Qofnat k * spacing) ∧
    is_float64 (lo + Qofnat k * spacing).

(** * Properties *)

(** ** Rounding to float64 *)

Lemma pow2_pos z : (0 < 2 ^ z)%Q.
Proof. by apply Qpower_0_lt. Qed.

Lemma pow2_plus n m : (2 ^ (n + m) == 2 ^ n * 2 ^ m)%Q.
Proof. by apply Qpower_plus. Qed.

Lemma pow2_le n m : (n <= m)%Z → (2 ^ n <= 2 ^ m)%Q.
Proof. intros H. by apply Qpower_le_compat_l. Qed.

Lemma pow2_lt_inv n m : (2 ^ n < 2 ^ m)%Q → (n < m)%Z.
Proof. intros H. by apply (Qpower_lt_compat_l_inv 2). Qed.

Lemma pow2_Z n : (0 <= n)%Z → (inject_Z (2 ^ n) == 2 ^ n)%Q.
Proof. intros H. by rewrite Zpower_Qpower. Qed.

Lemma pow2_div a n m : (a * 2 ^ n / 2 ^ m == a * 2 ^ (n - m))%Q.
Proof.
  unfold Z.sub. rewrite pow2_plus, Qpower_opp. field.
  pose proof (pow2_pos m). lra.
Qed.

Lemma Qnum_pos (q : Q) : (0 < q)%Q ↔ (0 < Qnum q)%Z.
Proof. unfold Qlt. simpl. lia. Qed.

Lemma ilog2_spec (a : Q) :
  (0 < a)%Q →
  (2 ^ float64.ilog2 a <= a)%Q ∧ (a < 2 ^ (float64.ilog2 a + 1))%Q.
Proof.
  intros Ha. destruct a as [n d]. apply Qnum_pos in Ha as Hn. simpl in Hn.
  unfold float64.ilog2. cbn [Qnum Qden].
  set (ln := Z.log2 n). set (ld := Z.log2 (Z.pos d)).
  destruct (Z.log2_spec n Hn) as [Hn1 Hn2]. fold ln in Hn1, Hn2.
  destruct (Z.log2_spec (Z.pos d) eq_refl) as [Hd1 Hd2]. fold ld in Hd1, Hd2.
  assert (Hln : (0 <= ln)%Z) by apply Z.log2_nonneg.
  assert (Hld : (0 <= ld)%Z) by apply Z.log2_nonneg.
  assert (Hq : (n # d == inject_Z n / inject_Z (Z.pos d))%Q) by apply Qmake_Qdiv.
  assert (Hdpos : (0 < inject_Z (Z.pos d))%Q).
  { change 0%Q with (inject_Z 0). by rewrite <- Zlt_Qlt. }
  assert (Hn1' : (2 ^ ln <= inject_Z n)%Q).
  { rewrite <- pow2_Z by done. by rewrite <- Zle_Qle. }
  assert (Hn2' : (inject_Z n < 2 ^ (ln + 1))%Q).
  { rewrite <- pow2_Z by lia. rewrite <- Zlt_Qlt. by rewrite <- Z.add_1_r in Hn2. }
  assert (Hd1' : (2 ^ ld <= inject_Z (Z.pos d))%Q).
  { rewrite <- pow2_Z by done. by rewrite <- Zle_Qle. }
  assert (Hd2' : (inject_Z (Z.pos d) < 2 ^ (ld + 1))%Q).
  { rewrite <- pow2_Z by lia. rewrite <- Zlt_Qlt. by rewrite <- Z.add_1_r in Hd2. }
  (* the quotient lies strictly between 2^(k-1) and 2^(k+1) *)
  assert (Hup : (n # d < 2 ^ (ln - ld + 1))%Q).
  { rewrite Hq. apply Qlt_shift_div_r; [done|].
    assert (E : (2 ^ (ln - ld + 1) * 2 ^ ld == 2 ^ (ln + 1))%Q).
    { rewrite <- pow2_plus. by replace (ln - ld + 1 + ld)%Z with (ln + 1)%Z by lia. }
    pose proof (pow2_pos (ln - ld + 1)) as HP.
    assert (Hm : (2 ^ (ln - ld + 1) * 2 ^ ld
                  <= 2 ^ (ln - ld + 1) * inject_Z (Z.pos d))%Q).
    { apply Qmult_le_l; done. }
    lra. }
  assert (Hdown : (2 ^ (ln - ld - 1) < n # d)%Q).
  { rewrite Hq. apply Qlt_shift_div_l; [done|].
    assert (E : (2 ^ (ln - ld - 1) * 2 ^ (ld + 1) == 2 ^ ln)%Q).
    { rewrite <- pow2_plus. by replace (ln - ld - 1 + (ld + 1))%Z with ln by lia. }
    pose proof (pow2_pos (ln - ld - 1)) as HP.
    assert (Hm : (2 ^ (ln - ld - 1) * inject_Z (Z.pos d)
                  < 2 ^ (ln - ld - 1) * 2 ^ (ld + 1))%Q).
    { apply Qmult_lt_l; done. }
    lra. }
  destruct (Qle_bool (2 ^ (ln - ld)) (n # d)) eqn:Hb.
  - apply Qle_bool_iff in Hb. done.
  - assert (Hlt : (n # d < 2 ^ (ln - ld))%Q).
    { apply Qnot_le_lt. intros Hle. apply Qle_bool_iff in Hle. congruence. }
    replace (ln - ld - 1 + 1)%Z with (ln - ld)%Z by lia.
    split; [by apply Qlt_le_weak | done].
Qed.

Lemma ilog2_unique (a : Q) l :
  (2 ^ l <= a)%Q → (a < 2 ^ (l + 1))%Q → float64.ilog2 a = l.
Proof.
  intros H1 H2.
  assert (Ha : (0 < a)%Q) by (pose proof (pow2_pos l); lra).
  destruct (ilog2_spec a Ha) as [H3 H4].
  assert ((float64.ilog2 a < l + 1)%Z) by (apply pow2_lt_inv; lra).
  assert ((l < float64.ilog2 a + 1)%Z) by (apply pow2_lt_inv; lra).
  lia.
Qed.

Lemma ilog2_mono (a b : Q) :
  (0 < a)%Q → (a <= b)%Q → (float64.ilog2 a <= float64.ilog2 b)%Z.
Proof.
  intros Ha Hab.
  destruct (ilog2_spec a Ha) as [H1 _].
  destruct (ilog2_spec b) as [_ H2]; [lra|].
  assert ((float64.ilog2 a < float64.ilog2 b + 1)%Z) by (apply pow2_lt_inv; lra).
  lia.
Qed.

Lemma ilog2_comp (a b : Q) : (a == b)%Q → (0 < a)%Q → float64.ilog2 a = float64.ilog2 b.
Proof.
  intros Hab Ha. symmetry. destruct (ilog2_spec a Ha).
  apply ilog2_unique; lra.
Qed.

(** Rounding to the nearest integer *)

Lemma rint_near (q : Q) :
  (q - (1 # 2) <= inject_Z (float64.rint q))%Q ∧
  (inject_Z (float64.rint q) <= q + (1 # 2))%Q.
Proof.
  unfold float64.rint.
  pose proof (Qfloor_le q) as H1. pose proof (Qlt_floor q) as H2.
  rewrite inject_Z_plus in H2. change (inject_Z 1) with 1%Q in H2.
  destruct (q - inject_Z (Qfloor q) ?= 1 # 2)%Q eqn:Hc.
  - apply Qeq_alt in Hc.
    destruct (Z.even (Qfloor q)); [|rewrite inject_Z_plus; change (inject_Z 1) with 1%Q];
      lra.
  - apply Qlt_alt in Hc. lra.
  - apply Qgt_alt in Hc. rewrite inject_Z_plus. change (inject_Z 1) with 1%Q. lra.
Qed.

Lemma rint_comp (q q' : Q) : (q == q')%Q → float64.rint q = float64.rint q'.
Proof.
  intros H. unfold float64.rint. rewrite (Qfloor_comp _ _ H).
  assert (Hc : (q - inject_Z (Qfloor q') ?= 1 # 2)%Q
               = (q' - inject_Z (Qfloor q') ?= 1 # 2)%Q).
  { apply Qcompare_comp; [by rewrite H | done]. }
  by rewrite Hc.
Qed.

Lemma rint_Z (z : Z) : float64.rint (inject_Z z) = z.
Proof.
  unfold float64.rint. rewrite Qfloor_Z.
  assert (Hc : (inject_Z z - inject_Z z ?= 1 # 2)%Q = Lt).
  { rewrite <- Qlt_alt.
    assert (E : (inject_Z z - inject_Z z == 0)%Q) by ring.
    by rewrite E. }
  by rewrite Hc.
Qed.

Lemma rint_mono (q q' : Q) :
  (q <= q')%Q → (float64.rint q <= float64.rint q')%Z.
Proof.
  intros H.
  destruct (rint_near q) as [_ H1]. destruct (rint_near q') as [H2 _].
  destruct (Z_le_gt_dec (float64.rint q) (float64.rint q')) as [|Hgt]; [done|].
  assert (Hz : (float64.rint q' + 1 <= float64.rint q)%Z) by lia.
  rewrite Zle_Qle in Hz. rewrite inject_Z_plus in Hz.
  change (inject_Z 1) with 1%Q in Hz.
  assert (Heq : (q == q')%Q) by lra.
  rewrite (rint_comp _ _ Heq) in Hgt. lia.
Qed.

(** The rounded value of a positive number *)

Lemma round_unfold a :
  float64.round a = (inject_Z (float64.rint (a / 2 ^ float64.expo a)) * 2 ^ float64.expo a)%Q.
Proof. done. Qed.

Lemma mantissa_upper (a : Q) :
  (0 < a)%Q → (float64.rint (a / 2 ^ float64.expo a) <= 2 ^ 53)%Z.
Proof.
  intros Ha. destruct (ilog2_spec a Ha) as [_ H].
  rewrite <- (rint_Z (2 ^ 53)). apply rint_mono.
  rewrite pow2_Z by done.
  apply Qle_shift_div_r; [apply pow2_pos|].
  rewrite <- pow2_plus.
  apply Qlt_le_weak, Qlt_le_trans with (2 ^ (float64.ilog2 a + 1))%Q; [done|].
  apply pow2_le. unfold float64.expo. lia.
Qed.

Lemma mantissa_lower (a : Q) :
  (0 < a)%Q → (-1074 < float64.expo a)%Z → (2 ^ 52 <= float64.rint (a / 2 ^ float64.expo a))%Z.
Proof.
  intros Ha He. destruct (ilog2_spec a Ha) as [H _].
  rewrite <- (rint_Z (2 ^ 52)). apply rint_mono.
  rewrite pow2_Z by done.
  apply Qle_shift_div_l; [apply pow2_pos|].
  rewrite <- pow2_plus.
  apply Qle_trans with (2 ^ float64.ilog2 a)%Q; [|done].
  apply pow2_le. unfold float64.expo in *. lia.
Qed.

Lemma mantissa_nonneg (a : Q) :
  (0 < a)%Q → (0 <= float64.rint (a / 2 ^ float64.expo a))%Z.
Proof.
  intros Ha. rewrite <- (rint_Z 0). apply rint_mono.
  apply Qle_shift_div_l; [apply pow2_pos|].
  change (inject_Z 0) with 0%Q. lra.
Qed.

Lemma round_nonneg (a : Q) : (0 < a)%Q → (0 <= float64.round a)%Q.
Proof.
  intros Ha. rewrite round_unfold.
  apply Qmult_le_0_compat; [|apply Qlt_le_weak, pow2_pos].
  change 0%Q with (inject_Z 0). rewrite <- Zle_Qle. by apply mantissa_nonneg.
Qed.

Lemma round_mono (a b : Q) :
  (0 < a)%Q → (a <= b)%Q → (float64.round a <= float64.round b)%Q.
Proof.
  intros Ha Hab. assert (Hb : (0 < b)%Q) by lra.
  pose proof (ilog2_mono a b Ha Hab) as Hl.
  rewrite !round_unfold.
  destruct (Z.eq_dec (float64.expo a) (float64.expo b)) as [He|He].
  - rewrite He. apply Qmult_le_r; [apply pow2_pos|].
    rewrite <- Zle_Qle. apply rint_mono.
    apply Qmult_le_r; [apply Qinv_lt_0_compat, pow2_pos | done].
  - assert (Hlt : (float64.expo a < float64.expo b)%Z) by (unfold float64.expo in *; lia).
    pose proof (mantissa_upper a Ha) as Hu.
    pose proof (mantissa_lower b Hb) as Hlow.
    assert (Hlow' : (2 ^ 52 <= float64.rint (b / 2 ^ float64.expo b))%Z).
    { apply Hlow. unfold float64.expo in *. lia. }
    rewrite Zle_Qle in Hu, Hlow'. rewrite pow2_Z in Hu, Hlow' by done.
    apply Qle_trans with (2 ^ 53 * 2 ^ float64.expo a)%Q.
    { apply Qmult_le_r; [apply pow2_pos | done]. }
    apply Qle_trans with (2 ^ 52 * 2 ^ float64.expo b)%Q.
    2:{ apply Qmult_le_r; [apply pow2_pos | done]. }
    rewrite <- !pow2_plus. apply pow2_le. lia.
Qed.

Lemma round_comp (a b : Q) :
  (a == b)%Q → (0 < a)%Q → (float64.round a == float64.round b)%Q.
Proof.
  intros Hab Ha. rewrite !round_unfold. unfold float64.expo.
  rewrite <- (ilog2_comp a b Hab Ha).
  set (e := Z.max (float64.ilog2 a - 52) (-1074)).
  assert (E : (a / 2 ^ e == b / 2 ^ e)%Q).
  { apply Qmult_comp; [done | reflexivity]. }
  by rewrite (rint_comp _ _ E).
Qed.

(** A value [m * 2 ^ e] with at most 53 bits is left as it is. *)
Lemma round_fixed (m e : Z) :
  (0 < m)%Z → (m <= 2 ^ 53)%Z → (-1074 <= e)%Z →
  (float64.round (inject_Z m * 2 ^ e) == inject_Z m * 2 ^ e)%Q.
Proof.
  intros Hm Hm53 He.
  set (v := (inject_Z m * 2 ^ e)%Q).
  destruct (Z.log2_spec m Hm) as [H1 H2].
  assert (Hlog : (0 <= Z.log2 m)%Z) by apply Z.log2_nonneg.
  assert (Hl : float64.ilog2 v = (Z.log2 m + e)%Z).
  { apply ilog2_unique; unfold v.
    - rewrite pow2_plus. apply Qmult_le_r; [apply pow2_pos|].
      rewrite <- pow2_Z by done. by rewrite <- Zle_Qle.
    - replace (Z.log2 m + e + 1)%Z with ((Z.log2 m + 1) + e)%Z by lia.
      rewrite pow2_plus. apply Qmult_lt_r; [apply pow2_pos|].
      rewrite <- pow2_Z by lia. rewrite <- Zlt_Qlt. by rewrite <- Z.add_1_r in H2. }
  rewrite round_unfold. unfold float64.expo. rewrite Hl.
  set (e' := Z.max (Z.log2 m + e - 52) (-1074)).
  assert (Hlog53 : (Z.log2 m <= 53)%Z).
  { pose proof (Z.log2_le_mono m (2 ^ 53) Hm53) as H.
    by rewrite Z.log2_pow2 in H by lia. }
  destruct (Z.eq_dec (Z.log2 m) 53%Z) as [H53|H53].
  - (* m = 2^53 *)
    assert (Hm' : m = (2 ^ 53)%Z) by (rewrite H53 in H1; lia).
    assert (He' : e' = (e + 1)%Z) by (unfold e'; lia).
    rewrite He'.
    assert (Hq : (v / 2 ^ (e + 1) == inject_Z (2 ^ 52))%Q).
    { unfold v. rewrite pow2_div. replace (e - (e + 1))%Z with (-1)%Z by lia.
      rewrite Hm'. done. }
    rewrite (rint_comp _ _ Hq), rint_Z. unfold v. rewrite Hm', pow2_plus.
    assert (E : (inject_Z (2 ^ 53) == inject_Z (2 ^ 52) * 2 ^ 1)%Q) by done.
    rewrite E. ring.
  - assert (He' : (e' <= e)%Z) by (unfold e'; lia).
    assert (Hq : (v / 2 ^ e' == inject_Z (m * 2 ^ (e - e')))%Q).
    { unfold v. rewrite pow2_div, inject_Z_mult, pow2_Z by lia. done. }
    rewrite (rint_comp _ _ Hq), rint_Z.
    rewrite inject_Z_mult, pow2_Z by lia. unfold v.
    rewrite <- Qmult_assoc, <- pow2_plus.
    by replace (e - e' + e')%Z with e by lia.
Qed.

Lemma round_round (a : Q) :
  (0 < a)%Q → (0 < float64.round a)%Q →
  (float64.round (float64.round a) == float64.round a)%Q.
Proof.
  intros Ha Hpos. rewrite (round_unfold a) in *.
  apply round_fixed.
  - pose proof (pow2_pos (float64.expo a)).
    destruct (Z_lt_le_dec 0 (float64.rint (a / 2 ^ float64.expo a))) as [|Hle]; [done|].
    rewrite Zle_Qle in Hle. change (inject_Z 0) with 0%Q in Hle. nra.
  - by apply mantissa_upper.
  - unfold float64.expo. lia.
Qed.

(** ** The laws of [of_Q] *)

Lemma of_Q_comp (x y : Q) : (x == y)%Q → float64.of_Q x = float64.of_Q y.
Proof. intros H. unfold float64.of_Q. by rewrite (Qred_complete _ _ H). Qed.

Lemma of_Q_pos (x : Q) : (0 < x)%Q → (float64.of_Q x == float64.round x)%Q.
Proof.
  intros Hx. unfold float64.of_Q.
  assert (Hr : (0 < Qred x)%Q) by (by rewrite Qred_correct).
  apply Qnum_pos in Hr as Hn.
  destruct (Qnum (Qred x)) eqn:E; try lia.
  rewrite Qred_correct. apply round_comp; [apply Qred_correct | done].
Qed.

Lemma of_Q_neg (x : Q) : (x < 0)%Q → (float64.of_Q x == - float64.round (- x))%Q.
Proof.
  intros Hx. unfold float64.of_Q.
  assert (Hr : (Qred x < 0)%Q) by (by rewrite Qred_correct).
  assert (Hn : (Qnum (Qred x) < 0)%Z).
  { unfold Qlt in Hr. simpl in Hr. lia. }
  destruct (Qnum (Qred x)) eqn:E; try lia.
  rewrite Qred_correct. apply Qopp_comp.
  apply round_comp; [by rewrite Qred_correct | rewrite Qred_correct; lra].
Qed.

Lemma of_Q_zero (x : Q) : (x == 0)%Q → float64.of_Q x = 0%Q.
Proof. intros H. by rewrite (of_Q_comp _ _ H). Qed.

Lemma of_Q_nonneg (x : Q) : (0 <= x)%Q → (0 <= float64.of_Q x)%Q.
Proof.
  intros Hx. destruct (Qlt_le_dec 0 x) as [Hpos|Hle].
  - rewrite of_Q_pos by done. by apply round_nonneg.
  - rewrite of_Q_zero by lra. lra.
Qed.

Lemma of_Q_nonpos (x : Q) : (x <= 0)%Q → (float64.of_Q x <= 0)%Q.
Proof.
  intros Hx. destruct (Qlt_le_dec x 0) as [Hneg|Hle].
  - rewrite of_Q_neg by done.
    pose proof (round_nonneg (- x)). lra.
  - rewrite of_Q_zero by lra. lra.
Qed.

Lemma of_Q_monotone (x y : Q) :
  (x <= y)%Q → (float64.of_Q x <= float64.of_Q y)%Q.
Proof.
  intros Hxy.
  destruct (Qlt_le_dec 0 x) as [Hx|Hx].
  - rewrite !of_Q_pos by lra. by apply round_mono.
  - destruct (Qlt_le_dec 0 y) as [Hy|Hy].
    + pose proof (of_Q_nonpos x Hx). pose proof (of_Q_nonneg y). lra.
    + destruct (Qlt_le_dec y 0) as [Hy'|Hy'].
      * rewrite !of_Q_neg by lra.
        pose proof (round_mono (- y) (- x)). lra.
      * rewrite (of_Q_zero y) by lra. by apply of_Q_nonpos.
Qed.

Lemma of_Q_Qred (x : Q) : Qred (float64.of_Q x) = float64.of_Q x.
Proof.
  unfold float64.of_Q. destruct (Qnum (Qred x)); [done|..];
    apply Qred_complete, Qred_correct.
Qed.

Lemma of_Q_idempotent (x : Q) :
  float64.of_Q (float64.of_Q x) = float64.of_Q x.
Proof.
  transitivity (Qred (float64.of_Q (float64.of_Q x)));
    [symmetry; apply of_Q_Qred|].
  transitivity (Qred (float64.of_Q x)); [|apply of_Q_Qred].
  apply Qred_complete.
  destruct (Qlt_le_dec 0 x) as [Hx|Hx].
  - pose proof (of_Q_pos x Hx) as E. pose proof (round_nonneg x Hx) as Hr.
    destruct (Qlt_le_dec 0 (float64.round x)) as [Hpos|Hz].
    + rewrite (of_Q_comp _ _ E), of_Q_pos by done. rewrite E.
      by apply round_round.
    + assert (E0 : (float64.of_Q x == 0)%Q) by lra.
      rewrite (of_Q_comp _ _ E0). simpl. by rewrite E0.
  - destruct (Qlt_le_dec x 0) as [Hneg|Hx0].
    + pose proof (of_Q_neg x Hneg) as E.
      assert (Hnx : (0 < - x)%Q) by lra.
      pose proof (round_nonneg (- x) Hnx) as Hr.
      destruct (Qlt_le_dec 0 (float64.round (- x))) as [Hpos|Hz].
      * rewrite (of_Q_comp _ _ E), of_Q_neg by lra. rewrite E.
        apply Qopp_comp.
        assert (E2 : (- - float64.round (- x) == float64.round (- x))%Q) by ring.
        rewrite (round_comp _ _ E2) by lra. by apply round_round.
      * assert (E0 : (float64.of_Q x == 0)%Q) by lra.
        rewrite (of_Q_comp _ _ E0). simpl. by rewrite E0.
    + rewrite (of_Q_zero x) by lra. done.
Qed.

Lemma of_Q_1 : float64.of_Q 1 = 1%Q.
Proof. by vm_compute. Qed.

(** ** Comparisons and masks *)

Lemma Qltb_lt x y : Qltb x y = true ↔ (x < y)%Q.
Proof.
  unfold Qltb. rewrite negb_true_iff, <- not_true_iff_false, Qle_bool_iff.
  split; [apply Qnot_le_lt | apply Qlt_not_le].
Qed.

Lemma Qltb_ge x y : Qltb x y = false ↔ (y <= x)%Q.
Proof.
  unfold Qltb. rewrite negb_false_iff. apply Qle_bool_iff.
Qed.

Lemma Qeq_bool_false x y : Qeq_bool x y = false ↔ ¬ (x == y)%Q.
Proof.
  rewrite <- not_true_iff_false, Qeq_bool_iff. tauto.
Qed.

Lemma length_less a s : length (np.less a s) = length a.
Proof. destruct s; simpl; apply length_map. Qed.

Lemma length_greater a s : length (np.greater a s) = length a.
Proof. apply length_map. Qed.

Lemma select_length_eq mask (a b : list Q) :
  length a = length b →
  length (np.select mask a) = length (np.select mask b).
Proof.
  revert a b. induction mask as [|m mask IH]; intros [|x a] [|y b] Hlen;
    simpl in *; try done.
  destruct m; simpl; auto.
Qed.

(** Selecting coordinates and intensities with a mask computed from the
    intensities keeps the points whose intensity passes the test. *)
Lemma select_points (P : Q → bool) (c i : list Q) :
  length c = length i →
  np.select (map P i) c = (List.filter (λ p, P p.2) (zip c i)).*1 ∧
  np.select (map P i) i = (List.filter (λ p, P p.2) (zip c i)).*2.
Proof.
  revert i. induction c as [|x c IH]; intros [|y i] Hlen; simpl in *; try done.
  destruct (IH i) as [IH1 IH2]; [lia|].
  destruct (P y); simpl; by rewrite IH1, IH2.
Qed.

(** ** Running store operations *)

Lemma lookup_new (h : heap) a : (h ++ [a]) !! length h = Some a.
Proof. by rewrite lookup_app_r, Nat.sub_diag. Qed.

Lemma lookup_old (h : heap) a l x : h !! l = Some x → (h ++ [a]) !! l = Some x.
Proof. intros H. by apply lookup_app_l_Some. Qed.

Lemma insert_new (h : heap) a b : <[length h := b]> (h ++ [a]) = h ++ [b].
Proof.
  rewrite insert_app_r_alt, Nat.sub_diag; [done | lia].
Qed.

Lemma run_get_array {A} l a (k : list Q → M A) (h : heap) :
  h !! l = Some a → bind (get_array l) k h = k a h.
Proof. intros H. unfold bind, get_array. by rewrite H. Qed.

Lemma run_new_array {A} a (k : loc → M A) (h : heap) :
  bind (new_array a) k h = k (length h) (h ++ [a]).
Proof. done. Qed.

Lemma run_lift {A B} (a : A) o (k : A → M B) (h : heap) :
  o = Return a → bind (lift o) k h = k a h.
Proof. by intros ->. Qed.

Lemma run_setitem_mask {A} l a a' mask v (k : unit → M A) (h : heap) :
  h !! l = Some a → np.setitem a mask v = Return a' →
  bind (setitem_mask l mask v) k h = k tt (<[l := a']> h).
Proof.
  intros Hl Hs. unfold setitem_mask.
  unfold bind at 1. rewrite (run_get_array l a) by done.
  by rewrite (run_lift a') by done.
Qed.

Lemma setitem_map_mask (P : Q → bool) a v :
  np.setitem a (map P a) v = Return (map (λ x, if P x then v else x) a).
Proof.
  unfold np.setitem. rewrite length_map.
  destruct (decide (length a = length a)) as [_|]; [|done].
  f_equal. induction a as [|x a IH]; simpl; f_equal; auto.
Qed.

Lemma setitem_zero_below a s :
  np.setitem a (np.less a s) 0 = Return (zero_below s a).
Proof.
  unfold np.less, zero_below. destruct s; rewrite setitem_map_mask; [done|].
  f_equal.
Qed.

Lemma length_zero_below s a : length (zero_below s a) = length a.
Proof. apply length_map. Qed.

(** ** What each filter does to the store *)

Section Runs.
Context {ext : Collaborators}.
Implicit Types (h : heap) (mz int : loc) (c i : list Q).

Lemma MedianIntensityFilter_run h mz int i :
  h !! int = Some i →
  MedianIntensityFilter_filter mz int h
  = (h ++ [zero_below (np.median i) i], Return (mz, length h)).
Proof.
  intros Hi. unfold MedianIntensityFilter_filter.
  rewrite (run_get_array int i) by done.
  rewrite run_new_array.
  rewrite (run_setitem_mask _ i (zero_below (np.median i) i));
    [| apply lookup_new | apply setitem_zero_below].
  by rewrite insert_new.
Qed.

Lemma MeanBelowMeanFilter_run h mz int i :
  h !! int = Some i →
  MeanBelowMeanFilter_filter mz int h
  = (<[int := zero_below (np.mean_bool (np.less i (np.mean i))) i]> h,
     Return (mz, int)).
Proof.
  intros Hi. unfold MeanBelowMeanFilter_filter.
  rewrite (run_get_array int i) by done.
  by rewrite (run_setitem_mask _ i _ _ _ _ _ Hi (setitem_zero_below _ _)).
Qed.

Lemma less_float_divide i m p :
  np.less_float (np.divide i m) p
  = map (λ x, if Qeq_bool m 0 then Qltb x 0 else Qltb (x / m) p) i.
Proof.
  unfold np.less_float, np.divide. rewrite map_map. apply map_ext. intros x.
  destruct (Qeq_bool m 0); [|done].
  destruct (Qeq_bool x 0) eqn:Hx; [|done].
  apply Qeq_bool_iff in Hx. symmetry. apply Qltb_ge. lra.
Qed.

(** The p-fraction-of-max filter on any non-empty intensities: with a
    maximum of 0 the quotients are [-inf] for the negative intensities and
    [nan] for the zeros, so the negative intensities are the ones below
    [p]. *)
Lemma NPercentOfMaxFilter_run_any p h mz int i m :
  h !! int = Some i → np.amax i = Return m →
  NPercentOfMaxFilter_filter p mz int h
  = (h ++ [map (λ x, if (if Qeq_bool m 0 then Qltb x 0 else Qltb (x / m) p)
                     then 0%Q else x) i],
     Return (mz, length h)).
Proof.
  intros Hi Hm. unfold NPercentOfMaxFilter_filter.
  rewrite (run_get_array int i) by done.
  rewrite (run_lift m) by done.
  rewrite run_new_array, less_float_divide.
  rewrite (run_setitem_mask _ i
             (map (λ x, if (if Qeq_bool m 0 then Qltb x 0 else Qltb (x / m) p)
                        then 0%Q else x) i));
    [by rewrite insert_new | apply lookup_new |].
  apply (setitem_map_mask
           (λ x, if Qeq_bool m 0 then Qltb x 0 else Qltb (x / m) p)).
Qed.

Lemma NPercentOfMaxFilter_run p h mz int i m :
  h !! int = Some i → np.amax i = Return m → ¬ (m == 0)%Q →
  NPercentOfMaxFilter_filter p mz int h
  = (h ++ [map (λ x, if Qltb (x / m) p then 0%Q else x) i],
     Return (mz, length h)).
Proof.
  intros Hi Hm Hm0. rewrite (NPercentOfMaxFilter_run_any p h mz int i m) by done.
  by apply Qeq_bool_false in Hm0 as ->.
Qed.

Lemma ConstantThreshold_run constant h mz int c i :
  h !! mz = Some c → h !! int = Some i → length c = length i →
  ConstantThreshold_filter constant mz int h
  = (h ++ [np.select (np.greater i constant) c]
       ++ [np.select (np.greater i constant) i],
     Return (length h, S (length h))).
Proof.
  intros Hc Hi Hlen. unfold ConstantThreshold_filter.
  rewrite (run_get_array int i) by done.
  rewrite (run_get_array mz c) by done.
  rewrite (run_lift (np.select (np.greater i constant) c)).
  2:{ unfold np.getitem. rewrite length_greater. by rewrite decide_True. }
  rewrite run_new_array.
  rewrite (run_lift (np.select (np.greater i constant) i)).
  2:{ unfold np.getitem. rewrite length_greater. by rewrite decide_True. }
  rewrite run_new_array. unfold ret.
  by rewrite length_app, Nat.add_1_r, <- app_assoc.
Qed.

Lemma finite_values_scaled i m threshold :
  ¬ (m == 0)%Q →
  np.finite_values (np.multiply (np.divide i m) threshold)
  = Some (map (λ x, x / m * threshold)%Q i).
Proof.
  intros Hm0. apply Qeq_bool_false in Hm0.
  unfold np.multiply, np.divide. rewrite map_map.
  rewrite (map_ext _ (λ x, float64.finite (x / m * threshold)%Q))
    by (intros x; by rewrite Hm0).
  induction i as [|x i IH]; [done|]. simpl. by rewrite IH.
Qed.

Lemma finite_values_zero_divisor i m threshold :
  i ≠ [] → (m == 0)%Q →
  np.finite_values (np.multiply (np.divide i m) threshold) = None.
Proof.
  intros Hne Hm0. apply Qeq_bool_iff in Hm0.
  destruct i as [|x i]; [done|].
  unfold np.multiply, np.divide. rewrite map_map.
  cbn [map np.finite_values]. rewrite Hm0.
  destruct (Qeq_bool x 0); [done|]. by destruct (Qeq_bool threshold 0).
Qed.

Lemma MaximumScaler_run_scale threshold h mz int i m :
  h !! int = Some i → np.amax i = Return m →
  (threshold < m)%Q → ¬ (m == 0)%Q →
  MaximumScaler_filter threshold mz int h
  = (h ++ [map (λ x, x / m * threshold)%Q i], Return (mz, length h)).
Proof.
  intros Hi Hm Hlt Hm0. unfold MaximumScaler_filter.
  rewrite (run_get_array int i) by done.
  rewrite (run_lift m) by done.
  apply Qltb_lt in Hlt as ->.
  rewrite (run_lift m) by done.
  unfold new_float_array. by rewrite finite_values_scaled.
Qed.

Lemma MaximumScaler_run_noop threshold h mz int i m :
  h !! int = Some i → np.amax i = Return m → (m <= threshold)%Q →
  MaximumScaler_filter threshold mz int h = (h, Return (mz, int)).
Proof.
  intros Hi Hm Hle. unfold MaximumScaler_filter.
  rewrite (run_get_array int i) by done.
  rewrite (run_lift m) by done.
  by apply Qltb_ge in Hle as ->.
Qed.

End Runs.

#[export] Instance stand_in_contract : CollaboratorsContract stand_in.
Proof.
  split; simpl.
  - intros x w p d s. case_decide; congruence.
  - done.
Qed.

(** ** The registry and the runner *)

Section Runner.
Context {ext : Collaborators}.
Implicit Types (h : heap) (mz int : loc) (c i : list Q).
Implicit Types (reg : gmap string FilterBase).

Lemma register_lookup reg name instance :
  register name instance reg !! name = Some instance.
Proof. apply lookup_insert_eq. Qed.

Lemma register_lookup_ne reg name name' instance :
  name ≠ name' → register name instance reg !! name' = reg !! name'.
Proof. apply lookup_insert_ne. Qed.

(** One stage: the loop body followed by the rest of the loop. *)
Lemma transform_loop_cons reg filt filters mz int h :
  transform_loop reg (filt :: filters) mz int h
  = match resolve reg filt h with
    | (h0, Return f) =>
        match f mz int h0 with
        | (h1, Return (mz1, int1)) => transform_loop reg filters mz1 int1 h1
        | (h1, Raise e) => (h1, Raise e)
        end
    | (h0, Raise e) => (h0, Raise e)
    end.
Proof.
  simpl. unfold bind at 1. destruct (resolve reg filt h) as [h0 [f|e]]; [|done].
  unfold bind. destruct (f mz int h0) as [h1 [[mz1 int1]|e]]; done.
Qed.

Lemma transform_loop_instance reg instance filters mz int h h1 mz1 int1 :
  filter_method instance mz int h = (h1, Return (mz1, int1)) →
  transform_loop reg (Instance instance :: filters) mz int h
  = transform_loop reg filters mz1 int1 h1.
Proof.
  intros Hrun. rewrite transform_loop_cons. simpl. unfold call.
  by rewrite Hrun.
Qed.

Lemma transform_loop_name reg name instance filters mz int h h1 mz1 int1 :
  reg !! name = Some instance →
  filter_method instance mz int h = (h1, Return (mz1, int1)) →
  transform_loop reg (Name name :: filters) mz int h
  = transform_loop reg filters mz1 int1 h1.
Proof.
  intros Hreg Hrun. rewrite transform_loop_cons. simpl. rewrite Hreg. simpl.
  unfold call. by rewrite Hrun.
Qed.

Lemma transform_loop_unknown reg name filters mz int h :
  reg !! name = None →
  transform_loop reg (Name name :: filters) mz int h
  = (h, Raise (KeyError name)).
Proof.
  intros Hreg. rewrite transform_loop_cons. simpl. by rewrite Hreg.
Qed.

Lemma transform_Some reg filters mz int h :
  transform reg mz int (Some filters) h = transform_loop reg filters mz int h.
Proof. done. Qed.

Lemma transform_single_instance reg instance mz int h :
  transform reg mz int (Some [Instance instance]) h = call instance mz int h.
Proof.
  rewrite transform_Some, transform_loop_cons. simpl.
  destruct (call instance mz int h) as [h1 [[mz1 int1]|e]]; done.
Qed.

Lemma transform_single_name reg name instance mz int h :
  reg !! name = Some instance →
  transform reg mz int (Some [Name name]) h = call instance mz int h.
Proof.
  intros Hreg. rewrite transform_Some, transform_loop_cons. simpl.
  rewrite Hreg. simpl.
  destruct (call instance mz int h) as [h1 [[mz1 int1]|e]]; done.
Qed.

(** The presets the module registers. *)
Lemma filter_register_presets :
  map_to_list filter_register ≡ₚ
    [("extreme_scale_limiter", MaximumScaler 30e3);
     ("over_10", ConstantThreshold 10);
     ("over_100", ConstantThreshold 100);
     ("linear_resampling", LinearResampling 0.01);
     ("fticr_baseline", FTICRBaselineRemoval 1 10 5);
     ("tenth_percent_of_max", NPercentOfMaxFilter 0.001);
     ("one_percent_of_max", NPercentOfMaxFilter 0.01);
     ("savitsky_golay", SavitskyGolayFilter 5 3 0);
     ("mean_below_mean", MeanBelowMeanFilter);
     ("median", MedianIntensityFilter)].
Proof.
  unfold filter_register, register, SavitskyGolayFilter_init,
    NPercentOfMaxFilter_init, FTICRBaselineRemoval_init. simpl.
  repeat (rewrite map_to_list_insert; [apply Permutation_skip|by vm_compute]).
  by rewrite map_to_list_empty.
Qed.

(** C1. Registry resolution equivalence: [register] stores the instance
    built from the registration arguments under the name, and for every
    store and pair of arrays [transform] on a registered name does what
    the call of that instance does, which is also what [transform] does
    on the instance itself. *)
Theorem registry_resolution_equivalence reg name instance mz int h :
  reg !! name = Some instance →
  register name instance reg !! name = Some instance ∧
  transform reg mz int (Some [Name name]) h
  = filter_method instance mz int h ∧
  transform reg mz int (Some [Name name]) h
  = transform reg mz int (Some [Instance instance]) h ∧
  transform (register name instance reg) mz int (Some [Name name]) h
  = filter_method instance mz int h.
Proof.
  intros Hreg. split; [apply register_lookup|].
  rewrite transform_single_instance.
  rewrite !(transform_single_name _ name instance);
    [done | apply register_lookup | done].
Qed.

(** C3. Identity law: with [filters=None] or an empty list, [transform]
    returns the two arrays it was given and leaves the store as it is. *)
Theorem transform_no_filters_identity reg mz int h :
  transform reg mz int None h = (h, Return (mz, int)) ∧
  transform reg mz int (Some []) h = (h, Return (mz, int)).
Proof. done. Qed.

End Runner.

(** ** Constant threshold *)

Lemma points_over_spec constant c i p :
  p ∈ points_over constant c i ↔ p ∈ zip c i ∧ (constant < p.2)%Q.
Proof.
  unfold points_over. rewrite !list_elem_of_In, filter_In, Qltb_lt. done.
Qed.

Lemma points_over_sublist constant c i :
  points_over constant c i `sublist_of` zip c i.
Proof.
  unfold points_over. induction (zip c i) as [|p l IH]; simpl; [done|].
  destruct (Qltb constant p.2); by constructor.
Qed.

Lemma ConstantThreshold_select constant c i :
  length c = length i →
  np.select (np.greater i constant) c = (points_over constant c i).*1 ∧
  np.select (np.greater i constant) i = (points_over constant c i).*2.
Proof. apply (select_points (Qltb constant)). Qed.

(** The points that pass the threshold all pass it again. *)
Lemma points_over_fixpoint constant c i :
  points_over constant (points_over constant c i).*1 (points_over constant c i).*2
  = points_over constant c i.
Proof.
  unfold points_over at 1. rewrite zip_fst_snd.
  unfold points_over. induction (zip c i) as [|p l IH]; simpl; [done|].
  destruct (Qltb constant p.2) eqn:Hp; simpl; [|done].
  by rewrite Hp, IH.
Qed.

Section Constant.
Context {ext : Collaborators}.
Implicit Types (h : heap) (mz int : loc) (c i : list Q).

(** C5. The constant-threshold filter returns two new arrays holding the
    coordinates and the intensities of exactly the points whose intensity
    is strictly greater than the constant, in their order; these points
    form a subsequence of the input points.  Through the registry,
    ["over_10"] turns ([1,2,3,4,5], [1,1,50,1,1]) into ([3], [50]), and
    empty arrays give empty arrays. *)
Theorem ConstantThreshold_keeps_points_over :
  (∀ constant h mz int c i,
      h !! mz = Some c → h !! int = Some i → length c = length i →
      ∃ h' mz' int',
        ConstantThreshold_filter constant mz int h = (h', Return (mz', int')) ∧
        h' !! mz' = Some (points_over constant c i).*1 ∧
        h' !! int' = Some (points_over constant c i).*2 ∧
        points_over constant c i `sublist_of` zip c i ∧
        (∀ p, p ∈ points_over constant c i
              ↔ p ∈ zip c i ∧ (constant < p.2)%Q)) ∧
  transform filter_register 0 1 (Some [Name "over_10"])
    [[1; 2; 3; 4; 5]; [1; 1; 50; 1; 1]]%Q
  = ([[1; 2; 3; 4; 5]; [1; 1; 50; 1; 1]; [3]; [50]]%Q, Return (2, 3)) ∧
  (∀ constant,
      ConstantThreshold_filter constant 0 1 [[]; []]
      = ([[]; []; []; []], Return (2, 3))).
Proof.
  split; [|split; [by vm_compute | done]].
  intros constant h mz int c i Hc Hi Hlen.
  exists (h ++ [(points_over constant c i).*1] ++ [(points_over constant c i).*2]),
    (length h), (S (length h)).
  destruct (ConstantThreshold_select constant c i Hlen) as [E1 E2].
  rewrite (ConstantThreshold_run constant h mz int c i) by done.
  rewrite E1, E2. split; [done|].
  split; [by rewrite lookup_app_r, Nat.sub_diag by lia|].
  split.
  { rewrite lookup_app_r by lia.
    by replace (S (length h) - length h) with 1 by lia. }
  split; [apply points_over_sublist | intros p; apply points_over_spec].
Qed.

(** C6. Idempotence: a second application of the constant-threshold
    filter to the arrays the first one returned succeeds and returns
    arrays with the same values as the first. *)
Theorem ConstantThreshold_idempotent constant h mz int c i :
  h !! mz = Some c → h !! int = Some i → length c = length i →
  ∃ h1 mz1 int1 h2 mz2 int2 c' i',
    ConstantThreshold_filter constant mz int h = (h1, Return (mz1, int1)) ∧
    ConstantThreshold_filter constant mz1 int1 h1 = (h2, Return (mz2, int2)) ∧
    h1 !! mz1 = Some c' ∧ h1 !! int1 = Some i' ∧
    h2 !! mz2 = Some c' ∧ h2 !! int2 = Some i' ∧
    transform filter_register mz int
      (Some [Instance (ConstantThreshold constant);
             Instance (ConstantThreshold constant)]) h
    = (h2, Return (mz2, int2)).
Proof.
  intros Hc Hi Hlen.
  set (c' := (points_over constant c i).*1).
  set (i' := (points_over constant c i).*2).
  set (h1 := h ++ [c'] ++ [i']).
  assert (Hrun1 : ConstantThreshold_filter constant mz int h
                  = (h1, Return (length h, S (length h)))).
  { rewrite (ConstantThreshold_run constant h mz int c i) by done.
    destruct (ConstantThreshold_select constant c i Hlen) as [-> ->]. done. }
  assert (Hc' : h1 !! length h = Some c').
  { unfold h1. by rewrite lookup_app_r, Nat.sub_diag by lia. }
  assert (Hi' : h1 !! S (length h) = Some i').
  { unfold h1. rewrite lookup_app_r by lia.
    by replace (S (length h) - length h) with 1 by lia. }
  assert (Hlen' : length c' = length i').
  { unfold c', i'. by rewrite !length_fmap. }
  assert (Hrun2 : ConstantThreshold_filter constant (length h) (S (length h)) h1
                  = (h1 ++ [c'] ++ [i'], Return (length h1, S (length h1)))).
  { rewrite (ConstantThreshold_run constant h1 _ _ c' i') by done.
    destruct (ConstantThreshold_select constant c' i' Hlen') as [-> ->].
    unfold c', i'. by rewrite points_over_fixpoint. }
  exists h1, (length h), (S (length h)), (h1 ++ [c'] ++ [i']),
    (length h1), (S (length h1)), c', i'.
  split; [done|]. split; [done|]. split; [done|]. split; [done|].
  split; [by rewrite lookup_app_r, Nat.sub_diag by lia|].
  split.
  { rewrite lookup_app_r by lia.
    by replace (S (length h1) - length h1) with 1 by lia. }
  rewrite transform_Some.
  rewrite (transform_loop_instance _ (ConstantThreshold constant)
             _ _ _ _ _ _ _ Hrun1).
  by rewrite (transform_loop_instance _ (ConstantThreshold constant)
                _ _ _ _ _ _ _ Hrun2).
Qed.

End Constant.

(** ** Maximum and minimum *)

Lemma amax_Return a : a ≠ [] → ∃ m, np.amax a = Return m.
Proof.
  destruct a as [|x a]; [done|]. intros _. simpl.
  destruct (np.amax a); eauto.
Qed.

Lemma amax_nonempty a m : np.amax a = Return m → a ≠ [].
Proof. by destruct a. Qed.

Lemma amax_elem a m : np.amax a = Return m → m ∈ a.
Proof.
  revert m. induction a as [|x a IH]; intros m; simpl; [done|].
  destruct (np.amax a) as [m0|e]; intros [= <-]; [|left].
  destruct (Qltb m0 x); [left | right; by apply IH].
Qed.

Lemma amax_upper a m : np.amax a = Return m → Forall (λ x, x <= m)%Q a.
Proof.
  revert m. induction a as [|x a IH]; intros m; simpl; [constructor|].
  destruct (np.amax a) as [m0|e] eqn:Ha; intros [= <-].
  - specialize (IH m0 eq_refl). destruct (Qltb m0 x) eqn:Hx.
    + apply Qltb_lt in Hx. constructor; [lra|].
      eapply Forall_impl; [exact IH|]. simpl. intros y Hy. lra.
    + apply Qltb_ge in Hx. by constructor.
  - destruct a; [|simpl in Ha; destruct (np.amax a); done].
    constructor; [lra | constructor].
Qed.

Lemma amin_Return a : a ≠ [] → ∃ m, np.amin a = Return m.
Proof.
  destruct a as [|x a]; [done|]. intros _. simpl.
  destruct (np.amin a); eauto.
Qed.

Lemma amin_elem a m : np.amin a = Return m → m ∈ a.
Proof.
  revert m. induction a as [|x a IH]; intros m; simpl; [done|].
  destruct (np.amin a) as [m0|e]; intros [= <-]; [|left].
  destruct (Qltb x m0); [left | right; by apply IH].
Qed.

Lemma amin_lower a m : np.amin a = Return m → Forall (λ x, m <= x)%Q a.
Proof.
  revert m. induction a as [|x a IH]; intros m; simpl; [constructor|].
  destruct (np.amin a) as [m0|e] eqn:Ha; intros [= <-].
  - specialize (IH m0 eq_refl). destruct (Qltb x m0) eqn:Hx.
    + apply Qltb_lt in Hx. constructor; [lra|].
      eapply Forall_impl; [exact IH|]. simpl. intros y Hy. lra.
    + apply Qltb_ge in Hx. by constructor.
  - destruct a; [|simpl in Ha; destruct (np.amin a); done].
    constructor; [lra | constructor].
Qed.

(** ** Maximum rescale *)

Lemma rescale_factor (threshold m : Q) :
  (0 <= threshold)%Q → (threshold < m)%Q →
  (0 <= threshold / m)%Q ∧ (threshold / m < 1)%Q.
Proof.
  intros Ht Hm. assert (Hpos : (0 < m)%Q) by lra. split.
  - apply Qle_shift_div_l; lra.
  - apply Qlt_shift_div_r; lra.
Qed.

Lemma rescale_value (threshold m x : Q) :
  ¬ (m == 0)%Q → (x / m * threshold == x * (threshold / m))%Q.
Proof. intros Hm. field. done. Qed.

Lemma rescale_bound (threshold m x : Q) :
  (0 <= threshold)%Q → (threshold < m)%Q → (x <= m)%Q →
  (x / m * threshold <= threshold)%Q.
Proof.
  intros Ht Hm Hx. assert (Hpos : (0 < m)%Q) by lra.
  assert (Hdiv : (x / m <= 1)%Q) by (apply Qle_shift_div_r; lra).
  nra.
Qed.

Lemma rescale_max (threshold m : Q) :
  ¬ (m == 0)%Q → (m / m * threshold == threshold)%Q.
Proof. intros Hm. field. done. Qed.

Lemma amax_rescaled (threshold m : Q) i m' :
  (0 <= threshold)%Q → (threshold < m)%Q → np.amax i = Return m →
  np.amax (map (λ x, x / m * threshold)%Q i) = Return m' →
  (m' == threshold)%Q.
Proof.
  intros Ht Hlt Hm Hm'.
  assert (Hm0 : ¬ (m == 0)%Q) by lra.
  apply Qle_antisym.
  - apply amax_elem, list_elem_of_In, in_map_iff in Hm' as (x & <- & Hx).
    apply rescale_bound; [done..|].
    apply amax_upper in Hm. rewrite Forall_forall in Hm.
    by apply Hm, list_elem_of_In.
  - apply amax_upper in Hm'. rewrite Forall_forall in Hm'.
    rewrite <- (rescale_max threshold m Hm0).
    apply Hm', list_elem_of_In, in_map_iff.
    exists m. split; [done|]. by apply list_elem_of_In, amax_elem.
Qed.

Section Maximum.
Context {ext : Collaborators}.
Implicit Types (h : heap) (mz int : loc) (c i : list Q).

(** C7, as the code has it.  For non-empty intensities with maximum [m]:
    when [m <= t], whatever the threshold [t], the filter returns the two
    arrays it was given and nothing is divided.  For a threshold [t >= 0]:
    when [m > t] it returns the coordinates it was given and a new
    intensity array holding [x / m * t], that is [x * (t / m)] with
    [0 <= t / m < 1], for every input intensity [x], and the maximum of the
    new array does not exceed [t]; and a maximum of 0 is the first case.
    With threshold 100, [10,20,30,40,1000] becomes [1,2,3,4,100]. *)
Theorem MaximumScaler_rescales :
  (∀ threshold h mz int i,
      h !! int = Some i → i ≠ [] →
      ∃ m, np.amax i = Return m ∧
        ((m <= threshold)%Q →
         MaximumScaler_filter threshold mz int h = (h, Return (mz, int))) ∧
        ((0 <= threshold)%Q → (threshold < m)%Q →
         ∃ out m',
           MaximumScaler_filter threshold mz int h
           = (h ++ [out], Return (mz, length h)) ∧
           out = map (λ x, x / m * threshold)%Q i ∧
           Forall2 (λ y x, y == x * (threshold / m))%Q out i ∧
           (0 <= threshold / m)%Q ∧ (threshold / m < 1)%Q ∧
           np.amax out = Return m' ∧ (m' <= threshold)%Q) ∧
        ((0 <= threshold)%Q → (m == 0)%Q →
         MaximumScaler_filter threshold mz int h = (h, Return (mz, int)))) ∧
  (∃ out,
      MaximumScaler_filter 100 0 1 [[1; 2; 3; 4; 5]; [10; 20; 30; 40; 1000]]%Q
      = ([[1; 2; 3; 4; 5]; [10; 20; 30; 40; 1000]; out]%Q, Return (0, 2)) ∧
      map Qred out = [1; 2; 3; 4; 100]%Q).
Proof.
  split; [|eexists; split; by vm_compute].
  intros threshold h mz int i Hi Hne.
  destruct (amax_Return i Hne) as [m Hm]. exists m. split; [done|].
  split; [|split].
  - intros Hle. by eapply MaximumScaler_run_noop.
  - intros Ht Hlt. assert (Hm0 : ¬ (m == 0)%Q) by lra.
    destruct (amax_Return (map (λ x, x / m * threshold)%Q i)) as [m' Hm'].
    { by destruct i. }
    exists (map (λ x, x / m * threshold)%Q i), m'.
    split; [by apply MaximumScaler_run_scale|]. split; [done|].
    split.
    { clear Hi Hm Hne Hm'. induction i as [|x i IH]; simpl; constructor; [|done].
      by apply rescale_value. }
    destruct (rescale_factor threshold m Ht Hlt) as [? ?].
    split; [done|]. split; [done|]. split; [done|].
    rewrite (amax_rescaled threshold m i m'); [lra | done..].
  - intros Ht H0. eapply MaximumScaler_run_noop; [done..|]. lra.
Qed.

End Maximum.

(** C7 as stated fails for a negative threshold: with threshold -1, the
    intensities [2, 1] have maximum 2 > -1 and are turned into [-1, -1/2],
    whose maximum -1/2 exceeds the threshold. *)
Lemma MaximumScaler_negative_threshold :
  ∃ out m',
    MaximumScaler_filter (-1) 0 1 [[1; 2]; [2; 1]]%Q
    = ([[1; 2]; [2; 1]; out]%Q, Return (0, 2)) ∧
    map Qred out = [-1; -1 # 2]%Q ∧
    np.amax out = Return m' ∧ (-1 < m')%Q.
Proof.
  eexists _, _. split; [by vm_compute|]. split; [by vm_compute|].
  split; [by vm_compute|]. by vm_compute.
Qed.

(** ** Mean below mean *)

Lemma count_nonzero_le mask : np.count_nonzero mask ≤ length mask.
Proof.
  unfold np.count_nonzero. induction mask as [|b mask IH]; simpl; [done|].
  destruct b; simpl; lia.
Qed.

Lemma Qofnat_nonneg n : (0 <= Qofnat n)%Q.
Proof.
  unfold Qofnat. change 0%Q with (inject_Z 0). rewrite <- Zle_Qle. lia.
Qed.

Lemma Qofnat_pos n : 0 < n → (0 < Qofnat n)%Q.
Proof.
  intros Hn. unfold Qofnat. change 0%Q with (inject_Z 0). rewrite <- Zlt_Qlt. lia.
Qed.

Lemma Qofnat_le n m : n ≤ m → (Qofnat n <= Qofnat m)%Q.
Proof. intros Hn. unfold Qofnat. rewrite <- Zle_Qle. lia. Qed.

Lemma Qofnat_S n : (Qofnat (S n) == Qofnat n + 1)%Q.
Proof.
  unfold Qofnat. rewrite Nat2Z.inj_succ, <- Z.add_1_r, inject_Z_plus. done.
Qed.

(** The float64 quotient of two counts [k <= n] lies in [0, 1]. *)
Lemma float64_fraction_range k n :
  k ≤ n → 0 < n →
  (0 <= float64.div (Qofnat k) (Qofnat n))%Q ∧
  (float64.div (Qofnat k) (Qofnat n) <= 1)%Q.
Proof.
  intros Hk Hn. unfold float64.div.
  pose proof (of_Q_nonneg _ (Qofnat_nonneg k)) as Ha.
  pose proof (of_Q_monotone _ _ (Qofnat_le _ _ Hk)) as Hab.
  assert (Hb : (1 <= float64.of_Q (Qofnat n))%Q).
  { rewrite <- of_Q_1. apply of_Q_monotone.
    change 1%Q with (Qofnat 1). apply Qofnat_le. lia. }
  assert (H0 : (0 <= float64.of_Q (Qofnat k) / float64.of_Q (Qofnat n))%Q).
  { apply Qle_shift_div_l; lra. }
  assert (H1 : (float64.of_Q (Qofnat k) / float64.of_Q (Qofnat n) <= 1)%Q).
  { apply Qle_shift_div_r; lra. }
  split.
  - by apply of_Q_nonneg.
  - rewrite <- of_Q_1. by apply of_Q_monotone.
Qed.

(** The fraction of True entries of a non-empty mask lies in [0, 1]. *)
Lemma mean_bool_range mask f :
  np.mean_bool mask = Some f → (0 <= f)%Q ∧ (f <= 1)%Q.
Proof.
  destruct mask as [|b mask]; [done|]. intros [= <-].
  apply float64_fraction_range; [apply count_nonzero_le | simpl; lia].
Qed.

Lemma count_nonzero_map (P : Q → bool) l :
  np.count_nonzero (map P l) = length (List.filter P l).
Proof.
  unfold np.count_nonzero. induction l as [|y l IH]; simpl; [done|].
  destruct (P y); simpl; by rewrite IH.
Qed.

Lemma mean_bool_less i m :
  i ≠ [] →
  np.mean_bool (np.less i (Some m))
  = Some (float64.div (Qofnat (length (List.filter (λ x, Qltb x m) i)))
            (Qofnat (length i))).
Proof.
  intros Hne. unfold np.less.
  rewrite <- (count_nonzero_map (λ x, Qltb x m)).
  replace (length i) with (length (map (λ x, Qltb x m) i)) by apply length_map.
  unfold np.mean_bool. by destruct i.
Qed.

Section MeanBelowMean.
Context {ext : Collaborators}.
Implicit Types (h : heap) (mz int : loc) (c i : list Q).

(** C9. On non-empty intensities the mean-below-mean filter takes the
    mean [m] as float64 computes it (the pairwise float64 sum divided by
    the length), then the fraction [f] of the points whose intensity is
    strictly below [m] (the float64 quotient of the count by the length),
    a value in [0, 1], and stores 0 over every intensity strictly below
    [f] itself; it returns the two arrays it was given, the length of the
    intensities is kept and no other array of the store, so no distinct
    coordinate array, is written. *)
Theorem MeanBelowMeanFilter_thresholds_at_fraction h mz int i :
  h !! int = Some i → i ≠ [] →
  ∃ m f i',
    np.mean i = Some m ∧
    m = float64.div (np.sum i) (Qofnat (length i)) ∧
    f = float64.div (Qofnat (length (List.filter (λ x, Qltb x m) i)))
          (Qofnat (length i)) ∧
    (0 <= f)%Q ∧ (f <= 1)%Q ∧
    i' = map (λ x, if Qltb x f then 0%Q else x) i ∧
    MeanBelowMeanFilter_filter mz int h = (<[int := i']> h, Return (mz, int)) ∧
    <[int := i']> h !! int = Some i' ∧
    length i' = length i ∧
    (∀ l, l ≠ int → <[int := i']> h !! l = h !! l).
Proof.
  intros Hi Hne.
  set (m := float64.div (np.sum i) (Qofnat (length i))).
  set (f := float64.div (Qofnat (length (List.filter (λ x, Qltb x m) i)))
              (Qofnat (length i))).
  assert (Hmean : np.mean i = Some m) by (by destruct i).
  assert (Hfrac : np.mean_bool (np.less i (np.mean i)) = Some f).
  { rewrite Hmean. by apply mean_bool_less. }
  exists m, f, (map (λ x, if Qltb x f then 0%Q else x) i).
  destruct (mean_bool_range _ _ Hfrac) as [Hf0 Hf1].
  split; [done|]. split; [done|]. split; [done|]. split; [done|].
  split; [done|]. split; [done|]. split.
  { rewrite (MeanBelowMeanFilter_run h mz int i Hi), Hfrac. done. }
  split.
  { apply list_lookup_insert_eq. by eapply lookup_lt_Some. }
  split; [apply length_map|].
  intros l Hl. by apply list_lookup_insert_ne.
Qed.

End MeanBelowMean.

(** ** Which arrays a stage writes *)

Ltac unfold_filters :=
  unfold call, filter_method, FilterBase_filter, MedianIntensityFilter_filter,
    MeanBelowMeanFilter_filter, SavitskyGolayFilter_filter,
    NPercentOfMaxFilter_filter, FTICRBaselineRemoval_filter,
    LinearResampling_filter, ConstantThreshold_filter, MaximumScaler_filter,
    new_float_array, setitem_mask, bind, ret, raise, lift, get_array,
    new_array in *.

Ltac solve_prefix :=
  first
    [ done
    | by apply prefix_app_r
    | rewrite <- app_assoc; by apply prefix_app_r
    | rewrite insert_new; by apply prefix_app_r ].

Section Frames.
Context {ext : Collaborators}.
Implicit Types (h : heap) (mz int : loc) (c i : list Q).
Implicit Types (reg : gmap string FilterBase).

(** Whatever the outcome, a filter other than mean-below-mean leaves
    every array of the store as it was and only adds new arrays. *)
Lemma filter_method_frame instance mz int h h' o :
  writes_in_place instance = false →
  filter_method instance mz int h = (h', o) → h `prefix_of` h'.
Proof.
  intros Hw Hrun. destruct instance; try done; unfold_filters.
  all: repeat case_match; simplify_eq; solve_prefix.
Qed.

Lemma transform_loop_frame reg filters :
  Forall (copying_stage reg) filters →
  ∀ mz int h h' o,
    transform_loop reg filters mz int h = (h', o) → h `prefix_of` h'.
Proof.
  induction 1 as [|filt filters Hfilt _ IH]; intros mz int h h' o.
  { by intros [= <- <-]. }
  rewrite transform_loop_cons.
  destruct filt as [name|instance|f]; simpl in *; [| |done].
  - destruct (reg !! name) as [instance|] eqn:Hreg; simpl;
      [|by intros [= <- <-]].
    destruct (call instance mz int h) as [h1 [[mz1 int1]|e]] eqn:Hrun.
    + intros Hrest. etrans; [|by eapply IH].
      eapply filter_method_frame; [by apply Hfilt | exact Hrun].
    + intros [= <- <-]. eapply filter_method_frame; [by apply Hfilt | exact Hrun].
  - destruct (call instance mz int h) as [h1 [[mz1 int1]|e]] eqn:Hrun.
    + intros Hrest. etrans; [|by eapply IH].
      eapply filter_method_frame; [done | exact Hrun].
    + intros [= <- <-]. eapply filter_method_frame; [done | exact Hrun].
Qed.

(** The loop over a concatenation runs the first part, then the second
    from where the first arrived. *)
Lemma transform_loop_app reg pre post mz int h :
  transform_loop reg (pre ++ post) mz int h
  = match transform_loop reg pre mz int h with
    | (h1, Return (mz1, int1)) => transform_loop reg post mz1 int1 h1
    | (h1, Raise e) => (h1, Raise e)
    end.
Proof.
  revert mz int h. induction pre as [|filt pre IH]; intros mz int h; [done|].
  rewrite <- app_comm_cons, !transform_loop_cons.
  destruct (resolve reg filt h) as [h0 [f|e]]; [|done].
  destruct (f mz int h0) as [h1 [[mz1 int1]|e]]; [|done].
  apply IH.
Qed.

(** C10. Mean-below-mean returns the intensity array it was given, with
    the zeroed values written into it (as on [0, 1/2, 10], which becomes
    [0, 0, 10]); the median and the p-fraction-of-max filters return a new
    intensity array and leave every array that existed before the call
    as it was.  So [transform] over stages none of which is
    mean-below-mean leaves the caller's arrays as they were, and
    [transform] with ["mean_below_mean"] changes the caller's
    intensities. *)
Theorem in_place_versus_copy :
  (∀ h mz int i,
      h !! int = Some i →
      ∃ i', MeanBelowMeanFilter_filter mz int h
            = (<[int := i']> h, Return (mz, int)) ∧
            <[int := i']> h !! int = Some i' ∧
            i' = zero_below (np.mean_bool (np.less i (np.mean i))) i) ∧
  MeanBelowMeanFilter_filter 0 1 [[1; 2; 3]; [0; 1 # 2; 10]]%Q
  = ([[1; 2; 3]; [0; 0; 10]]%Q, Return (0, 1)) ∧
  (∀ h mz int i,
      h !! int = Some i →
      MedianIntensityFilter_filter mz int h
      = (h ++ [zero_below (np.median i) i], Return (mz, length h))) ∧
  (∀ h mz int h' o,
      MedianIntensityFilter_filter mz int h = (h', o) → h `prefix_of` h') ∧
  (∀ p h mz int i m,
      h !! int = Some i → np.amax i = Return m → ¬ (m == 0)%Q →
      NPercentOfMaxFilter_filter p mz int h
      = (h ++ [map (λ x, if Qltb (x / m) p then 0%Q else x) i],
         Return (mz, length h))) ∧
  (∀ p h mz int h' o,
      NPercentOfMaxFilter_filter p mz int h = (h', o) → h `prefix_of` h') ∧
  (∀ reg filters mz int h h' o,
      Forall (copying_stage reg) filters →
      transform reg mz int (Some filters) h = (h', o) → h `prefix_of` h') ∧
  transform filter_register 0 1 (Some [Name "mean_below_mean"])
    [[1; 2; 3]; [0; 1 # 2; 10]]%Q
  = ([[1; 2; 3]; [0; 0; 10]]%Q, Return (0, 1)).
Proof.
  split_and!.
  - intros h mz int i Hi. eexists. split; [by apply MeanBelowMeanFilter_run|].
    split; [|done]. apply list_lookup_insert_eq. by eapply lookup_lt_Some.
  - by vm_compute.
  - intros h mz int i Hi. by apply MedianIntensityFilter_run.
  - intros h mz int h' o Hrun.
    by apply (filter_method_frame MedianIntensityFilter mz int h h' o).
  - intros p h mz int i m Hi Hm Hm0. by apply NPercentOfMaxFilter_run.
  - intros p h mz int h' o Hrun.
    by apply (filter_method_frame (NPercentOfMaxFilter p) mz int h h' o).
  - intros reg filters mz int h h' o Hcopy Hrun.
    by eapply transform_loop_frame.
  - by vm_compute.
Qed.

End Frames.

(** ** Unknown filter names *)

Section Unknown.
Context {ext : Collaborators}.
Implicit Types (h : heap) (mz int : loc) (c i : list Q).
Implicit Types (reg : gmap string FilterBase).

(** C4, as the code has it: a string that is not registered raises
    KeyError when the loop reaches it, that is once the stages before it
    have run and returned; the store is then the one those stages left
    and none of the stages after it runs, whatever they are.  When the
    unknown name comes first the store is untouched, and when the stages
    before it are all other than mean-below-mean the arrays the caller
    passed are as they were, whichever exception ends the call. *)
Theorem unknown_filter_raised_when_reached reg name pre post mz int h :
  reg !! name = None →
  (∀ h1 mz1 int1,
      transform reg mz int (Some pre) h = (h1, Return (mz1, int1)) →
      transform reg mz int (Some (pre ++ Name name :: post)) h
      = (h1, Raise (KeyError name))) ∧
  transform reg mz int (Some (Name name :: post)) h
  = (h, Raise (KeyError name)) ∧
  (Forall (copying_stage reg) pre →
   ∀ h' o,
     transform reg mz int (Some (pre ++ Name name :: post)) h = (h', o) →
     h `prefix_of` h' ∧ ∃ e, o = Raise e).
Proof.
  intros Hreg. split; [|split].
  - intros h1 mz1 int1 Hpre. rewrite transform_Some in *.
    rewrite transform_loop_app, Hpre. by apply transform_loop_unknown.
  - rewrite transform_Some. by apply transform_loop_unknown.
  - intros Hcopy h' o. rewrite transform_Some, transform_loop_app.
    destruct (transform_loop reg pre mz int h) as [h1 [[mz1 int1]|e]] eqn:Hpre.
    + rewrite transform_loop_unknown by done. intros [= <- <-].
      split; [by eapply transform_loop_frame | by eexists].
    + intros [= <- <-].
      split; [by eapply transform_loop_frame | by eexists].
Qed.

End Unknown.

(** C4 as stated fails when a stage runs before the unknown name is
    reached: after ["mean_below_mean"] the caller's intensities [0, 1/2, 10]
    have become [0, 0, 10] when KeyError is raised, and on empty arrays
    ["tenth_percent_of_max"] ends the call with ValueError before the
    unknown name is looked up. *)
Lemma unknown_filter_after_earlier_stage :
  transform filter_register 0 1
    (Some [Name "mean_below_mean"; Name "does_not_exist"])
    [[1; 2; 3]; [0; 1 # 2; 10]]%Q
  = ([[1; 2; 3]; [0; 0; 10]]%Q, Raise (KeyError "does_not_exist")) ∧
  filter_register !! "does_not_exist" = None ∧
  transform filter_register 0 1
    (Some [Name "tenth_percent_of_max"; Name "does_not_exist"]) [[]; []]
  = ([[]; []], Raise ValueError).
Proof. split; [by vm_compute|]. split; by vm_compute. Qed.

(** ** What a returning filter has done *)

Lemma getitem_Return a mask r :
  np.getitem a mask = Return r → length mask = length a ∧ r = np.select mask a.
Proof. unfold np.getitem. case_decide; naive_solver. Qed.

Lemma interp_Return x xp fp v :
  np.interp x xp fp = Return v →
  xp ≠ [] ∧ length fp = length xp ∧ v = np.interp_loop xp fp 0 x.
Proof.
  unfold np.interp. destruct xp; [done|]. case_decide; naive_solver.
Qed.

Lemma interp_run x xp fp :
  xp ≠ [] → length fp = length xp →
  np.interp x xp fp = Return (np.interp_loop xp fp 0 x).
Proof.
  intros Hne Hlen. unfold np.interp. destruct xp; [done|].
  by rewrite decide_True.
Qed.

Lemma length_interp_loop xp fp j x :
  length (np.interp_loop xp fp j x) = length x.
Proof.
  revert j. induction x as [|x_val x IH]; intros j; simpl; [done|].
  by rewrite IH.
Qed.

Lemma arange_Return start stop step g :
  np.arange start stop step = Return g →
  ∃ n, np.arange_length start stop step = Return n ∧
       g = map (np.arange_item start step) (seq 0 n).
Proof.
  unfold np.arange. destruct (np.arange_length start stop step) as [n|e];
    [|done].
  intros [= <-]. by exists n.
Qed.

Lemma arange_length_Return start stop step :
  ¬ (float64.of_Q step == 0)%Q →
  ∃ n, np.arange_length start stop step = Return n.
Proof.
  intros Hs. apply Qeq_bool_false in Hs. unfold np.arange_length.
  rewrite Hs. case_match; eauto.
Qed.

Lemma lookup_new2 (h : heap) a b :
  (h ++ [a] ++ [b]) !! length h = Some a ∧
  (h ++ [a] ++ [b]) !! S (length h) = Some b.
Proof.
  split.
  - by rewrite lookup_app_r, Nat.sub_diag by lia.
  - rewrite lookup_app_r by lia.
    by replace (S (length h) - length h) with 1 by lia.
Qed.

Section Inversion.
Context {ext : Collaborators}.
Implicit Types (h : heap) (mz int : loc) (c i : list Q).

Lemma MedianIntensityFilter_inv h mz int h' mz' int' :
  MedianIntensityFilter_filter mz int h = (h', Return (mz', int')) →
  ∃ i, h !! int = Some i ∧ h' = h ++ [zero_below (np.median i) i] ∧
       mz' = mz ∧ int' = length h.
Proof.
  destruct (h !! int) as [i|] eqn:Hi.
  - rewrite (MedianIntensityFilter_run h mz int i Hi). intros [= <- <- <-].
    by exists i.
  - unfold_filters. by rewrite Hi.
Qed.

Lemma MeanBelowMeanFilter_inv h mz int h' mz' int' :
  MeanBelowMeanFilter_filter mz int h = (h', Return (mz', int')) →
  ∃ i, h !! int = Some i ∧
       h' = <[int := zero_below (np.mean_bool (np.less i (np.mean i))) i]> h ∧
       mz' = mz ∧ int' = int.
Proof.
  destruct (h !! int) as [i|] eqn:Hi.
  - rewrite (MeanBelowMeanFilter_run h mz int i Hi). intros [= <- <- <-].
    by exists i.
  - unfold_filters. by rewrite Hi.
Qed.

Lemma SavitskyGolayFilter_inv w p d h mz int h' mz' int' :
  SavitskyGolayFilter_filter w p d mz int h = (h', Return (mz', int')) →
  ∃ c i s,
    h !! mz = Some c ∧ h !! int = Some i ∧
    savgol_filter i w p d = Return s ∧ length s = length c ∧
    h' = h ++ [np.select (np.greater (np.clip s 0) 0) c]
           ++ [np.select (np.greater (np.clip s 0) 0) (np.clip s 0)] ∧
    mz' = length h ∧ int' = S (length h).
Proof.
  intros Hrun. unfold_filters. repeat case_match; simplify_eq.
  repeat match goal with
         | H : np.getitem _ _ = Return _ |- _ =>
             apply getitem_Return in H as [? ->]
         end.
  eexists _, _, _. split_and!; try done.
  - rewrite length_greater in *. unfold np.clip in *.
    rewrite length_map in *. congruence.
  - by rewrite <- app_assoc.
  - by rewrite length_app, Nat.add_1_r.
Qed.

Lemma NPercentOfMaxFilter_inv p h mz int h' mz' int' :
  NPercentOfMaxFilter_filter p mz int h = (h', Return (mz', int')) →
  ∃ i m,
    h !! int = Some i ∧ np.amax i = Return m ∧
    h' = h ++ [map (λ x, if (if Qeq_bool m 0 then Qltb x 0
                             else Qltb (x / m) p)
                         then 0%Q else x) i] ∧
    mz' = mz ∧ int' = length h.
Proof.
  destruct (h !! int) as [i|] eqn:Hi; [|unfold_filters; by rewrite Hi].
  destruct (np.amax i) as [m|e] eqn:Hm.
  2:{ unfold_filters. by rewrite Hi, Hm. }
  rewrite (NPercentOfMaxFilter_run_any p h mz int i m) by done.
  intros [= <- <- <-]. by exists i, m.
Qed.

Lemma FTICRBaselineRemoval_inv w r k h mz int h' mz' int' :
  FTICRBaselineRemoval_filter w r k mz int h = (h', Return (mz', int')) →
  ∃ c i c' i',
    h !! mz = Some c ∧ h !! int = Some i ∧
    fticr_remove_baseline c i w r k = Return (c', i') ∧
    h' = h ++ [c'] ++ [i'] ∧ mz' = length h ∧ int' = S (length h).
Proof.
  intros Hrun. unfold_filters. repeat case_match; simplify_eq.
  eexists _, _, _, _. split_and!; try done.
  - by rewrite <- app_assoc.
  - by rewrite length_app, Nat.add_1_r.
Qed.

Lemma LinearResampling_inv spacing h mz int i h' mz' int' :
  h !! int = Some i →
  LinearResampling_filter spacing mz int h = (h', Return (mz', int')) →
  ∃ c lo hi g,
    h !! mz = Some c ∧ length i = length c ∧
    np.amin c = Return lo ∧ np.amax c = Return hi ∧
    np.arange lo (float64.add hi spacing) spacing = Return g ∧
    h' = h ++ [g] ++ [np.interp_loop c i 0 g] ∧
    mz' = length h ∧ int' = S (length h).
Proof.
  intros Hi Hrun. unfold_filters. repeat case_match; simplify_eq.
  match goal with
  | H : (?h0 ++ [_]) !! int = Some _, Hi' : ?h0 !! int = Some _ |- _ =>
      rewrite (lookup_old _ _ _ _ Hi') in H; injection H as <-
  end.
  match goal with
  | H : np.interp _ _ _ = Return _ |- _ =>
      apply interp_Return in H as (? & ? & ->)
  end.
  eexists _, _, _, _. split_and!; try done.
  - by rewrite <- app_assoc.
  - by rewrite length_app, Nat.add_1_r.
Qed.

Lemma ConstantThreshold_inv constant h mz int h' mz' int' :
  ConstantThreshold_filter constant mz int h = (h', Return (mz', int')) →
  ∃ c i,
    h !! mz = Some c ∧ h !! int = Some i ∧ length c = length i ∧
    h' = h ++ [np.select (np.greater i constant) c]
           ++ [np.select (np.greater i constant) i] ∧
    mz' = length h ∧ int' = S (length h).
Proof.
  intros Hrun. unfold_filters. repeat case_match; simplify_eq.
  repeat match goal with
         | H : np.getitem _ _ = Return _ |- _ =>
             apply getitem_Return in H as [? ->]
         end.
  eexists _, _. split_and!; try done.
  - rewrite length_greater in *. congruence.
  - by rewrite <- app_assoc.
  - by rewrite length_app, Nat.add_1_r.
Qed.

Lemma MaximumScaler_inv threshold h mz int h' mz' int' :
  MaximumScaler_filter threshold mz int h = (h', Return (mz', int')) →
  ∃ i m,
    h !! int = Some i ∧ np.amax i = Return m ∧ mz' = mz ∧
    (((threshold < m)%Q ∧ ¬ (m == 0)%Q ∧
      h' = h ++ [map (λ x, x / m * threshold)%Q i] ∧ int' = length h) ∨
     ((m <= threshold)%Q ∧ h' = h ∧ int' = int)).
Proof.
  destruct (h !! int) as [i|] eqn:Hi; [|unfold_filters; by rewrite Hi].
  destruct (np.amax i) as [m|e] eqn:Hm.
  2:{ unfold_filters. by rewrite Hi, Hm. }
  destruct (Qltb threshold m) eqn:Hlt.
  - apply Qltb_lt in Hlt. destruct (Qeq_bool m 0) eqn:Hm0.
    { apply Qeq_bool_iff in Hm0. unfold_filters. rewrite Hi, Hm.
      apply Qltb_lt in Hlt as ->.
      rewrite finite_values_zero_divisor; [done | | done].
      by eapply amax_nonempty. }
    apply Qeq_bool_false in Hm0.
    rewrite (MaximumScaler_run_scale threshold h mz int i m) by done.
    intros [= <- <- <-]. exists i, m. split_and!; try done. by left.
  - apply Qltb_ge in Hlt.
    rewrite (MaximumScaler_run_noop threshold h mz int i m) by done.
    intros [= <- <- <-]. exists i, m. split_and!; try done. by right.
Qed.

End Inversion.

(** ** The length invariant of a measurement pair *)

Lemma select_all (a : list Q) : np.select (map (λ _, true) a) a = a.
Proof. induction a as [|x a IH]; simpl; by f_equal. Qed.

Lemma select_all_true (c v : list Q) :
  length v = length c → v = np.select (map (λ _, true) c) v.
Proof.
  revert v. induction c as [|x c IH]; intros [|y v] Hlen; simpl in *; try done.
  f_equal. apply IH. lia.
Qed.

Lemma zero_below_values s (i : list Q) :
  Forall2 (λ x y, y = x ∨ y = 0%Q) i (zero_below s i).
Proof.
  unfold zero_below. induction i as [|x i IH]; simpl; constructor; [|done].
  destruct s as [m|]; [destruct (Qltb x m)|]; auto.
Qed.

Lemma zeroed_values (P : Q → bool) (i : list Q) :
  Forall2 (λ x y, y = x ∨ y = 0%Q) i (map (λ x, if P x then 0%Q else x) i).
Proof.
  induction i as [|x i IH]; simpl; constructor; [|done].
  destruct (P x); auto.
Qed.

Lemma scaled_values (k : Q) (f : Q → Q) (i : list Q) :
  (∀ x, f x == x * k)%Q → Forall2 (λ x y, y == x * k)%Q i (map f i).
Proof.
  intros Hf. induction i as [|x i IH]; simpl; constructor; [apply Hf | done].
Qed.

Section Lengths.
Context {ext : Collaborators}.
Implicit Types (h : heap) (mz int : loc) (c i : list Q).
Implicit Types (reg : gmap string FilterBase).

Lemma SavitskyGolayFilter_run w p d h mz int c i s :
  h !! mz = Some c → h !! int = Some i →
  savgol_filter i w p d = Return s → length s = length c →
  SavitskyGolayFilter_filter w p d mz int h
  = (h ++ [np.select (np.greater (np.clip s 0) 0) c]
       ++ [np.select (np.greater (np.clip s 0) 0) (np.clip s 0)],
     Return (length h, S (length h))).
Proof.
  intros Hc Hi Hs Hlen. unfold SavitskyGolayFilter_filter.
  rewrite (run_get_array int i) by done.
  rewrite (run_lift s) by done.
  rewrite (run_get_array mz c) by done.
  rewrite (run_lift (np.select (np.greater (np.clip s 0) 0) c)).
  2:{ unfold np.getitem. rewrite length_greater. unfold np.clip.
      rewrite length_map. by rewrite decide_True. }
  rewrite run_new_array.
  rewrite (run_lift (np.select (np.greater (np.clip s 0) 0) (np.clip s 0))).
  2:{ unfold np.getitem. rewrite length_greater. by rewrite decide_True. }
  rewrite run_new_array. unfold ret.
  by rewrite length_app, Nat.add_1_r, <- app_assoc.
Qed.

Lemma FTICRBaselineRemoval_run w r k h mz int c i c' i' :
  h !! mz = Some c → h !! int = Some i →
  fticr_remove_baseline c i w r k = Return (c', i') →
  FTICRBaselineRemoval_filter w r k mz int h
  = (h ++ [c'] ++ [i'], Return (length h, S (length h))).
Proof.
  intros Hc Hi Hd. unfold FTICRBaselineRemoval_filter.
  rewrite (run_get_array mz c) by done.
  rewrite (run_get_array int i) by done.
  rewrite (run_lift (c', i')) by done.
  rewrite !run_new_array. unfold ret.
  by rewrite length_app, Nat.add_1_r, <- app_assoc.
Qed.

Lemma LinearResampling_run spacing h mz int c i lo hi :
  h !! mz = Some c → h !! int = Some i → length i = length c →
  np.amin c = Return lo → np.amax c = Return hi →
  ¬ (float64.of_Q spacing == 0)%Q →
  ∃ g, np.arange lo (float64.add hi spacing) spacing = Return g ∧
       LinearResampling_filter spacing mz int h
       = (h ++ [g] ++ [np.interp_loop c i 0 g],
          Return (length h, S (length h))).
Proof.
  intros Hc Hi Hlen Hlo Hhi Hs.
  destruct (arange_length_Return lo (float64.add hi spacing) spacing Hs)
    as [n Hn].
  exists (map (np.arange_item lo spacing) (seq 0 n)).
  assert (Hg : np.arange lo (float64.add hi spacing) spacing
               = Return (map (np.arange_item lo spacing) (seq 0 n))).
  { unfold np.arange. by rewrite Hn. }
  split; [done|]. unfold LinearResampling_filter.
  rewrite (run_get_array mz c) by done.
  rewrite (run_lift lo) by done.
  rewrite (run_lift hi) by done.
  rewrite (run_lift _ _ _ _ Hg).
  rewrite run_new_array.
  rewrite (run_get_array int i) by (by apply lookup_old).
  rewrite (run_lift (np.interp_loop c i 0 (map (np.arange_item lo spacing)
                                             (seq 0 n)))).
  2:{ apply interp_run; [by eapply amax_nonempty | done]. }
  rewrite run_new_array. unfold ret.
  by rewrite length_app, Nat.add_1_r, <- app_assoc.
Qed.

(** What a returning variant leaves: two arrays of one length in the
    store, related position by position when the two inputs are distinct
    objects, and again distinct. *)
Lemma filter_method_Return `{!CollaboratorsContract ext}
  instance h mz int c i h' mz' int' :
  h !! mz = Some c → h !! int = Some i → length c = length i →
  filter_method instance mz int h = (h', Return (mz', int')) →
  ∃ c' i',
    h' !! mz' = Some c' ∧ h' !! int' = Some i' ∧ length c' = length i' ∧
    (mz ≠ int → corresponds instance c i c' i' ∧ mz' ≠ int').
Proof.
  intros Hc Hi Hlen Hrun.
  pose proof (lookup_lt_Some _ _ _ Hc) as Hmz.
  pose proof (lookup_lt_Some _ _ _ Hi) as Hint.
  (* the variants that return the coordinates they were given *)
  assert (Hkept : ∀ v,
             length v = length c →
             ∃ mask : list bool,
               length mask = length c ∧ c = np.select mask c ∧
               v = np.select mask v).
  { intros v Hv. exists (map (λ _, true) c). rewrite length_map.
    split_and!; [done | by rewrite select_all | by apply select_all_true]. }
  destruct instance; simpl in Hrun.
  - injection Hrun as <- <- <-. exists c, i. split_and!; try done.
    intros Hne. split; [|done].
    destruct (Hkept i) as (mask & ? & ? & ?); [done|].
    exists mask, i. split_and!; done.
  - apply MedianIntensityFilter_inv in Hrun as (i0 & Hi0 & -> & -> & ->).
    simplify_eq. eexists c, _.
    split_and!; [by apply lookup_old | apply lookup_new | |].
    { by rewrite length_zero_below. }
    intros Hne. split; [|lia].
    destruct (Hkept (zero_below (np.median i) i)) as (mask & ? & ? & ?).
    { by rewrite length_zero_below. }
    exists mask, (zero_below (np.median i) i).
    split_and!; try done; [by rewrite length_zero_below|].
    apply zero_below_values.
  - apply MeanBelowMeanFilter_inv in Hrun as (i0 & Hi0 & -> & -> & ->).
    simplify_eq. destruct (decide (mz = int)) as [->|Hne].
    + eexists _, _. rewrite list_lookup_insert_eq by done.
      split_and!; done.
    + eexists c, _. rewrite list_lookup_insert_ne by done.
      rewrite list_lookup_insert_eq by done.
      split_and!; [done | done | by rewrite length_zero_below |].
      intros _. split; [|done].
      set (v := zero_below (np.mean_bool (np.less i (np.mean i))) i).
      destruct (Hkept v) as (mask & ? & ? & ?).
      { unfold v. by rewrite length_zero_below. }
      exists mask, v. split_and!; try done.
      * unfold v. by rewrite length_zero_below.
      * apply zero_below_values.
  - apply SavitskyGolayFilter_inv in Hrun
      as (c0 & i0 & s & Hc0 & Hi0 & Hs & Hls & -> & -> & ->).
    simplify_eq.
    destruct (lookup_new2 h (np.select (np.greater (np.clip s 0) 0) c)
                (np.select (np.greater (np.clip s 0) 0) (np.clip s 0)))
      as [E1 E2].
    eexists _, _. split_and!; [exact E1 | exact E2 | |].
    { apply select_length_eq. unfold np.clip. by rewrite length_map. }
    intros _. split; [|lia].
    exists (np.greater (np.clip s 0) 0), (np.clip s 0).
    rewrite length_greater. unfold np.clip. rewrite length_map.
    split_and!; try done. by exists s.
  - apply NPercentOfMaxFilter_inv in Hrun
      as (i0 & m & Hi0 & Hm & -> & -> & ->).
    simplify_eq. eexists c, _.
    split_and!; [by apply lookup_old | apply lookup_new | |].
    { by rewrite length_map. }
    intros Hne. split; [|lia].
    match goal with
    | |- corresponds _ _ _ _ ?out => set (v := out)
    end.
    destruct (Hkept v) as (mask & ? & ? & ?).
    { unfold v. by rewrite length_map. }
    exists mask, v. split_and!; try done.
    + unfold v. by rewrite length_map.
    + apply (zeroed_values
               (λ x, if Qeq_bool m 0 then Qltb x 0 else Qltb (x / m) p)).
  - apply FTICRBaselineRemoval_inv in Hrun
      as (c0 & i0 & c' & i' & Hc0 & Hi0 & Hd & -> & -> & ->).
    simplify_eq. destruct (lookup_new2 h c' i') as [E1 E2].
    pose proof (fticr_remove_baseline_length _ _ _ _ _ _ _ Hd) as Hlen'.
    exists c', i'. split_and!; [done..|]. intros _. split; [done|lia].
  - apply (LinearResampling_inv _ _ _ _ i) in Hrun
      as (c0 & lo & hi & g & Hc0 & Hlen0 & Hlo & Hhi & Hg & -> & -> & ->);
      [|done].
    simplify_eq.
    destruct (lookup_new2 h g (np.interp_loop c i 0 g)) as [E1 E2].
    eexists _, _. split_and!; [exact E1 | exact E2 | |].
    { by rewrite length_interp_loop. }
    intros _. split; [|lia].
    apply interp_run; [by eapply amax_nonempty | done].
  - apply ConstantThreshold_inv in Hrun
      as (c0 & i0 & Hc0 & Hi0 & Hlen0 & -> & -> & ->).
    simplify_eq.
    destruct (lookup_new2 h (np.select (np.greater i constant) c)
                (np.select (np.greater i constant) i)) as [E1 E2].
    eexists _, _. split_and!; [exact E1 | exact E2 | |].
    { by apply select_length_eq. }
    intros _. split; [|lia].
    exists (np.greater i constant), i. rewrite length_greater.
    split_and!; done.
  - apply MaximumScaler_inv in Hrun
      as (i0 & m & Hi0 & Hm & -> & Hcases).
    simplify_eq.
    destruct Hcases as [(Hlt & Hm0 & -> & ->)|(Hle & -> & ->)].
    + eexists c, _.
      split_and!; [by apply lookup_old | apply lookup_new | |].
      { by rewrite length_map. }
      intros Hne. split; [|lia].
      set (v := map (λ x, x / m * threshold)%Q i).
      destruct (Hkept v) as (mask & ? & ? & ?).
      { unfold v. by rewrite length_map. }
      exists mask, v. split_and!; try done.
      * unfold v. by rewrite length_map.
      * exists (threshold / m)%Q. apply scaled_values.
        intros x. by apply rescale_value.
    + exists c, i. split_and!; try done.
      intros Hne. split; [|done].
      destruct (Hkept i) as (mask & ? & ? & ?); [done|].
      exists mask, i. split_and!; try done.
      exists 1%Q. rewrite <- (map_id i) at 2. apply scaled_values.
      intros x. ring.
Qed.

(** On a valid input the variant returns. *)
Lemma filter_method_returns `{!CollaboratorsContract ext}
  instance h mz int c i :
  h !! mz = Some c → h !! int = Some i → length c = length i →
  valid_input instance c i →
  ∃ h' mz' int', filter_method instance mz int h = (h', Return (mz', int')).
Proof.
  intros Hc Hi Hlen Hvalid. destruct instance; simpl in *.
  - by eexists _, _, _.
  - rewrite (MedianIntensityFilter_run h mz int i Hi). by eexists _, _, _.
  - rewrite (MeanBelowMeanFilter_run h mz int i Hi). by eexists _, _, _.
  - destruct Hvalid as [s Hs].
    pose proof (savgol_filter_length _ _ _ _ _ Hs) as Hls.
    rewrite (SavitskyGolayFilter_run _ _ _ h mz int c i s) by (done || lia).
    by eexists _, _, _.
  - destruct (amax_Return i Hvalid) as [m Hm].
    rewrite (NPercentOfMaxFilter_run_any p h mz int i m) by done.
    by eexists _, _, _.
  - destruct Hvalid as (c' & i' & Hd).
    rewrite (FTICRBaselineRemoval_run _ _ _ h mz int c i c' i') by done.
    by eexists _, _, _.
  - destruct Hvalid as [Hne Hs].
    destruct (amin_Return c Hne) as [lo Hlo].
    destruct (amax_Return c Hne) as [hi Hhi].
    destruct (LinearResampling_run spacing h mz int c i lo hi)
      as (g & _ & ->); try done.
    by eexists _, _, _.
  - rewrite (ConstantThreshold_run constant h mz int c i) by done.
    by eexists _, _, _.
  - destruct Hvalid as (m & Hm & [Hle|Hm0]).
    + rewrite (MaximumScaler_run_noop threshold h mz int i m) by done.
      by eexists _, _, _.
    + destruct (Qlt_le_dec threshold m) as [Hlt|Hle].
      * rewrite (MaximumScaler_run_scale threshold h mz int i m) by done.
        by eexists _, _, _.
      * rewrite (MaximumScaler_run_noop threshold h mz int i m) by done.
        by eexists _, _, _.
Qed.

Lemma call_paired `{!CollaboratorsContract ext}
  instance h mz int h' mz' int' :
  paired h mz int →
  call instance mz int h = (h', Return (mz', int')) → paired h' mz' int'.
Proof.
  intros (c & i & Hc & Hi & Hlen) Hrun.
  destruct (filter_method_Return instance h mz int c i h' mz' int')
    as (c' & i' & ? & ? & ? & _); try done.
  by exists c', i'.
Qed.

Lemma transform_loop_paired `{!CollaboratorsContract ext} reg filters :
  Forall variant_stage filters →
  ∀ mz int h h' mz' int',
    paired h mz int →
    transform_loop reg filters mz int h = (h', Return (mz', int')) →
    paired h' mz' int'.
Proof.
  induction 1 as [|filt filters Hfilt _ IH]; intros mz int h h' mz' int' Hp.
  { by intros [= <- <- <-]. }
  rewrite transform_loop_cons.
  destruct filt as [name|instance|f]; simpl in *; [| |done].
  - destruct (reg !! name) as [instance|]; simpl; [|done].
    destruct (call instance mz int h) as [h1 [[mz1 int1]|e]] eqn:Hrun; [|done].
    apply IH. by eapply call_paired.
  - destruct (call instance mz int h) as [h1 [[mz1 int1]|e]] eqn:Hrun; [|done].
    apply IH. by eapply call_paired.
Qed.

(** C2. Length correspondence.  For every filter variant and input pair
    of one length: whenever the variant returns, the two arrays it
    returns have one length, and (for inputs that are two distinct
    objects) they correspond position by position in the sense of
    [corresponds]: one selection of input positions gives both arrays,
    the coordinate at a position returned being the input coordinate of
    the selected position and the intensity the value the variant has
    for the input intensity of that same position; for resampling the
    intensities are [np.interp] of the input at the coordinates returned.
    On every input valid for the variant it does return.  For [transform]
    over stages that stand for variants, cut at any stage boundary: the
    stages before the cut have returned a pair of one length, from which
    the stages after it produce the final pair, again of one length. *)
Theorem length_correspondence `{!CollaboratorsContract ext} :
  (∀ instance h mz int c i,
      h !! mz = Some c → h !! int = Some i → length c = length i →
      (∀ h' mz' int',
          filter_method instance mz int h = (h', Return (mz', int')) →
          ∃ c' i',
            h' !! mz' = Some c' ∧ h' !! int' = Some i' ∧
            length c' = length i' ∧
            (mz ≠ int → corresponds instance c i c' i')) ∧
      (valid_input instance c i →
       ∃ h' mz' int',
         filter_method instance mz int h = (h', Return (mz', int')))) ∧
  (∀ reg pre post mz int h h' mz' int',
      paired h mz int → Forall variant_stage (pre ++ post) →
      transform reg mz int (Some (pre ++ post)) h = (h', Return (mz', int')) →
      ∃ h1 mz1 int1,
        transform reg mz int (Some pre) h = (h1, Return (mz1, int1)) ∧
        paired h1 mz1 int1 ∧
        transform reg mz1 int1 (Some post) h1 = (h', Return (mz', int')) ∧
        paired h' mz' int').
Proof.
  split.
  - intros instance h mz int c i Hc Hi Hlen. split.
    + intros h' mz' int' Hrun.
      destruct (filter_method_Return instance h mz int c i h' mz' int')
        as (c' & i' & ? & ? & ? & Hcor); try done.
      exists c', i'. split_and!; try done. intros Hne. by apply Hcor.
    + by apply filter_method_returns.
  - intros reg pre post mz int h h' mz' int' Hp Hstages.
    rewrite !transform_Some, transform_loop_app.
    apply Forall_app in Hstages as [Hpre Hpost].
    destruct (transform_loop reg pre mz int h)
      as [h1 [[mz1 int1]|e]] eqn:Hrun; [|done].
    intros Hrest. exists h1, mz1, int1.
    assert (Hp1 : paired h1 mz1 int1).
    { exact (transform_loop_paired reg pre Hpre _ _ _ _ _ _ Hp Hrun). }
    split_and!; try done.
    exact (transform_loop_paired reg post Hpost _ _ _ _ _ _ Hp1 Hrest).
Qed.

End Lengths.

(** ** Non-decreasing sample points *)

Lemma sorted_lookup_le (xp : list Q) k k' y y' :
  StronglySorted Qle xp → k ≤ k' →
  xp !! k = Some y → xp !! k' = Some y' → (y <= y')%Q.
Proof.
  intros Hs. revert k k'.
  induction Hs as [|x0 xp Hs IH Hall]; intros k k' Hk Hy Hy'; [done|].
  destruct k as [|k], k' as [|k']; simpl in *; try lia.
  - simplify_eq. lra.
  - simplify_eq. rewrite Forall_forall in Hall.
    apply Hall. by eapply list_elem_of_lookup_2.
  - eapply (IH k k'); [lia | done..].
Qed.

(** ** The interval search of [np.interp] *)

Lemma item_lookup (a : list Q) (k : Z) x :
  (0 <= k)%Z → a !! Z.to_nat k = Some x → np.item a k = x.
Proof. intros Hk Hx. unfold np.item. by apply nth_lookup_Some. Qed.

(** The scan from the left stops at the first sample point above the key. *)
Lemma linear_scan_bracket key (arr rest : list Q) (i : Z) :
  (1 <= i <= Z.of_nat (length arr))%Z →
  drop (Z.to_nat i) arr = rest →
  (np.item arr (i - 1) <= key)%Q →
  let j := np.linear_scan key rest i in
  (0 <= j < Z.of_nat (length arr))%Z ∧
  (np.item arr j <= key)%Q ∧
  (j = (Z.of_nat (length arr) - 1)%Z ∨ (key < np.item arr (j + 1))%Q).
Proof.
  revert i. induction rest as [|y rest IH]; intros i Hi Hdrop Hkey; simpl.
  - assert (Hlen : length (drop (Z.to_nat i) arr) = 0) by (by rewrite Hdrop).
    rewrite length_drop in Hlen.
    split; [lia|]. split; [done|]. left. lia.
  - assert (Hy : arr !! Z.to_nat i = Some y).
    { rewrite <- (Nat.add_0_r (Z.to_nat i)), <- lookup_drop. by rewrite Hdrop. }
    pose proof (lookup_lt_Some _ _ _ Hy) as Hlt.
    assert (Hitem : np.item arr i = y) by (apply item_lookup; [lia | done]).
    destruct (Qle_bool y key) eqn:Hle.
    + apply Qle_bool_iff in Hle.
      destruct (IH (i + 1)%Z) as (H1 & H2 & H3).
      * lia.
      * replace (Z.to_nat (i + 1)) with (S (Z.to_nat i)) by lia.
        pose proof (drop_S _ _ _ Hy) as Hd. rewrite Hdrop in Hd.
        by injection Hd as <-.
      * replace (i + 1 - 1)%Z with i by lia. by rewrite Hitem.
      * done.
    + assert (Hgt : (key < y)%Q).
      { apply Qnot_le_lt. intros H. apply Qle_bool_iff in H. congruence. }
      split; [lia|]. split; [done|]. right.
      replace (i - 1 + 1)%Z with i by lia. by rewrite Hitem.
Qed.

(** The bisection keeps the key at or above the sample before [imin], or
    at or above the sample at [imin] while the interval is not empty, and
    below the sample at [imax]. *)
Lemma bisect_bracket fuel key (arr : list Q) (imin imax : Z) :
  (0 <= imin <= imax)%Z → (imax <= Z.of_nat (length arr))%Z →
  (imax - imin <= Z.of_nat fuel)%Z →
  ((1 <= imin)%Z ∧ (np.item arr (imin - 1) <= key)%Q) ∨
  ((imin < imax)%Z ∧ (np.item arr imin <= key)%Q) →
  (imax = Z.of_nat (length arr) ∨ (key < np.item arr imax)%Q) →
  let j := np.bisect fuel key arr imin imax in
  (0 <= j < Z.of_nat (length arr))%Z ∧
  (np.item arr j <= key)%Q ∧
  (j = (Z.of_nat (length arr) - 1)%Z ∨ (key < np.item arr (j + 1))%Q).
Proof.
  revert imin imax.
  assert (Hend : ∀ imin imax,
             (0 <= imin <= imax)%Z → (imax <= Z.of_nat (length arr))%Z →
             (imax <= imin)%Z →
             ((1 <= imin)%Z ∧ (np.item arr (imin - 1) <= key)%Q) ∨
             ((imin < imax)%Z ∧ (np.item arr imin <= key)%Q) →
             (imax = Z.of_nat (length arr) ∨ (key < np.item arr imax)%Q) →
             (0 <= imin - 1 < Z.of_nat (length arr))%Z ∧
             (np.item arr (imin - 1) <= key)%Q ∧
             ((imin - 1)%Z = (Z.of_nat (length arr) - 1)%Z
              ∨ (key < np.item arr (imin - 1 + 1))%Q)).
  { intros imin imax H1 H2 H3 [[Ha Hb]|[Ha _]] Hc; [|lia].
    assert (imin = imax) as -> by lia.
    split; [lia|]. split; [done|].
    replace (imax - 1 + 1)%Z with imax by lia.
    destruct Hc as [->|Hc]; [by left | by right]. }
  induction fuel as [|fuel IH]; intros imin imax H1 H2 H3 HA HB; simpl.
  { apply (Hend imin imax); try done. lia. }
  destruct (imin <? imax)%Z eqn:Hlt.
  2:{ apply Z.ltb_ge in Hlt. by apply (Hend imin imax). }
  apply Z.ltb_lt in Hlt.
  set (imid := (imin + Z.shiftr (imax - imin) 1)%Z).
  assert (Hmid : (imin <= imid < imax)%Z).
  { unfold imid. rewrite Z.shiftr_div_pow2 by lia.
    change (2 ^ 1)%Z with 2%Z.
    pose proof (Z.div_pos (imax - imin) 2). 
    pose proof (Z.div_lt_upper_bound (imax - imin) 2 (imax - imin)). lia. }
  destruct (Qle_bool (np.item arr imid) key) eqn:Hle.
  - apply Qle_bool_iff in Hle. apply IH; try lia; try done.
    left. split; [lia|]. by replace (imid + 1 - 1)%Z with imid by lia.
  - assert (Hgt : (key < np.item arr imid)%Q).
    { apply Qnot_le_lt. intros H. apply Qle_bool_iff in H. congruence. }
    apply IH; try lia.
    + destruct HA as [HA|[_ HA]]; [by left|]. right. split; [|done].
      destruct (Z.eq_dec imid imin) as [E|E]; [|lia].
      rewrite E in Hgt. lra.
    + by right.
Qed.

(** Whatever the sample points and the guess, the search returns [-1]
    below the first sample point, the length above the last one, and
    otherwise an index [j] with [xp[j] <= key] that is the last index or
    has [key < xp[j + 1]]. *)
Lemma binary_search_with_guess_bracket key (arr : list Q) guess :
  arr ≠ [] → bracket arr key (np.binary_search_with_guess key arr guess).
Proof.
  intros Hne. unfold bracket, np.binary_search_with_guess.
  set (len := Z.of_nat (length arr)).
  assert (Hlen : (1 <= len)%Z).
  { unfold len. destruct arr; [done|]. simpl. lia. }
  destruct (Qltb (np.item arr (len - 1)) key) eqn:Hlast.
  { apply Qltb_lt in Hlast. right. by left. }
  apply Qltb_ge in Hlast.
  destruct (Qltb key (np.item arr 0)) eqn:Hfirst.
  { apply Qltb_lt in Hfirst. by left. }
  apply Qltb_ge in Hfirst.
  right. right.
  assert (Hgoal : ∀ j,
             (0 <= j < len)%Z ∧ (np.item arr j <= key)%Q ∧
             (j = (len - 1)%Z ∨ (key < np.item arr (j + 1))%Q) →
             (0 <= j < len)%Z ∧
             ((np.item arr 0 <= key)%Q ∧ (key <= np.item arr (len - 1))%Q) ∧
             (np.item arr j <= key)%Q ∧
             (j = (len - 1)%Z ∨ (key < np.item arr (j + 1))%Q)).
  { intros j (? & ? & ?). done. }
  apply Hgoal. clear Hgoal.
  destruct (len <=? 4)%Z eqn:Hsmall.
  { unfold np.linear_search.
    apply (linear_scan_bracket key arr (drop 1 arr) 1); [lia | done | done]. }
  apply Z.leb_gt in Hsmall.
  set (g0 := if (len - 3 <? guess)%Z then (len - 3)%Z else guess).
  set (g := if (g0 <? 1)%Z then 1%Z else g0).
  assert (Hg : (1 <= g <= len - 3)%Z).
  { unfold g, g0. repeat case_match;
      repeat match goal with
             | H : (_ <? _)%Z = true |- _ => apply Z.ltb_lt in H
             | H : (_ <? _)%Z = false |- _ => apply Z.ltb_ge in H
             end; lia. }
  clearbody g. clear g0.
  destruct (Qltb key (np.item arr g)) eqn:H0.
  - apply Qltb_lt in H0.
    destruct (Qltb key (np.item arr (g - 1))) eqn:H1.
    + apply Qltb_lt in H1.
      assert (Hg1 : (1 < g)%Z).
      { destruct (Z.eq_dec g 1%Z) as [->|]; [|lia].
        change (1 - 1)%Z with 0%Z in H1. lra. }
      apply bisect_bracket.
      * case_match; [|lia].
        match goal with
        | H : _ && _ = true |- _ => apply andb_true_iff in H as [H _];
                                    apply Z.ltb_lt in H
        end. lia.
      * lia.
      * fold len. case_match; lia.
      * right. case_match.
        -- match goal with
           | H : _ && _ = true |- _ => apply andb_true_iff in H as [Hz Hq];
                                       apply Z.ltb_lt in Hz;
                                       apply Qle_bool_iff in Hq
           end.
           split; [lia | done].
        -- split; [lia | done].
      * by right.
    + apply Qltb_ge in H1. split; [lia|]. split; [done|]. right.
      by replace (g - 1 + 1)%Z with g by lia.
  - apply Qltb_ge in H0.
    destruct (Qltb key (np.item arr (g + 1))) eqn:H1.
    { apply Qltb_lt in H1. split; [lia|]. split; [done|]. by right. }
    apply Qltb_ge in H1.
    destruct (Qltb key (np.item arr (g + 2))) eqn:H2.
    { apply Qltb_lt in H2. split; [lia|]. split; [done|]. right.
      by replace (g + 1 + 1)%Z with (g + 2)%Z by lia. }
    apply Qltb_ge in H2.
    apply bisect_bracket.
    + case_match; [|lia].
      match goal with
      | H : _ && _ = true |- _ => apply andb_true_iff in H as [H _];
                                  apply Z.ltb_lt in H
      end. lia.
    + fold len. case_match; [|lia].
      match goal with
      | H : _ && _ = true |- _ => apply andb_true_iff in H as [H _];
                                  apply Z.ltb_lt in H
      end. lia.
    + fold len. case_match; lia.
    + right. split; [|done]. case_match; [lia|]. fold len. lia.
    + case_match.
      * match goal with
        | H : _ && _ = true |- _ => apply andb_true_iff in H as [_ Hq];
                                    apply Qltb_lt in Hq
        end. by right.
      * by left.
Qed.

(** ** The values of [np.interp] *)

(** The value at a point is the first sample value to the left of the
    sample points, the last one at or beyond the last sample point, and
    otherwise lies on the chord of two neighbouring samples that enclose
    the point. *)
Lemma interp_value_cases (xp fp : list Q) (j : Z) (x : Q) :
  xp ≠ [] → bracket xp x j →
  ((x < nth 0 xp 0)%Q ∧ np.interp_value xp fp j x = nth 0 fp 0%Q) ∨
  ((nth (length xp - 1) xp 0 <= x)%Q ∧
   np.interp_value xp fp j x = nth (length xp - 1) fp 0%Q) ∨
  (∃ k : nat,
      S k < length xp ∧
      (nth k xp 0 <= x)%Q ∧ (x < nth (S k) xp 0)%Q ∧
      (np.interp_value xp fp j x
       == nth k fp 0 + (x - nth k xp 0)
                       * ((nth (S k) fp 0 - nth k fp 0)
                          / (nth (S k) xp 0 - nth k xp 0)))%Q).
Proof.
  intros Hne Hb. unfold bracket in Hb. unfold np.interp_value.
  set (len := Z.of_nat (length xp)) in *.
  assert (Hlen : (1 <= len)%Z).
  { unfold len. destruct xp; [done|]. simpl. lia. }
  assert (Hlast : np.item xp (len - 1) = nth (length xp - 1) xp 0%Q).
  { unfold np.item, len. f_equal. lia. }
  assert (Hlastf : np.item fp (len - 1) = nth (length xp - 1) fp 0%Q).
  { unfold np.item, len. f_equal. lia. }
  destruct Hb as [[-> Hx]|[[-> Hx]|(Hj & [Hx0 Hx1] & Hxj & Hnext)]].
  - left. split; [done|]. done.
  - right. left. rewrite Hlast in Hx.
    assert (E1 : (len =? -1)%Z = false) by (apply Z.eqb_neq; lia).
    rewrite E1, Z.eqb_refl. split; [lra | done].
  - assert (E1 : (j =? -1)%Z = false) by (apply Z.eqb_neq; lia).
    assert (E2 : (j =? len)%Z = false) by (apply Z.eqb_neq; lia).
    rewrite E1, E2.
    destruct (j =? len - 1)%Z eqn:E3.
    { apply Z.eqb_eq in E3. subst j. right. left.
      rewrite Hlast in Hxj. by rewrite Hlastf. }
    apply Z.eqb_neq in E3.
    destruct Hnext as [?|Hnext]; [lia|].
    right. right. exists (Z.to_nat j).
    assert (Hk1 : np.item xp (j + 1) = nth (S (Z.to_nat j)) xp 0%Q).
    { unfold np.item. f_equal. lia. }
    assert (Hk1f : np.item fp (j + 1) = nth (S (Z.to_nat j)) fp 0%Q).
    { unfold np.item. f_equal. lia. }
    rewrite Hk1, Hk1f in *. unfold np.item in *.
    split; [unfold len in *; lia|]. split; [done|]. split; [done|].
    destruct (Qeq_bool (nth (Z.to_nat j) xp 0%Q) x) eqn:Heq.
    + apply Qeq_bool_iff in Heq. rewrite <- Heq. ring.
    + ring.
Qed.

(** Each value of the loop is the value at the index the search finds
    for its point. *)
Lemma interp_loop_lookup (xp fp : list Q) (x : list Q) j0 k x_val y :
  xp ≠ [] →
  x !! k = Some x_val → np.interp_loop xp fp j0 x !! k = Some y →
  ∃ j, bracket xp x_val j ∧ y = np.interp_value xp fp j x_val.
Proof.
  intros Hne. revert j0 k.
  induction x as [|x0 x IH]; intros j0 k Hx Hy; [done|].
  destruct k as [|k]; simpl in *.
  - simplify_eq. eexists. split; [|done].
    by apply binary_search_with_guess_bracket.
  - by eapply IH.
Qed.

(** In non-decreasing sample points the enclosing interval is unique. *)
Lemma interval_unique (xp : list Q) k k' x :
  StronglySorted Qle xp → S k < length xp → S k' < length xp →
  (nth k xp 0 <= x)%Q → (x < nth (S k) xp 0)%Q →
  (nth k' xp 0 <= x)%Q → (x < nth (S k') xp 0)%Q →
  k = k'.
Proof.
  intros Hs Hk Hk' H1 H2 H3 H4.
  assert (Hle : ∀ a b, a ≤ b → b < length xp → (nth a xp 0 <= nth b xp 0)%Q).
  { intros a b Hab Hb.
    destruct (xp !! a) as [ya|] eqn:Ha.
    2:{ apply lookup_ge_None in Ha. lia. }
    destruct (xp !! b) as [yb|] eqn:Hb'.
    2:{ apply lookup_ge_None in Hb'. lia. }
    rewrite (nth_lookup_Some _ _ _ _ Ha), (nth_lookup_Some _ _ _ _ Hb').
    by apply (sorted_lookup_le xp a b). }
  destruct (lt_eq_lt_dec k k') as [[Hlt|]|Hlt]; [|done|].
  - pose proof (Hle (S k) k' ltac:(lia) ltac:(lia)). lra.
  - pose proof (Hle (S k') k ltac:(lia) ltac:(lia)). lra.
Qed.

(** On sample points that are not sorted the value depends on the index
    the search arrives at.  With the seven sample points
    [2, 3, 5, 4, 7, 1, 6] the search for the point 5 starts from the index
    1 found for the point 4 and ends by bisection at the index 5, between
    the sample points 1 and 6: the value is 8, on their chord.  A scan
    from the left would stop between the sample points 4 and 7 and give
    17/3. *)
Lemma interp_on_unsorted_samples :
  ∃ v,
    np.interp [1; 2; 3; 4; 5; 6; 7; 8; 9]%Q [2; 3; 5; 4; 7; 1; 6]%Q
      [5; 9; 7; 4; 9; 4; 9]%Q
    = Return v ∧
    map Qred v = [5; 5; 9; 8; 8; 22 # 3; 9; 9; 9]%Q.
Proof. eexists. split; vm_compute; reflexivity. Qed.

(** ** The resampling grid *)

(** The number of grid points and where the last one falls. *)
Lemma arange_last (lo hi spacing : Q) :
  (lo <= hi)%Q → (0 < spacing)%Q →
  let n := Z.to_nat (Qceiling ((hi + spacing - lo) / spacing)) in
  0 < n ∧
  (hi <= lo + Qofnat (n - 1) * spacing)%Q ∧
  (lo + Qofnat (n - 1) * spacing < hi + spacing)%Q.
Proof.
  intros Hlohi Hpos. cbv zeta.
  set (q := ((hi + spacing - lo) / spacing)%Q).
  assert (Hq : (q * spacing == hi + spacing - lo)%Q).
  { unfold q. field. lra. }
  assert (Hq1 : (1 <= q)%Q).
  { unfold q. apply Qle_shift_div_l; lra. }
  pose proof (Qle_ceiling q) as Hup.
  pose proof (Qceiling_lt q) as Hdown.
  set (z := Qceiling q) in *.
  assert (Hz : (1 <= z)%Z).
  { rewrite Zle_Qle. change (inject_Z 1) with 1%Q. lra. }
  assert (Hn : Qofnat (Z.to_nat z - 1) = inject_Z (z - 1)).
  { unfold Qofnat. f_equal. lia. }
  rewrite Hn. split; [lia|].
  assert (Hz1 : (inject_Z (z - 1) == inject_Z z - 1)%Q).
  { unfold Z.sub. rewrite inject_Z_plus. done. }
  split.
  - assert (Hstep : (q * spacing <= inject_Z z * spacing)%Q).
    { apply Qmult_le_r; done. }
    rewrite Hz1. lra.
  - assert (Hstep : (inject_Z (z - 1) * spacing < q * spacing)%Q).
    { apply Qmult_lt_r; done. }
    lra.
Qed.

Lemma arange_lookup (start step : Q) n k :
  k < n →
  map (np.arange_item start step) (seq 0 n) !! k
  = Some (np.arange_item start step k).
Proof.
  intros Hk.
  change (map (np.arange_item start step) (seq 0 n))
    with (np.arange_item start step <$> seq 0 n).
  rewrite list_lookup_fmap, lookup_seq_lt by done. done.
Qed.

(** With a float64 step that is not negative no grid point is below the
    start. *)
Lemma arange_item_lower (start step : Q) k :
  (0 <= float64.of_Q step)%Q →
  (float64.of_Q start <= np.arange_item start step k)%Q.
Proof.
  intros Hstep. unfold np.arange_item.
  assert (Hplus : ∀ d, (0 <= d)%Q →
            (float64.of_Q start <= float64.of_Q (float64.of_Q start + d))%Q).
  { intros d Hd. rewrite <- (of_Q_idempotent start) at 1.
    apply of_Q_monotone. lra. }
  assert (Hnext : (float64.of_Q start <= float64.add start step)%Q).
  { unfold float64.add. by apply Hplus. }
  destruct k as [|[|k]]; [lra | done |].
  unfold float64.add at 1. apply Hplus.
  apply of_Q_nonneg. unfold float64.mul. apply of_Q_nonneg.
  apply Qmult_le_0_compat.
  - apply of_Q_nonneg, Qofnat_nonneg.
  - apply of_Q_nonneg. unfold float64.sub. apply of_Q_nonneg.
    rewrite <- (of_Q_idempotent start) in Hnext.
    unfold float64.add in *. rewrite of_Q_idempotent.
    rewrite of_Q_idempotent in Hnext. lra.
Qed.

(** *** When no operation rounds *)

Lemma of_Q_exact (x y : Q) :
  (x == y)%Q → is_float64 y → (float64.of_Q x == y)%Q.
Proof. intros Hxy Hy. by rewrite (of_Q_comp _ _ Hxy). Qed.

Lemma add_exact (x y : Q) :
  is_float64 x → is_float64 y → is_float64 (x + y) →
  (float64.add x y == x + y)%Q.
Proof.
  intros Hx Hy Hxy. unfold float64.add. apply of_Q_exact; [|done].
  unfold is_float64 in Hx, Hy. by rewrite Hx, Hy.
Qed.

Lemma is_float64_comp (x y : Q) : (x == y)%Q → is_float64 x → is_float64 y.
Proof.
  unfold is_float64. intros Hxy Hx. by rewrite <- (of_Q_comp _ _ Hxy), Hx.
Qed.

(** The length and the points of the grid when the arithmetic is exact. *)
Lemma arange_exact (lo hi spacing : Q) :
  (lo <= hi)%Q → (0 < spacing)%Q →
  let n := Z.to_nat (Qceiling ((hi + spacing - lo) / spacing)) in
  exact_grid lo hi spacing n →
  np.arange_length lo (float64.add hi spacing) spacing = Return n ∧
  ∀ k, k < n → (np.arange_item lo spacing k == lo + Qofnat k * spacing)%Q.
Proof.
  intros Hlohi Hpos n (Hlo & Hhi & Hsp & Hstop & Hspan & Hquot & Hk).
  assert (Estop : (float64.add hi spacing == hi + spacing)%Q)
    by (by apply add_exact).
  assert (Espan : (float64.sub (float64.add hi spacing) lo
                   == hi + spacing - lo)%Q).
  { unfold float64.sub. apply of_Q_exact; [|done].
    unfold float64.add. rewrite of_Q_idempotent. fold (float64.add hi spacing).
    unfold is_float64 in Hlo. by rewrite Estop, Hlo. }
  assert (Equot : (float64.div (float64.sub (float64.add hi spacing) lo) spacing
                   == (hi + spacing - lo) / spacing)%Q).
  { unfold float64.div. apply of_Q_exact; [|done].
    unfold float64.sub at 1. rewrite of_Q_idempotent.
    fold (float64.sub (float64.add hi spacing) lo).
    unfold is_float64 in Hsp. by rewrite Espan, Hsp. }
  assert (Hq1 : (1 <= (hi + spacing - lo) / spacing)%Q).
  { apply Qle_shift_div_l; lra. }
  split.
  - unfold np.arange_length.
    assert (E1 : Qeq_bool (float64.of_Q spacing) 0 = false).
    { apply Qeq_bool_false. unfold is_float64 in Hsp. rewrite Hsp. lra. }
    assert (E2 : Qeq_bool (float64.div (float64.sub (float64.add hi spacing) lo)
                             spacing) 0 = false).
    { apply Qeq_bool_false. rewrite Equot. lra. }
    rewrite E1, E2. simpl. f_equal. unfold n. f_equal.
    by apply Qceiling_comp.
  - intros k Hkn. unfold np.arange_item.
    destruct k as [|[|k]].
    + unfold is_float64 in Hlo. rewrite Hlo. unfold Qofnat. simpl. ring.
    + destruct (Hk 1 Hkn) as (_ & _ & H1).
      assert (H1' : is_float64 (lo + spacing)).
      { eapply is_float64_comp; [|exact H1].
        change (Qofnat 1) with 1%Q. ring. }
      rewrite add_exact by done. change (Qofnat 1) with 1%Q. ring.
    + destruct (Hk 1 ltac:(lia)) as (_ & _ & H1).
      assert (H1' : is_float64 (lo + spacing)).
      { eapply is_float64_comp; [|exact H1].
        change (Qofnat 1) with 1%Q. ring. }
      assert (Enext : (float64.add lo spacing == lo + spacing)%Q)
        by (by apply add_exact).
      assert (Edelta : (float64.sub (float64.add lo spacing) lo == spacing)%Q).
      { unfold float64.sub. apply of_Q_exact; [|done].
        unfold float64.add. rewrite of_Q_idempotent. fold (float64.add lo spacing).
        unfold is_float64 in Hlo. rewrite Enext, Hlo. ring. }
      destruct (Hk (S (S k)) Hkn) as (Hk1 & Hk2 & Hk3).
      set (kk := Qofnat (S (S k))) in *.
      assert (Emul : (float64.mul kk (float64.sub (float64.add lo spacing) lo)
                      == kk * spacing)%Q).
      { unfold float64.mul. apply of_Q_exact; [|done].
        unfold float64.sub. rewrite of_Q_idempotent.
        fold (float64.sub (float64.add lo spacing) lo).
        unfold is_float64 in Hk1. by rewrite Edelta, Hk1. }
      unfold float64.add at 1. apply of_Q_exact; [|done].
      unfold float64.mul. rewrite of_Q_idempotent.
      fold (float64.mul kk (float64.sub (float64.add lo spacing) lo)).
      unfold is_float64 in Hlo. by rewrite Emul, Hlo.
Qed.

(** *** The grid is non-decreasing *)

(** Every float64 value is a multiple of the least subnormal value. *)
Lemma round_multiple (a : Q) :
  (0 < a)%Q → ∃ z : Z, (float64.round a == inject_Z z * 2 ^ (-1074)%Z)%Q.
Proof.
  intros Ha. rewrite round_unfold.
  set (m := float64.rint (a / 2 ^ float64.expo a)).
  set (e := float64.expo a).
  assert (He : (-1074 <= e)%Z) by (unfold e, float64.expo; lia).
  exists (m * 2 ^ (e + 1074))%Z.
  rewrite inject_Z_mult, pow2_Z by lia.
  rewrite <- Qmult_assoc, <- pow2_plus.
  by replace (e + 1074 + -1074)%Z with e by lia.
Qed.

Lemma of_Q_multiple (x : Q) :
  ∃ z : Z, (float64.of_Q x == inject_Z z * 2 ^ (-1074)%Z)%Q.
Proof.
  destruct (Q_dec x 0) as [[Hneg|Hpos]|Hzero].
  - destruct (round_multiple (- x)) as [z Hz]; [lra|].
    exists (- z)%Z. rewrite of_Q_neg, Hz, inject_Z_opp by done. ring.
  - destruct (round_multiple x Hpos) as [z Hz].
    exists z. by rewrite of_Q_pos.
  - exists 0%Z. rewrite (of_Q_zero x Hzero). ring.
Qed.

(** Rounding a positive multiple of the least subnormal value does not
    halve it. *)
Lemma round_half (d : Q) (z : Z) :
  (0 < d)%Q → (d == inject_Z z * 2 ^ (-1074)%Z)%Q →
  (d <= 2 * float64.round d)%Q.
Proof.
  intros Hd Hz. rewrite round_unfold.
  pose proof (pow2_pos (float64.expo d)) as Hpow.
  destruct (Z.eq_dec (float64.expo d) (-1074)%Z) as [He|He].
  - rewrite He.
    assert (Hq : (d / 2 ^ (-1074)%Z == inject_Z z)%Q).
    { rewrite Hz. field. pose proof (pow2_pos (-1074)%Z). lra. }
    rewrite (rint_comp _ _ Hq), rint_Z, <- Hz. lra.
  - pose proof (mantissa_lower d Hd) as Hlow.
    assert (Hm : (2 ^ 52 <= float64.rint (d / 2 ^ float64.expo d))%Z).
    { apply Hlow. unfold float64.expo in *. lia. }
    destruct (rint_near (d / 2 ^ float64.expo d)) as [Hnear _].
    set (m := float64.rint (d / 2 ^ float64.expo d)) in *.
    assert (Hm1 : (1 <= inject_Z m)%Q).
    { change 1%Q with (inject_Z 1). rewrite <- Zle_Qle. lia. }
    assert (Hq : (d == d / 2 ^ float64.expo d * 2 ^ float64.expo d)%Q).
    { field. lra. }
    rewrite Hq at 1.
    assert (Hle : (d / 2 ^ float64.expo d <= 2 * inject_Z m)%Q) by lra.
    apply (Qmult_le_r _ _ _ Hpow) in Hle. lra.
Qed.

(** Doubling a float64 value is exact. *)
Lemma of_Q_double (y : Q) :
  (0 <= y)%Q → is_float64 y → (float64.of_Q (2 * y) == 2 * y)%Q.
Proof.
  intros Hy0 Hy. destruct (Qlt_le_dec 0 y) as [Hpos|Hle].
  2:{ assert (E : (2 * y == 0)%Q) by lra. rewrite (of_Q_zero _ E). lra. }
  unfold is_float64 in Hy. rewrite of_Q_pos in Hy by done.
  rewrite round_unfold in Hy.
  set (m := float64.rint (y / 2 ^ float64.expo y)) in *.
  set (e := float64.expo y) in *.
  pose proof (mantissa_upper y Hpos) as Hup. fold m e in Hup.
  pose proof (pow2_pos e) as Hpow.
  assert (Hm : (0 < m)%Z).
  { destruct (Z_lt_le_dec 0 m) as [|Hle]; [done|].
    rewrite Zle_Qle in Hle. change (inject_Z 0) with 0%Q in Hle. nra. }
  assert (E : (2 * y == inject_Z m * 2 ^ (e + 1))%Q).
  { rewrite pow2_plus. change (2 ^ 1)%Q with 2%Q. rewrite <- Hy. ring. }
  rewrite (of_Q_comp _ _ E), of_Q_pos.
  - rewrite round_fixed; [by rewrite E | done | done |].
    unfold e, float64.expo. lia.
  - rewrite <- E. lra.
Qed.

Lemma arange_item_step (start step : Q) k :
  (0 <= float64.of_Q step)%Q →
  (np.arange_item start step k <= np.arange_item start step (S k))%Q.
Proof.
  intros Hstep.
  set (s := float64.of_Q start).
  set (next := float64.add start step).
  set (delta := float64.sub next start).
  assert (Hs : float64.of_Q s = s) by apply of_Q_idempotent.
  assert (Hnext : float64.of_Q next = next) by apply of_Q_idempotent.
  assert (Hdelta : float64.of_Q delta = delta) by apply of_Q_idempotent.
  assert (Hsn : (s <= next)%Q).
  { apply (arange_item_lower start step 1 Hstep). }
  assert (Hd0 : (0 <= delta)%Q).
  { unfold delta, float64.sub. apply of_Q_nonneg. rewrite Hnext. fold s. lra. }
  assert (Hmul : ∀ a b, a ≤ b →
            (float64.mul (Qofnat a) delta <= float64.mul (Qofnat b) delta)%Q).
  { intros a b Hab. unfold float64.mul. apply of_Q_monotone. rewrite Hdelta.
    apply Qmult_le_compat_r; [|done]. apply of_Q_monotone. by apply Qofnat_le. }
  destruct k as [|[|k]].
  - exact Hsn.
  - (* the second and the third point *)
    change (np.arange_item start step 1) with next.
    change (np.arange_item start step 2)
      with (float64.add start (float64.mul (Qofnat 2) delta)).
    assert (E2 : float64.of_Q (Qofnat 2) = 2%Q) by (by vm_compute).
    assert (Emul : (float64.mul (Qofnat 2) delta == 2 * delta)%Q).
    { unfold float64.mul. rewrite E2, Hdelta. apply of_Q_double; [done|].
      unfold is_float64. by rewrite Hdelta. }
    assert (Hhalf : (next - s <= 2 * delta)%Q).
    { destruct (Qlt_le_dec 0 (next - s)) as [Hpos|Hle]; [|lra].
      destruct (of_Q_multiple next) as [z1 Hz1]. rewrite Hnext in Hz1.
      destruct (of_Q_multiple s) as [z2 Hz2]. rewrite Hs in Hz2.
      assert (Hz : (next - s == inject_Z (z1 - z2) * 2 ^ (-1074)%Z)%Q).
      { unfold Z.sub. rewrite inject_Z_plus, inject_Z_opp, Hz1, Hz2. ring. }
      pose proof (round_half _ _ Hpos Hz) as Hr.
      unfold delta, float64.sub. rewrite Hnext. fold s.
      by rewrite of_Q_pos. }
    unfold float64.add at 1. fold s.
    rewrite <- Hnext at 1. apply of_Q_monotone.
    unfold float64.mul. rewrite of_Q_idempotent.
    fold (float64.mul (Qofnat 2) delta). lra.
  - change (np.arange_item start step (S (S k)))
      with (float64.add start (float64.mul (Qofnat (S (S k))) delta)).
    change (np.arange_item start step (S (S (S k))))
      with (float64.add start (float64.mul (Qofnat (S (S (S k)))) delta)).
    unfold float64.add. apply of_Q_monotone.
    pose proof (of_Q_monotone _ _ (Hmul (S (S k)) (S (S (S k))) ltac:(lia))).
    lra.
Qed.

Lemma consecutive_sorted (f : nat → Q) n k0 :
  (∀ k, (f k <= f (S k))%Q) → StronglySorted Qle (map f (seq k0 n)).
Proof.
  intros Hf.
  assert (Hle : ∀ a b, a ≤ b → (f a <= f b)%Q).
  { intros a b Hab. induction Hab as [|b Hab IH]; [lra|].
    pose proof (Hf b). lra. }
  revert k0. induction n as [|n IH]; intros k0; simpl; constructor; [apply IH|].
  apply Forall_forall. intros y Hy.
  apply list_elem_of_In, in_map_iff in Hy as (k & <- & Hk).
  apply in_seq in Hk. apply Hle. lia.
Qed.

Section Resampling.
Context {ext : Collaborators}.
Implicit Types (h : heap) (mz int : loc) (c i : list Q).

(** C8, as the code has it.  For non-empty coordinates [c] with minimum
    [lo] and maximum [hi], intensities of the same length and a spacing
    whose float64 value is positive, the resampling filter returns two new
    arrays of one length [n].  The coordinates are what [np.arange]
    computes in float64: [n] is the ceiling of the float64 quotient of
    [(hi + spacing) - lo] by the spacing, the first coordinate is [lo], the
    second the float64 sum [lo + spacing], the one at position [k >= 2] is
    [lo + k * delta] for [delta] the float64 difference of the first two;
    the coordinates are non-decreasing and none is below [lo].  When none of these operations rounds, the
    coordinates are the arithmetic sequence [lo + k * spacing], [n >= 1]
    is the exact ceiling, consecutive coordinates differ by the spacing,
    and the last one is at least [hi] and below [hi + spacing].  The
    intensities are [np.interp] of the input at the coordinates: each is
    the first input intensity for a point below the first coordinate of
    [c], the last one for a point at or above the last coordinate, or lies
    on the chord of two neighbouring input points that enclose the point;
    when [c] is non-decreasing that chord is the one of the unique
    interval that holds the point. *)
Theorem LinearResampling_grid spacing h mz int c i :
  h !! mz = Some c → h !! int = Some i → length i = length c →
  c ≠ [] → (0 < float64.of_Q spacing)%Q →
  ∃ lo hi n g v,
    np.amin c = Return lo ∧ np.amax c = Return hi ∧
    lo ∈ c ∧ hi ∈ c ∧ Forall (λ x, lo <= x ∧ x <= hi)%Q c ∧
    LinearResampling_filter spacing mz int h
    = (h ++ [g] ++ [v], Return (length h, S (length h))) ∧
    np.arange_length lo (float64.add hi spacing) spacing = Return n ∧
    length g = n ∧ length v = n ∧
    (∀ k, k < n → g !! k = Some (np.arange_item lo spacing k)) ∧
    (0 < n → g !! 0 = Some (float64.of_Q lo)) ∧
    Forall (λ x, float64.of_Q lo <= x)%Q g ∧ StronglySorted Qle g ∧
    (exact_grid lo hi spacing
       (Z.to_nat (Qceiling ((hi + spacing - lo) / spacing))) →
     (0 < spacing)%Q →
     n = Z.to_nat (Qceiling ((hi + spacing - lo) / spacing)) ∧ 0 < n ∧
     (∀ k x, g !! k = Some x → (x == lo + Qofnat k * spacing)%Q) ∧
     (∀ k a b, g !! k = Some a → g !! S k = Some b → (b - a == spacing)%Q) ∧
     (∃ first last,
         g !! 0 = Some first ∧ g !! (n - 1) = Some last ∧
         (first == lo)%Q ∧ (hi <= last)%Q ∧ (last < hi + spacing)%Q)) ∧
    np.interp g c i = Return v ∧
    (∀ k x y,
        g !! k = Some x → v !! k = Some y →
        ((x < nth 0 c 0)%Q ∧ y = nth 0 i 0%Q) ∨
        ((nth (length c - 1) c 0 <= x)%Q ∧ y = nth (length c - 1) i 0%Q) ∨
        (∃ j, S j < length c ∧
              (nth j c 0 <= x)%Q ∧ (x < nth (S j) c 0)%Q ∧
              (y == nth j i 0 + (x - nth j c 0)
                                * ((nth (S j) i 0 - nth j i 0)
                                   / (nth (S j) c 0 - nth j c 0)))%Q)) ∧
    (StronglySorted Qle c →
     ∀ k x y,
       g !! k = Some x → v !! k = Some y →
       (Forall (λ z, z <= x)%Q c → y = nth (length c - 1) i 0%Q) ∧
       (∀ j a b fa fb,
           c !! j = Some a → c !! S j = Some b →
           i !! j = Some fa → i !! S j = Some fb →
           (a <= x)%Q → (x < b)%Q →
           (y == fa + (x - a) * ((fb - fa) / (b - a)))%Q)).
Proof.
  intros Hc Hi Hlen Hne Hpos.
  destruct (amin_Return c Hne) as [lo Hlo].
  destruct (amax_Return c Hne) as [hi Hhi].
  pose proof (amin_elem _ _ Hlo) as Hlo_in.
  pose proof (amax_elem _ _ Hhi) as Hhi_in.
  pose proof (amin_lower _ _ Hlo) as Hlower.
  pose proof (amax_upper _ _ Hhi) as Hupper.
  assert (Hlohi : (lo <= hi)%Q).
  { rewrite Forall_forall in Hupper. by apply Hupper. }
  destruct (LinearResampling_run spacing h mz int c i lo hi)
    as (g & Hg & Hrun); try done; [lra|].
  apply arange_Return in Hg as (n & Hn & Hg).
  assert (Hlookup : ∀ k, k < n → g !! k = Some (np.arange_item lo spacing k)).
  { intros k Hk. rewrite Hg. by apply arange_lookup. }
  assert (Hglen : length g = n).
  { by rewrite Hg, length_map, length_seq. }
  assert (Hvalue : ∀ k x y,
             g !! k = Some x → np.interp_loop c i 0 g !! k = Some y →
             ∃ j, bracket c x j ∧ y = np.interp_value c i j x).
  { intros k x y Hx Hy. by eapply interp_loop_lookup. }
  exists lo, hi, n, g, (np.interp_loop c i 0 g).
  split_and!; try done.
  - rewrite Forall_forall in Hlower, Hupper. apply Forall_forall.
    intros x Hx. split; [by apply Hlower | by apply Hupper].
  - by rewrite length_interp_loop.
  - intros Hn0. by rewrite Hlookup.
  - apply Forall_forall. intros x Hx.
    apply list_elem_of_lookup in Hx as [k Hk].
    pose proof (lookup_lt_Some _ _ _ Hk) as Hkn. rewrite Hglen in Hkn.
    rewrite Hlookup in Hk by done. injection Hk as <-.
    apply arange_item_lower. lra.
  - rewrite Hg. apply consecutive_sorted. intros k.
    apply arange_item_step. lra.
  - intros Hexact Hsp.
    destruct (arange_exact lo hi spacing Hlohi Hsp Hexact) as [Hn' Hitems].
    rewrite Hn in Hn'. injection Hn' as Hn'.
    destruct (arange_last lo hi spacing Hlohi Hsp) as (Hn0 & Hlast1 & Hlast2).
    rewrite <- Hn' in Hitems, Hn0, Hlast1, Hlast2.
    assert (Hpoint : ∀ k x, g !! k = Some x → (x == lo + Qofnat k * spacing)%Q).
    { intros k x Hx.
      pose proof (lookup_lt_Some _ _ _ Hx) as Hkn. rewrite Hglen in Hkn.
      rewrite Hlookup in Hx by done. injection Hx as <-. by apply Hitems. }
    split_and!; try done.
    + intros k a b Ha Hb. rewrite (Hpoint _ _ Ha), (Hpoint _ _ Hb).
      rewrite Qofnat_S. ring.
    + exists (np.arange_item lo spacing 0), (np.arange_item lo spacing (n - 1)).
      split_and!; [apply Hlookup; lia | apply Hlookup; lia | | |].
      * rewrite Hitems by done. unfold Qofnat. simpl. ring.
      * rewrite Hitems by lia. done.
      * rewrite Hitems by lia. done.
  - apply interp_run; [done | done].
  - intros k x y Hx Hy.
    destruct (Hvalue k x y Hx Hy) as (j & Hj & ->).
    by apply interp_value_cases.
  - intros Hsorted k x y Hx Hy.
    destruct (Hvalue k x y Hx Hy) as (j & Hj & ->).
    assert (Hfirst : ∀ z, z ∈ c → (nth 0 c 0 <= z)%Q).
    { intros z Hz. apply list_elem_of_lookup in Hz as [kz Hkz].
      destruct c as [|c0 c']; [done|]. simpl.
      apply (sorted_lookup_le (c0 :: c') 0 kz c0 z); [done | lia | done..]. }
    assert (Hlast : ∀ z, z ∈ c → (z <= nth (length c - 1) c 0)%Q).
    { intros z Hz. apply list_elem_of_lookup in Hz as [kz Hkz].
      pose proof (lookup_lt_Some _ _ _ Hkz) as Hlt.
      destruct (c !! (length c - 1)) as [zl|] eqn:Hzl.
      2:{ apply lookup_ge_None in Hzl. lia. }
      rewrite (nth_lookup_Some _ _ _ _ Hzl).
      apply (sorted_lookup_le c kz (length c - 1) z zl); [done | lia | done..]. }
    destruct (interp_value_cases c i j x Hne Hj)
      as [[Hleft Hy0]|[[Hright Hy1]|(j' & Hj' & Hl & Hr & Hchord)]].
    + split.
      * intros Hall. rewrite Forall_forall in Hall.
        assert (Hin : nth 0 c 0%Q ∈ c).
        { destruct c; [done|]. left. }
        pose proof (Hall _ Hin). lra.
      * intros j0 a b fa fb Ha Hb Hfa Hfb Hax Hxb.
        pose proof (Hfirst a (list_elem_of_lookup_2 _ _ _ Ha)). lra.
    + split; [done|].
      intros j0 a b fa fb Ha Hb Hfa Hfb Hax Hxb.
      pose proof (Hlast b (list_elem_of_lookup_2 _ _ _ Hb)). lra.
    + split.
      * intros Hall. rewrite Forall_forall in Hall.
        assert (Hin : nth (S j') c 0%Q ∈ c).
        { apply list_elem_of_lookup. exists (S j').
          destruct (c !! S j') as [z|] eqn:Hz.
          - by rewrite (nth_lookup_Some _ _ _ _ Hz).
          - apply lookup_ge_None in Hz. lia. }
        pose proof (Hall _ Hin). lra.
      * intros j0 a b fa fb Ha Hb Hfa Hfb Hax Hxb.
        pose proof (lookup_lt_Some _ _ _ Hb) as Hj0.
        assert (j' = j0).
        { apply (interval_unique c j' j0 x); try done.
          - by rewrite (nth_lookup_Some _ _ _ _ Ha).
          - by rewrite (nth_lookup_Some _ _ _ _ Hb). }
        subst j0. rewrite Hchord.
        rewrite (nth_lookup_Some _ _ _ _ Ha), (nth_lookup_Some _ _ _ _ Hb).
        rewrite (nth_lookup_Some _ _ _ _ Hfa), (nth_lookup_Some _ _ _ _ Hfb).
        done.
Qed.

End Resampling.

(** C8 as stated fails on float64 values.  For the coordinates [0, 0.9]
    and the spacing 0.3 the grid has [ceil((0.9 + 0.3 - 0) / 0.3) = 4]
    points and ends at [3 * 0.3 = 0.8999999999999999], below the maximum
    0.9 (the hexadecimal literals are the floats nearest to 0.3, 0.6 and
    0.9); the filter of the model returns the same four coordinates.  For
    the coordinates [100, 100.05] and the registered spacing 0.01 the
    float64 quotient is just above 6: the filter returns seven
    coordinates, one more than the exact quotient asks for, and the last
    one is not below the maximum plus the spacing. *)
Lemma LinearResampling_grid_rounds_below_max :
  (∃ last,
      binary64.new_mz 0x1.3333333333333p-2 [0; 0x1.ccccccccccccdp-1]%float
      = Some [0; 0x1.3333333333333p-2; 0x1.3333333333333p-1; last]%float ∧
      (last <? 0x1.ccccccccccccdp-1)%float = true) ∧
  (∃ g v last,
      LinearResampling_filter 0.3 0 1
        [map float64.of_Q [0; 0.9]%Q; [1; 2]%Q]
      = ([map float64.of_Q [0; 0.9]%Q; [1; 2]%Q] ++ [g] ++ [v], Return (2, 3)) ∧
      Some g
      = option_map (map binary64.to_Q)
          (binary64.new_mz 0x1.3333333333333p-2 [0; 0x1.ccccccccccccdp-1]%float) ∧
      length g = 4 ∧ g !! 3 = Some last ∧ (last < float64.of_Q 0.9)%Q) ∧
  (∃ g v last,
      LinearResampling_filter 0.01 0 1
        [map float64.of_Q [100; 100.05]%Q; [1; 2]%Q]
      = ([map float64.of_Q [100; 100.05]%Q; [1; 2]%Q] ++ [g] ++ [v],
         Return (2, 3)) ∧
      Some g
      = option_map (map binary64.to_Q)
          (binary64.new_mz 0x1.47ae147ae147bp-7 [100; 0x1.9033333333333p+6]%float) ∧
      length g = 7 ∧
      Z.to_nat (Qceiling ((float64.of_Q 100.05 + float64.of_Q 0.01 - 100)
                          / float64.of_Q 0.01)) = 6 ∧
      g !! 6 = Some last ∧
      (float64.of_Q 100.05 + float64.of_Q 0.01 <= last)%Q).
Proof.
  split; [eexists; split; vm_compute; reflexivity|].
  split.
  - eexists _, _, _. split; [vm_compute; reflexivity|].
    split; [vm_compute; reflexivity|]. split; [reflexivity|].
    split; [reflexivity | by vm_compute].
  - eexists _, _, _. split; [vm_compute; reflexivity|].
    split; [vm_compute; reflexivity|]. split; [reflexivity|].
    split; [by vm_compute|]. split; [reflexivity | by vm_compute].
Qed.

(** ** The rational model of float64 against the kernel's floats

    On these operands the correctly rounded operations of [float64] and the
    IEEE operations of the kernel give the same values: the conversion of
    decimal literals, a sum that rounds, the mean of three values, the
    means of 10, 136 and 300 values 0.1 as the pairwise summation gives
    them (0.1, 0.09999999999999998 and 0.09999999999999999, where adding
    from left to right gives 0.09999999999999999, 0.09999999999999976 and
    0.10000000000000052), the grid of one coordinate (two points for the
    spacing 0.01) and the empty grid of the coordinate 1e17, where the
    spacing is absorbed. *)
Lemma float64_agrees_with_binary64 :
  map float64.of_Q [0.01; 0.3; 0.9; 100.05; 1e17]%Q
  = map binary64.to_Q
      [0x1.47ae147ae147bp-7; 0x1.3333333333333p-2; 0x1.ccccccccccccdp-1;
       0x1.9033333333333p+6; 1e17]%float ∧
  float64.add 0.01 0.3
  = binary64.to_Q (0x1.47ae147ae147bp-7 + 0x1.3333333333333p-2)%float ∧
  np.mean (map float64.of_Q [0.36; 0.38; 0.4]%Q)
  = Some (binary64.to_Q
            ((0x1.70a3d70a3d70ap-2 + 0x1.851eb851eb852p-2
              + 0x1.999999999999ap-2) / 3)%float) ∧
  np.mean (replicate 10 (float64.of_Q 0.1))
  = Some (binary64.to_Q 0x1.999999999999ap-4) ∧
  np.mean (replicate 136 (float64.of_Q 0.1))
  = Some (binary64.to_Q 0x1.9999999999998p-4) ∧
  np.mean (replicate 300 (float64.of_Q 0.1))
  = Some (binary64.to_Q 0x1.9999999999999p-4) ∧
  np.arange 100 (float64.add 100 0.01) 0.01
  = Return (map binary64.to_Q
              (binary64.arange 100 (100 + 0x1.47ae147ae147bp-7)
                 0x1.47ae147ae147bp-7)) ∧
  length (binary64.arange 100 (100 + 0x1.47ae147ae147bp-7)
            0x1.47ae147ae147bp-7) = 2 ∧
  np.arange 1e17 (float64.add 1e17 0.01) 0.01 = Return [] ∧
  binary64.arange 1e17 (1e17 + 0x1.47ae147ae147bp-7) 0x1.47ae147ae147bp-7 = [].
Proof. split_and!; vm_compute; reflexivity. Qed.

(** * The theorems at concrete arrays *)

(** C1 on the registry of the module: ["over_10"] against
    [ConstantThreshold(10)]. *)
Lemma registry_resolution_equivalence_witness :
  transform filter_register 0 1 (Some [Name "over_10"])
    [[1; 2; 3; 4; 5]; [1; 1; 50; 1; 1]]%Q
  = filter_method (ConstantThreshold 10) 0 1
      [[1; 2; 3; 4; 5]; [1; 1; 50; 1; 1]]%Q.
Proof.
  destruct (registry_resolution_equivalence filter_register "over_10"
              (ConstantThreshold 10) 0 1
              [[1; 2; 3; 4; 5]; [1; 1; 50; 1; 1]]%Q)
    as (_ & H & _); [reflexivity | exact H].
Defined.

(** C2 for [ConstantThreshold(10)] on ([1,2,3,4,5], [1,1,50,1,1]), with the
    stand-in collaborators. *)
Lemma length_correspondence_witness :
  ∃ c' i',
    [[1; 2; 3; 4; 5]; [1; 1; 50; 1; 1]; [3]; [50]]%Q !! 2 = Some c' ∧
    [[1; 2; 3; 4; 5]; [1; 1; 50; 1; 1]; [3]; [50]]%Q !! 3 = Some i' ∧
    length c' = length i' ∧
    (0 ≠ 1 →
     corresponds (ConstantThreshold 10) [1; 2; 3; 4; 5]%Q [1; 1; 50; 1; 1]%Q
       c' i').
Proof.
  destruct (@length_correspondence stand_in stand_in_contract) as [H _].
  destruct (H (ConstantThreshold 10) [[1; 2; 3; 4; 5]; [1; 1; 50; 1; 1]]%Q
              0 1 [1; 2; 3; 4; 5]%Q [1; 1; 50; 1; 1]%Q
              eq_refl eq_refl eq_refl) as [H1 _].
  apply H1. vm_compute. reflexivity.
Defined.

(** C4 for ["over_10", "does_not_exist", "median"]: the first stage has
    run, the third has not. *)
Lemma unknown_filter_raised_when_reached_witness :
  transform filter_register 0 1
    (Some ([Name "over_10"] ++ Name "does_not_exist" :: [Name "median"]))
    [[1; 2; 3; 4; 5]; [1; 1; 50; 1; 1]]%Q
  = ([[1; 2; 3; 4; 5]; [1; 1; 50; 1; 1]; [3]; [50]]%Q,
     Raise (KeyError "does_not_exist")).
Proof.
  destruct (unknown_filter_raised_when_reached filter_register "does_not_exist"
              [Name "over_10"] [Name "median"] 0 1
              [[1; 2; 3; 4; 5]; [1; 1; 50; 1; 1]]%Q) as (H & _ & _);
    [reflexivity|].
  apply (H _ 2 3). vm_compute. reflexivity.
Defined.

(** C5 for the constant 10 on ([1,2,3,4,5], [1,1,50,1,1]). *)
Lemma ConstantThreshold_keeps_points_over_witness :
  ∃ h' mz' int',
    ConstantThreshold_filter 10 0 1 [[1; 2; 3; 4; 5]; [1; 1; 50; 1; 1]]%Q
    = (h', Return (mz', int')) ∧
    h' !! mz' = Some [3]%Q ∧ h' !! int' = Some [50]%Q.
Proof.
  destruct (@ConstantThreshold_keeps_points_over stand_in) as (H & _ & _).
  destruct (H 10%Q [[1; 2; 3; 4; 5]; [1; 1; 50; 1; 1]]%Q 0 1
              [1; 2; 3; 4; 5]%Q [1; 1; 50; 1; 1]%Q eq_refl eq_refl eq_refl)
    as (h' & mz' & int' & Hrun & Hmz & Hint & _).
  exists h', mz', int'. split; [exact Hrun|]. split; [exact Hmz | exact Hint].
Defined.

(** C6 for the constant 10 on ([1,2,3,4,5], [1,1,50,1,1]). *)
Lemma ConstantThreshold_idempotent_witness :
  ∃ h1 mz1 int1 h2 mz2 int2 c' i',
    ConstantThreshold_filter 10 0 1 [[1; 2; 3; 4; 5]; [1; 1; 50; 1; 1]]%Q
    = (h1, Return (mz1, int1)) ∧
    ConstantThreshold_filter 10 mz1 int1 h1 = (h2, Return (mz2, int2)) ∧
    h1 !! mz1 = Some c' ∧ h1 !! int1 = Some i' ∧
    h2 !! mz2 = Some c' ∧ h2 !! int2 = Some i' ∧
    transform filter_register 0 1
      (Some [Instance (ConstantThreshold 10); Instance (ConstantThreshold 10)])
      [[1; 2; 3; 4; 5]; [1; 1; 50; 1; 1]]%Q
    = (h2, Return (mz2, int2)).
Proof.
  apply (@ConstantThreshold_idempotent stand_in 10%Q
           [[1; 2; 3; 4; 5]; [1; 1; 50; 1; 1]]%Q 0 1
           [1; 2; 3; 4; 5]%Q [1; 1; 50; 1; 1]%Q); reflexivity.
Defined.

(** C7 for the threshold 100 on the intensities [10,20,30,40,1000]. *)
Lemma MaximumScaler_rescales_witness :
  ∃ m, np.amax [10; 20; 30; 40; 1000]%Q = Return m ∧ (100 < m)%Q ∧
       ∃ out m',
         MaximumScaler_filter 100 0 1
           [[1; 2; 3; 4; 5]; [10; 20; 30; 40; 1000]]%Q
         = ([[1; 2; 3; 4; 5]; [10; 20; 30; 40; 1000]]%Q ++ [out],
            Return (0, 2)) ∧
         np.amax out = Return m' ∧ (m' <= 100)%Q.
Proof.
  destruct MaximumScaler_rescales as [H _].
  destruct (H 100%Q [[1; 2; 3; 4; 5]; [10; 20; 30; 40; 1000]]%Q 0 1
              [10; 20; 30; 40; 1000]%Q) as (m & Hm & _ & Hscale & _);
    [reflexivity | discriminate |].
  exists m. split; [exact Hm|].
  assert (Hlt : (100 < m)%Q).
  { vm_compute in Hm. injection Hm as <-. by vm_compute. }
  split; [exact Hlt|].
  destruct (Hscale ltac:(by vm_compute) Hlt)
    as (out & m' & Hrun & _ & _ & _ & _ & Hmax & Hle).
  exists out, m'. split; [exact Hrun|]. split; [exact Hmax | exact Hle].
Defined.

(** C8 for the spacing 1/2 on ([1,2,4], [0,10,20]): no operation rounds,
    and the grid is the seven points from 1 to 4. *)
Lemma LinearResampling_grid_witness :
  ∃ n g v,
    LinearResampling_filter (1 # 2) 0 1 [[1; 2; 4]; [0; 10; 20]]%Q
    = ([[1; 2; 4]; [0; 10; 20]]%Q ++ [g] ++ [v], Return (2, 3)) ∧
    length g = n ∧ length v = n ∧ n = 7 ∧
    g = [1; 3 # 2; 2; 5 # 2; 3; 7 # 2; 4]%Q ∧
    map Qred v = [0; 5; 10; 25 # 2; 15; 35 # 2; 20]%Q ∧
    ∃ first last,
      g !! 0 = Some first ∧ g !! (n - 1) = Some last ∧
      (first == 1)%Q ∧ (4 <= last)%Q ∧ (last < 4 + (1 # 2))%Q.
Proof.
  destruct (LinearResampling_grid (1 # 2)%Q
              [[1; 2; 4]; [0; 10; 20]]%Q 0 1 [1; 2; 4]%Q [0; 10; 20]%Q)
    as (lo & hi & n & g & v & Hlo & Hhi & _ & _ & _ & Hrun & _ & Hg & Hv
        & _ & _ & _ & _ & Hexact & _);
    [reflexivity | reflexivity | reflexivity | discriminate | by vm_compute |].
  vm_compute in Hlo. injection Hlo as <-.
  vm_compute in Hhi. injection Hhi as <-.
  destruct Hexact as (Hn & _ & _ & _ & Hends).
  { unfold exact_grid, is_float64.
    do 6 (split; [by vm_compute|]).
    intros k Hk. change (k < 7) in Hk.
    do 7 (destruct k as [|k]; [split_and!; by vm_compute|]). lia. }
  { by vm_compute. }
  vm_compute in Hn.
  exists n, g, v. split; [exact Hrun|].
  split; [exact Hg|]. split; [exact Hv|]. split; [exact Hn|].
  vm_compute in Hrun. injection Hrun as <- <-.
  split; [reflexivity|]. split; [by vm_compute | exact Hends].
Defined.

(** C9 on the float64 values nearest to 0.36, 0.38 and 0.4.  Their float64
    mean is 0.38000000000000006, above the second value, so two of the
    three are below it; the fraction is the float64 value of 2/3, and all
    three intensities are below it and are set to 0. *)
Lemma MeanBelowMeanFilter_thresholds_at_fraction_witness :
  ∃ m f i',
    np.mean (map float64.of_Q [0.36; 0.38; 0.4]%Q) = Some m ∧
    m = float64.of_Q 0.38000000000000006 ∧
    f = float64.of_Q (2 # 3) ∧
    (0 <= f)%Q ∧ (f <= 1)%Q ∧
    i' = [0; 0; 0]%Q ∧
    MeanBelowMeanFilter_filter 0 1
      [[1; 2; 3]%Q; map float64.of_Q [0.36; 0.38; 0.4]%Q]
    = ([[1; 2; 3]%Q; i'], Return (0, 1)).
Proof.
  destruct (MeanBelowMeanFilter_thresholds_at_fraction
              [[1; 2; 3]%Q; map float64.of_Q [0.36; 0.38; 0.4]%Q] 0 1
              (map float64.of_Q [0.36; 0.38; 0.4]%Q))
    as (m & f & i' & Hmean & Hm & Hf & Hf0 & Hf1 & Hi' & Hrun & _);
    [reflexivity | discriminate |].
  exists m, f, i'.
  split; [exact Hmean|].
  assert (Em : m = float64.of_Q 0.38000000000000006).
  { rewrite Hm. by vm_compute. }
  split; [exact Em|].
  assert (Ef : f = float64.of_Q (2 # 3)).
  { rewrite Hf, Em. by vm_compute. }
  split; [exact Ef|]. split; [exact Hf0|]. split; [exact Hf1|].
  assert (Ei : i' = [0; 0; 0]%Q).
  { rewrite Hi', Ef. by vm_compute. }
  split; [exact Ei|]. rewrite Hrun, Ei. reflexivity.
Defined.

(** C10: mean-below-mean on [0, 1/2, 10] and median on [3, 1, 2]. *)
Lemma in_place_versus_copy_witness :
  (∃ i', MeanBelowMeanFilter_filter 0 1 [[1; 2; 3]; [0; 1 # 2; 10]]%Q
         = (<[1 := i']> [[1; 2; 3]; [0; 1 # 2; 10]]%Q, Return (0, 1))) ∧
  MedianIntensityFilter_filter 0 1 [[1; 2; 3]; [3; 1; 2]]%Q
  = ([[1; 2; 3]; [3; 1; 2]]%Q ++ [zero_below (np.median [3; 1; 2]%Q) [3; 1; 2]%Q],
     Return (0, 2)) ∧
  [[1; 2; 3]; [3; 1; 2]]%Q `prefix_of` [[1; 2; 3]; [3; 1; 2]; [3; 0; 2]]%Q.
Proof.
  destruct (@in_place_versus_copy stand_in)
    as (Hmean & _ & Hmedian & Hframe & _).
  split; [|split].
  - destruct (Hmean [[1; 2; 3]; [0; 1 # 2; 10]]%Q 0 1 [0; 1 # 2; 10]%Q eq_refl)
      as (i' & Hrun & _).
    exists i'. exact Hrun.
  - apply Hmedian. reflexivity.
  - apply (Hframe [[1; 2; 3]; [3; 1; 2]]%Q 0 1
             [[1; 2; 3]; [3; 1; 2]; [3; 0; 2]]%Q (Return (0, 2))).
    vm_compute. reflexivity.
Defined.

(** * Further properties of the module *)

(** ** The registry *)

Lemma filter_register_lookup name :
  filter_register !! name
  = if decide (name = "extreme_scale_limiter") then Some (MaximumScaler 30e3)
    else if decide (name = "over_10") then Some (ConstantThreshold 10)
    else if decide (name = "over_100") then Some (ConstantThreshold 100)
    else if decide (name = "linear_resampling") then Some (LinearResampling 0.01)
    else if decide (name = "fticr_baseline")
         then Some (FTICRBaselineRemoval 1 10 5)
    else if decide (name = "tenth_percent_of_max")
         then Some (NPercentOfMaxFilter 0.001)
    else if decide (name = "one_percent_of_max")
         then Some (NPercentOfMaxFilter 0.01)
    else if decide (name = "savitsky_golay")
         then Some (SavitskyGolayFilter 5 3 0)
    else if decide (name = "mean_below_mean") then Some MeanBelowMeanFilter
    else if decide (name = "median") then Some MedianIntensityFilter
    else None.
Proof.
  unfold filter_register, register.
  repeat (rewrite lookup_insert; case_decide;
          [subst name; by rewrite decide_True by done
          | rewrite decide_False by done]).
  apply lookup_empty.
Qed.

Section RegistryFacts.
Context {ext : Collaborators}.
Implicit Types (h : heap) (mz int : loc) (c i : list Q).
Implicit Types (reg : gmap string FilterBase).

(** X1. Once the module is imported the registry holds exactly ten
    presets: the two stacked decorators of [NPercentOfMaxFilter] give
    ["tenth_percent_of_max"] the default [p = 0.001] and
    ["one_percent_of_max"] [p = 0.01], those of [ConstantThreshold] give
    ["over_10"] and ["over_100"], the classes registered without arguments
    carry the defaults of their [__init__]; any other string is not a key,
    and [transform] on it raises KeyError with the store untouched. *)
Theorem filter_register_has_ten_presets :
  size filter_register = 10 ∧
  filter_register !! "median" = Some MedianIntensityFilter ∧
  filter_register !! "mean_below_mean" = Some MeanBelowMeanFilter ∧
  filter_register !! "savitsky_golay" = Some (SavitskyGolayFilter 5 3 0) ∧
  filter_register !! "one_percent_of_max" = Some (NPercentOfMaxFilter 0.01) ∧
  filter_register !! "tenth_percent_of_max" = Some (NPercentOfMaxFilter 0.001) ∧
  filter_register !! "fticr_baseline" = Some (FTICRBaselineRemoval 1 10 5) ∧
  filter_register !! "linear_resampling" = Some (LinearResampling 0.01) ∧
  filter_register !! "over_100" = Some (ConstantThreshold 100) ∧
  filter_register !! "over_10" = Some (ConstantThreshold 10) ∧
  filter_register !! "extreme_scale_limiter" = Some (MaximumScaler 30e3) ∧
  (∀ name filters mz int h,
      name ∉ ["median"; "mean_below_mean"; "savitsky_golay";
              "one_percent_of_max"; "tenth_percent_of_max"; "fticr_baseline";
              "linear_resampling"; "over_100"; "over_10";
              "extreme_scale_limiter"] →
      filter_register !! name = None ∧
      transform filter_register mz int (Some (Name name :: filters)) h
      = (h, Raise (KeyError name))).
Proof.
  split.
  { rewrite <- length_map_to_list, filter_register_presets. done. }
  split_and!; [reflexivity..|].
  intros name filters mz int h Hname.
  assert (Hnone : filter_register !! name = None).
  { rewrite filter_register_lookup.
    repeat (case_decide; [subst name; exfalso; apply Hname; set_solver|]).
    done. }
  split; [done|]. rewrite transform_Some. by apply transform_loop_unknown.
Qed.

(** X2. Registering a name again replaces the instance stored under it
    (the last registration wins) and leaves every other name as it was;
    [transform] by that name then runs the last instance. *)
Theorem register_last_wins reg name name' first last mz int h :
  name ≠ name' →
  register name last (register name first reg) = register name last reg ∧
  register name last (register name first reg) !! name' = reg !! name' ∧
  transform (register name last (register name first reg)) mz int
    (Some [Name name]) h
  = filter_method last mz int h.
Proof.
  intros Hne. unfold register. split_and!.
  - apply insert_insert_eq.
  - by rewrite !lookup_insert_ne.
  - apply transform_single_name. apply lookup_insert_eq.
Qed.

End RegistryFacts.

(** X2 at two registrations of ["over"]: the constant 100 replaces 10, and
    ["median"] is untouched. *)
Lemma register_last_wins_witness :
  register "over" (ConstantThreshold 100)
    (register "over" (ConstantThreshold 10) filter_register) !! "median"
  = filter_register !! "median" ∧
  transform
    (register "over" (ConstantThreshold 100)
       (register "over" (ConstantThreshold 10) filter_register)) 0 1
    (Some [Name "over"]) [[1; 2]; [50; 500]]%Q
  = filter_method (ConstantThreshold 100) 0 1 [[1; 2]; [50; 500]]%Q.
Proof.
  destruct (register_last_wins filter_register "over" "median"
              (ConstantThreshold 10) (ConstantThreshold 100) 0 1
              [[1; 2]; [50; 500]]%Q) as (_ & H1 & H2); [discriminate|].
  split; [exact H1 | exact H2].
Defined.

(** X1 at a string that is not registered. *)
Lemma filter_register_has_ten_presets_witness :
  filter_register !! "does_not_exist" = None ∧
  transform filter_register 0 1 (Some [Name "does_not_exist"; Name "median"])
    [[1]; [2]]%Q
  = ([[1]; [2]]%Q, Raise (KeyError "does_not_exist")).
Proof.
  destruct (@filter_register_has_ten_presets stand_in)
    as (_ & _ & _ & _ & _ & _ & _ & _ & _ & _ & _ & H).
  apply (H "does_not_exist" [Name "median"] 0 1 [[1]; [2]]%Q).
  vm_compute. intros Hin.
  repeat (apply elem_of_cons in Hin as [Hin|Hin]; [discriminate|]).
  by apply elem_of_nil in Hin.
Defined.

(** ** The runner *)

Section RunnerFacts.
Context {ext : Collaborators}.
Implicit Types (h : heap) (mz int : loc) (c i : list Q).
Implicit Types (reg : gmap string FilterBase).

(** X3. Stages compose in sequence: [transform] over a list [pre ++ post]
    is [transform] over [pre] followed, from the arrays and the store it
    returned, by [transform] over [post]; an exception raised in [pre] ends
    the call with that exception and the store reached, and nothing of
    [post] runs. *)
Theorem transform_sequential reg pre post mz int h :
  transform reg mz int (Some (pre ++ post)) h
  = match transform reg mz int (Some pre) h with
    | (h1, Return (mz1, int1)) => transform reg mz1 int1 (Some post) h1
    | (h1, Raise e) => (h1, Raise e)
    end.
Proof. rewrite !transform_Some. apply transform_loop_app. Qed.

(** X4. Instances and callables are used directly: on a list without
    strings [transform] does the same whatever the registry holds. *)
Theorem transform_without_names_ignores_registry reg reg' filters mz int h :
  Forall nameless filters →
  transform reg mz int (Some filters) h = transform reg' mz int (Some filters) h.
Proof.
  rewrite !transform_Some. intros Hall. revert mz int h.
  induction Hall as [|filt filters Hfilt _ IH]; intros mz int h; [done|].
  rewrite !transform_loop_cons.
  destruct filt as [name|instance|f]; [done| |]; simpl.
  - destruct (call instance mz int h) as [h1 [[mz1 int1]|e]]; [apply IH | done].
  - destruct (f mz int h) as [h1 [[mz1 int1]|e]]; [apply IH | done].
Qed.

(** X5. An instance of the base class [FilterBase] returns its arguments,
    so a stage of it anywhere in the list changes nothing of what
    [transform] does. *)
Theorem base_filter_is_neutral reg pre post mz int h :
  transform reg mz int (Some (pre ++ Instance BareFilterBase :: post)) h
  = transform reg mz int (Some (pre ++ post)) h.
Proof.
  rewrite !transform_Some, !transform_loop_app.
  destruct (transform_loop reg pre mz int h) as [h1 [[mz1 int1]|e]]; [|done].
  by rewrite (transform_loop_instance _ BareFilterBase _ _ _ _ h1 mz1 int1).
Qed.

End RunnerFacts.

(** X4 for two instances, on the registry of the module and on an empty
    one. *)
Lemma transform_without_names_ignores_registry_witness :
  transform filter_register 0 1
    (Some [Instance MedianIntensityFilter; Instance (ConstantThreshold 1)])
    [[1; 2; 3]; [3; 1; 2]]%Q
  = transform ∅ 0 1
      (Some [Instance MedianIntensityFilter; Instance (ConstantThreshold 1)])
      [[1; 2; 3]; [3; 1; 2]]%Q.
Proof.
  apply (@transform_without_names_ignores_registry stand_in).
  repeat constructor.
Defined.

(** ** Empty arrays and arrays of different lengths *)

Section EdgeFacts.
Context {ext : Collaborators}.
Implicit Types (h : heap) (mz int : loc) (c i : list Q).

(** X6. On a pair of empty arrays the filters that take [max()] of the
    intensities raise ValueError and leave the store as it is, and so does
    resampling, which takes [min()] of the coordinates.  The median filter
    returns a new empty array, mean-below-mean returns the array it was
    given unchanged, and the constant threshold returns two new empty
    arrays: the [nan] that the mean and the median of no value are
    compares False with everything. *)
Theorem filters_on_empty_arrays h mz int :
  h !! mz = Some [] → h !! int = Some [] →
  (∀ p, NPercentOfMaxFilter_filter p mz int h = (h, Raise ValueError)) ∧
  (∀ threshold, MaximumScaler_filter threshold mz int h = (h, Raise ValueError)) ∧
  (∀ spacing, LinearResampling_filter spacing mz int h = (h, Raise ValueError)) ∧
  MedianIntensityFilter_filter mz int h = (h ++ [[]], Return (mz, length h)) ∧
  MeanBelowMeanFilter_filter mz int h = (h, Return (mz, int)) ∧
  (∀ constant,
      ConstantThreshold_filter constant mz int h
      = (h ++ [[]] ++ [[]], Return (length h, S (length h)))).
Proof.
  intros Hc Hi. split_and!.
  - intros p. unfold NPercentOfMaxFilter_filter.
    by rewrite (run_get_array int []) by done.
  - intros threshold. unfold MaximumScaler_filter.
    by rewrite (run_get_array int []) by done.
  - intros spacing. unfold LinearResampling_filter.
    by rewrite (run_get_array mz []) by done.
  - by rewrite (MedianIntensityFilter_run h mz int []).
  - rewrite (MeanBelowMeanFilter_run h mz int []) by done. simpl.
    by rewrite list_insert_id.
  - intros constant.
    by rewrite (ConstantThreshold_run constant h mz int [] []).
Qed.

(** X7. Nothing checks that the two arrays have one length before a
    filter runs.  The constant threshold indexes both arrays with the mask
    of the intensities: on arrays of different lengths it raises
    IndexError and allocates nothing.  The median and the mean-below-mean
    filters only mask the intensities and never read the coordinates: they
    return, with whatever coordinate reference they were given. *)
Theorem length_mismatch constant h mz int c i :
  h !! mz = Some c → h !! int = Some i → length c ≠ length i →
  ConstantThreshold_filter constant mz int h = (h, Raise IndexError) ∧
  (∀ mz',
      MedianIntensityFilter_filter mz' int h
      = (h ++ [zero_below (np.median i) i], Return (mz', length h))) ∧
  (∀ mz',
      MeanBelowMeanFilter_filter mz' int h
      = (<[int := zero_below (np.mean_bool (np.less i (np.mean i))) i]> h,
         Return (mz', int))).
Proof.
  intros Hc Hi Hlen. split_and!.
  - unfold ConstantThreshold_filter.
    rewrite (run_get_array int i) by done.
    rewrite (run_get_array mz c) by done.
    unfold np.getitem. rewrite length_greater.
    by rewrite decide_False by done.
  - intros mz'. by apply MedianIntensityFilter_run.
  - intros mz'. by apply MeanBelowMeanFilter_run.
Qed.

End EdgeFacts.

(** X6 on a store of two empty arrays. *)
Lemma filters_on_empty_arrays_witness :
  NPercentOfMaxFilter_filter 0.01 0 1 [[]; []] = ([[]; []], Raise ValueError) ∧
  MedianIntensityFilter_filter 0 1 [[]; []] = ([[]; []; []], Return (0, 2)).
Proof.
  destruct (filters_on_empty_arrays [[]; []] 0 1 eq_refl eq_refl)
    as (H1 & _ & _ & H2 & _).
  split; [apply H1 | exact H2].
Defined.

(** X7 on three coordinates and two intensities. *)
Lemma length_mismatch_witness :
  ConstantThreshold_filter 10 0 1 [[1; 2; 3]; [5; 50]]%Q
  = ([[1; 2; 3]; [5; 50]]%Q, Raise IndexError).
Proof.
  destruct (length_mismatch 10%Q [[1; 2; 3]; [5; 50]]%Q 0 1
              [1; 2; 3]%Q [5; 50]%Q eq_refl eq_refl) as [H _];
    [simpl; lia | exact H].
Defined.

(** ** Applying a filter again, and one threshold after another *)

Lemma Qltb_div_proper x m m' p :
  ¬ (m == 0)%Q → (m' == m)%Q → Qltb (x / m') p = Qltb (x / m) p.
Proof.
  intros Hm0 Hm.
  assert (Hq : (x / m' == x / m)%Q) by (by rewrite Hm).
  destruct (Qltb (x / m') p) eqn:H1, (Qltb (x / m) p) eqn:H2; try done.
  - apply Qltb_lt in H1. apply Qltb_ge in H2. lra.
  - apply Qltb_ge in H1. apply Qltb_lt in H2. lra.
Qed.

(** The values the p-fraction-of-max filter leaves, for the maximum [m]. *)
Lemma NPercent_values_max (p m : Q) i :
  np.amax i = Return m → ¬ (m == 0)%Q → (p <= 1)%Q →
  ∃ m', np.amax (map (λ x, if Qltb (x / m) p then 0%Q else x) i) = Return m' ∧
        (m' == m)%Q.
Proof.
  intros Hm Hm0 Hp.
  set (out := map (λ x, if Qltb (x / m) p then 0%Q else x) i).
  assert (Hkeep : Qltb (m / m) p = false).
  { apply Qltb_ge. assert ((m / m == 1)%Q) as -> by (by field). done. }
  destruct (amax_Return out) as [m' Hm'].
  { apply amax_nonempty in Hm. unfold out. by destruct i. }
  exists m'. split; [done|].
  pose proof (amax_upper _ _ Hm) as Hup. rewrite Forall_forall in Hup.
  apply Qle_antisym.
  - apply amax_elem, list_elem_of_In, in_map_iff in Hm' as (x & <- & Hx).
    apply list_elem_of_In in Hx. specialize (Hup x Hx).
    destruct (Qltb (x / m) p) eqn:Hz; [|done].
    apply Qltb_lt in Hz.
    destruct (Qlt_le_dec 0 m) as [Hpos|Hneg]; [lra|].
    assert (Hm_neg : (m < 0)%Q) by (apply Qle_lteq in Hneg as [?|?]; [done|]; by destruct Hm0).
    exfalso. assert (Hq : (1 <= x / m)%Q).
    { assert (Heq : (x / m == (- x) / (- m))%Q) by (field; lra).
      rewrite Heq. apply Qle_shift_div_l; lra. }
    lra.
  - apply amax_upper in Hm'. rewrite Forall_forall in Hm'.
    apply Hm', list_elem_of_In, in_map_iff. exists m.
    rewrite Hkeep. split; [done|]. by apply list_elem_of_In, amax_elem.
Qed.

Lemma NPercent_values_fixed (p m m' : Q) i :
  ¬ (m == 0)%Q → (m' == m)%Q →
  map (λ x, if Qltb (x / m') p then 0%Q else x)
    (map (λ x, if Qltb (x / m) p then 0%Q else x) i)
  = map (λ x, if Qltb (x / m) p then 0%Q else x) i.
Proof.
  intros Hm0 Hm. rewrite map_map. apply map_ext. intros x.
  destruct (Qltb (x / m) p) eqn:Hx.
  - by destruct (Qltb (0 / m') p).
  - by rewrite (Qltb_div_proper x m m' p), Hx.
Qed.

Section AgainFacts.
Context {ext : Collaborators}.
Implicit Types (h : heap) (mz int : loc) (c i : list Q).

(** X8. For a threshold [t >= 0] the maximum rescale is idempotent, in
    exact arithmetic: once applied, the maximum is at most [t], so a second
    application returns the very arrays it is given and writes nothing. *)
Theorem MaximumScaler_idempotent threshold h mz int i :
  (0 <= threshold)%Q → h !! int = Some i → i ≠ [] →
  ∃ h1 int1,
    MaximumScaler_filter threshold mz int h = (h1, Return (mz, int1)) ∧
    MaximumScaler_filter threshold mz int1 h1 = (h1, Return (mz, int1)).
Proof.
  intros Ht Hi Hne. destruct (amax_Return i Hne) as [m Hm].
  destruct (Qlt_le_dec threshold m) as [Hlt|Hle].
  - assert (Hm0 : ¬ (m == 0)%Q) by lra.
    set (out := map (λ x, x / m * threshold)%Q i).
    destruct (amax_Return out) as [m' Hm'].
    { unfold out. by destruct i. }
    exists (h ++ [out]), (length h).
    split; [by apply MaximumScaler_run_scale|].
    apply (MaximumScaler_run_noop threshold _ mz _ out m');
      [apply lookup_new | done |].
    rewrite (amax_rescaled threshold m i m'); [lra | done..].
  - exists h, int.
    split; by apply (MaximumScaler_run_noop threshold h mz int i m).
Qed.

(** X9. For a fraction [p <= 1] and intensities whose maximum [m] is not 0,
    the p-fraction-of-max filter keeps the maximum (the new array has the
    same maximum), so it is idempotent, in exact arithmetic: applied to
    its own output it returns an array with the same values. *)
Theorem NPercentOfMaxFilter_idempotent p h mz int i m :
  (p <= 1)%Q → h !! int = Some i → np.amax i = Return m → ¬ (m == 0)%Q →
  ∃ h1 int1 h2 int2 out m',
    NPercentOfMaxFilter_filter p mz int h = (h1, Return (mz, int1)) ∧
    h1 !! int1 = Some out ∧
    np.amax out = Return m' ∧ (m' == m)%Q ∧
    NPercentOfMaxFilter_filter p mz int1 h1 = (h2, Return (mz, int2)) ∧
    h2 !! int2 = Some out ∧ h2 !! int1 = Some out.
Proof.
  intros Hp Hi Hm Hm0.
  set (out := map (λ x, if Qltb (x / m) p then 0%Q else x) i).
  destruct (NPercent_values_max p m i Hm Hm0 Hp) as (m' & Hm' & Heq).
  fold out in Hm'.
  assert (Hm0' : ¬ (m' == 0)%Q) by (rewrite Heq; done).
  exists (h ++ [out]), (length h), ((h ++ [out]) ++ [out]),
    (length (h ++ [out])), out, m'.
  split_and!.
  - by apply NPercentOfMaxFilter_run.
  - apply lookup_new.
  - done.
  - done.
  - rewrite (NPercentOfMaxFilter_run p (h ++ [out]) mz (length h) out m');
      [|apply lookup_new | done | done].
    do 3 f_equal. by apply NPercent_values_fixed.
  - apply lookup_new.
  - apply lookup_old, lookup_new.
Qed.

(** X10. One constant threshold after another keeps the points over the
    larger constant: after the threshold [a], the threshold [b >= a]
    returns arrays with the values that the threshold [b] alone returns,
    and so does the threshold [a] after the threshold [b]. *)
Theorem ConstantThreshold_composes a b h mz int c i :
  (a <= b)%Q → h !! mz = Some c → h !! int = Some i → length c = length i →
  ∃ h_ab mz_ab int_ab h_ba mz_ba int_ba,
    transform filter_register mz int
      (Some [Instance (ConstantThreshold a); Instance (ConstantThreshold b)]) h
    = (h_ab, Return (mz_ab, int_ab)) ∧
    transform filter_register mz int
      (Some [Instance (ConstantThreshold b); Instance (ConstantThreshold a)]) h
    = (h_ba, Return (mz_ba, int_ba)) ∧
    h_ab !! mz_ab = Some (points_over b c i).*1 ∧
    h_ab !! int_ab = Some (points_over b c i).*2 ∧
    h_ba !! mz_ba = Some (points_over b c i).*1 ∧
    h_ba !! int_ba = Some (points_over b c i).*2.
Proof.
  intros Hab Hc Hi Hlen.
  assert (Hstep : ∀ k h0 mz0 int0 c0 i0,
             h0 !! mz0 = Some c0 → h0 !! int0 = Some i0 →
             length c0 = length i0 →
             ConstantThreshold_filter k mz0 int0 h0
             = (h0 ++ [(points_over k c0 i0).*1] ++ [(points_over k c0 i0).*2],
                Return (length h0, S (length h0))) ∧
             length (points_over k c0 i0).*1 = length (points_over k c0 i0).*2).
  { intros k h0 mz0 int0 c0 i0 Hc0 Hi0 Hlen0.
    rewrite (ConstantThreshold_run k h0 mz0 int0 c0 i0) by done.
    destruct (ConstantThreshold_select k c0 i0 Hlen0) as [-> ->].
    by rewrite !length_fmap. }
  assert (Hnest : ∀ k k',
             (∀ x, Qltb k' x && Qltb k x = Qltb b x) →
             points_over k' (points_over k c i).*1 (points_over k c i).*2
             = points_over b c i).
  { intros k k' Hkk. unfold points_over at 1. rewrite zip_fst_snd.
    unfold points_over. induction (zip c i) as [|q l IH]; simpl; [done|].
    specialize (Hkk q.2).
    destruct (Qltb k q.2) eqn:Hk; simpl.
    - rewrite andb_true_r in Hkk. rewrite Hkk.
      destruct (Qltb b q.2); by rewrite IH.
    - rewrite andb_false_r in Hkk. by rewrite <- Hkk. }
  assert (Hboth : ∀ x, Qltb b x && Qltb a x = Qltb b x).
  { intros x. destruct (Qltb b x) eqn:Hb; [|done]. simpl.
    apply Qltb_lt. apply Qltb_lt in Hb. lra. }
  assert (Hrun : ∀ k k',
             (∀ x, Qltb k' x && Qltb k x = Qltb b x) →
             ∃ h' mz' int',
               transform filter_register mz int
                 (Some [Instance (ConstantThreshold k);
                        Instance (ConstantThreshold k')]) h
               = (h', Return (mz', int')) ∧
               h' !! mz' = Some (points_over b c i).*1 ∧
               h' !! int' = Some (points_over b c i).*2).
  { intros k k' Hkk.
    destruct (Hstep k h mz int c i Hc Hi Hlen) as (Hrun1 & Hlen1).
    set (h1 := h ++ [(points_over k c i).*1] ++ [(points_over k c i).*2]) in *.
    destruct (lookup_new2 h (points_over k c i).*1 (points_over k c i).*2)
      as [E1 E2]. fold h1 in E1, E2.
    destruct (Hstep k' h1 _ _ _ _ E1 E2 Hlen1) as (Hrun2 & _).
    rewrite (Hnest k k' Hkk) in Hrun2.
    eexists _, _, _. split.
    { rewrite transform_Some.
      rewrite (transform_loop_instance _ (ConstantThreshold k)
                 _ _ _ _ _ _ _ Hrun1).
      by rewrite (transform_loop_instance _ (ConstantThreshold k')
                    _ _ _ _ _ _ _ Hrun2). }
    apply lookup_new2. }
  destruct (Hrun a b Hboth) as (h_ab & mz_ab & int_ab & R1 & A1 & A2).
  destruct (Hrun b a) as (h_ba & mz_ba & int_ba & R2 & B1 & B2).
  { intros x. by rewrite andb_comm. }
  by exists h_ab, mz_ab, int_ab, h_ba, mz_ba, int_ba.
Qed.

End AgainFacts.

(** X8 for the threshold 100 on the intensities [10,20,30,40,1000]. *)
Lemma MaximumScaler_idempotent_witness :
  ∃ h1 int1,
    MaximumScaler_filter 100 0 1 [[1; 2; 3; 4; 5]; [10; 20; 30; 40; 1000]]%Q
    = (h1, Return (0, int1)) ∧
    MaximumScaler_filter 100 0 int1 h1 = (h1, Return (0, int1)).
Proof.
  apply (MaximumScaler_idempotent 100%Q
           [[1; 2; 3; 4; 5]; [10; 20; 30; 40; 1000]]%Q 0 1
           [10; 20; 30; 40; 1000]%Q);
    [by vm_compute | reflexivity | discriminate].
Defined.

(** X9 for the fraction 1/100 on the intensities [1, 50, 100, 200]. *)
Lemma NPercentOfMaxFilter_idempotent_witness :
  ∃ h1 int1 h2 int2 out m',
    NPercentOfMaxFilter_filter 0.01 0 1 [[1; 2; 3; 4]; [1; 50; 100; 200]]%Q
    = (h1, Return (0, int1)) ∧
    h1 !! int1 = Some out ∧
    np.amax out = Return m' ∧ (m' == 200)%Q ∧
    NPercentOfMaxFilter_filter 0.01 0 int1 h1 = (h2, Return (0, int2)) ∧
    h2 !! int2 = Some out ∧ h2 !! int1 = Some out.
Proof.
  apply (NPercentOfMaxFilter_idempotent 0.01%Q
           [[1; 2; 3; 4]; [1; 50; 100; 200]]%Q 0 1 [1; 50; 100; 200]%Q 200%Q);
    [by vm_compute | reflexivity | reflexivity | by vm_compute].
Defined.

(** X10 for ["over_10"] and ["over_100"] as instances. *)
Lemma ConstantThreshold_composes_witness :
  ∃ h_ab mz_ab int_ab h_ba mz_ba int_ba,
    transform filter_register 0 1
      (Some [Instance (ConstantThreshold 10); Instance (ConstantThreshold 100)])
      [[1; 2; 3]; [5; 50; 500]]%Q
    = (h_ab, Return (mz_ab, int_ab)) ∧
    transform filter_register 0 1
      (Some [Instance (ConstantThreshold 100); Instance (ConstantThreshold 10)])
      [[1; 2; 3]; [5; 50; 500]]%Q
    = (h_ba, Return (mz_ba, int_ba)) ∧
    h_ab !! mz_ab = Some (points_over 100 [1; 2; 3]%Q [5; 50; 500]%Q).*1 ∧
    h_ab !! int_ab = Some (points_over 100 [1; 2; 3]%Q [5; 50; 500]%Q).*2 ∧
    h_ba !! mz_ba = Some (points_over 100 [1; 2; 3]%Q [5; 50; 500]%Q).*1 ∧
    h_ba !! int_ba = Some (points_over 100 [1; 2; 3]%Q [5; 50; 500]%Q).*2.
Proof.
  apply (@ConstantThreshold_composes stand_in 10%Q 100%Q
           [[1; 2; 3]; [5; 50; 500]]%Q 0 1 [1; 2; 3]%Q [5; 50; 500]%Q);
    [by vm_compute | reflexivity | reflexivity | reflexivity].
Defined.

(** ** What may be written *)

Section WriteFacts.
Context {ext : Collaborators}.
Implicit Types (h : heap) (mz int : loc) (c i : list Q).
Implicit Types (reg : gmap string FilterBase).

(** One call of any class: the store does not shrink, no array other than
    the intensity argument is written, and the intensity reference
    returned is the one given or a new one. *)
Lemma filter_method_writes instance mz int h h' o :
  filter_method instance mz int h = (h', o) →
  length h ≤ length h' ∧
  (∀ l, l < length h → l ≠ int → h' !! l = h !! l) ∧
  (∀ mz' int', o = Return (mz', int') → int' = int ∨ length h ≤ int').
Proof.
  intros Hrun. destruct instance; unfold_filters.
  all: repeat case_match; simplify_eq.
  all: repeat match goal with
         | H : np.setitem _ _ _ = Return _ |- _ => clear H
         end.
  all: split_and!;
    [ rewrite ?length_insert, ?length_app; simpl; lia
    | intros k Hk Hne;
      rewrite ?list_lookup_insert_ne by lia;
      rewrite ?lookup_app_l by (rewrite ?length_app; simpl; lia); done
    | intros mz' int' Heq; simplify_eq;
      rewrite ?length_app; simpl; lia ].
Qed.

(** X11. Of the arrays that exist when [transform] is called with stages
    that are names or instances of the filter classes, only the intensity
    array passed to it can be changed: every other array, the coordinate
    array among them, holds the same values afterwards, whether the call
    returns or raises. *)
Theorem transform_writes_only_the_intensities reg filters mz int h h' o :
  Forall variant_stage filters →
  transform reg mz int (Some filters) h = (h', o) →
  length h ≤ length h' ∧
  ∀ l, l < length h → l ≠ int → h' !! l = h !! l.
Proof.
  rewrite transform_Some. intros Hall.
  cut (∀ mzk intk hk,
          (intk = int ∨ length h ≤ intk) → length h ≤ length hk →
          transform_loop reg filters mzk intk hk = (h', o) →
          length h ≤ length h' ∧
          ∀ l, l < length h → l ≠ int → h' !! l = hk !! l).
  { intros Hcut Hrun. apply (Hcut mz int h); [by left | done | done]. }
  induction Hall as [|filt filters Hfilt _ IH]; intros mzk intk hk Hint Hlen.
  { by intros [= <- <-]. }
  rewrite transform_loop_cons.
  assert (Hcall : ∀ instance,
             match call instance mzk intk hk with
             | (h1, Return (mz1, int1)) => transform_loop reg filters mz1 int1 h1
             | (h1, Raise e) => (h1, Raise e)
             end = (h', o) →
             length h ≤ length h' ∧
             ∀ l, l < length h → l ≠ int → h' !! l = hk !! l).
  { intros instance.
    destruct (call instance mzk intk hk) as [h1 [[mz1 int1]|e]] eqn:Hrun;
      destruct (filter_method_writes instance mzk intk hk _ _ Hrun)
        as (Hgrow & Hkeep & Hret).
    - intros Hrest. destruct (Hret mz1 int1 eq_refl) as [->|Hfresh].
      + destruct (IH mz1 intk h1 Hint ltac:(lia) Hrest) as [Hl Hk].
        split; [done|]. intros l Hl' Hne. rewrite Hk by done.
        apply Hkeep; [lia|]. destruct Hint as [->|?]; [done | lia].
      + destruct (IH mz1 int1 h1 ltac:(right; lia) ltac:(lia) Hrest) as [Hl Hk].
        split; [done|]. intros l Hl' Hne. rewrite Hk by done.
        apply Hkeep; [lia|]. destruct Hint as [->|?]; [done | lia].
    - intros [= <- <-]. split; [lia|]. intros l Hl' Hne.
      apply Hkeep; [lia|]. destruct Hint as [->|?]; [done | lia]. }
  destruct filt as [name|instance|f]; simpl in *; [| |done].
  - destruct (reg !! name) as [instance|]; simpl; [apply Hcall|].
    by intros [= <- <-].
  - apply Hcall.
Qed.

End WriteFacts.

(** X11 for mean-below-mean, the median and a threshold: the coordinates
    are as they were. *)
Lemma transform_writes_only_the_intensities_witness :
  (transform filter_register 0 1
     (Some [Name "mean_below_mean"; Name "median"; Name "over_10"])
     [[1; 2; 3]; [0; 1 # 2; 10]]%Q).1 !! 0
  = Some [1; 2; 3]%Q.
Proof.
  destruct (transform filter_register 0 1
              (Some [Name "mean_below_mean"; Name "median"; Name "over_10"])
              [[1; 2; 3]; [0; 1 # 2; 10]]%Q) as [h' o] eqn:Hrun.
  apply (@transform_writes_only_the_intensities stand_in
           filter_register _ 0 1 _ h' o) in Hrun as [_ H];
    [|repeat constructor].
  apply (H 0); [simpl; lia | discriminate].
Defined.

(** ** What the returned intensities can be *)

Lemma select_own_mask (P : Q → bool) (a : list Q) :
  Forall (λ x, P x = true) (np.select (map P a) a).
Proof.
  induction a as [|x a IH]; simpl; [constructor|].
  destruct (P x) eqn:Hx; [by constructor | done].
Qed.

Section ValueFacts.
Context {ext : Collaborators}.
Implicit Types (h : heap) (mz int : loc) (c i : list Q).

(** X12. Whatever the smoother computes, the Savitzky-Golay filter returns
    strictly positive intensities only: the smoothed values are clipped at
    0 and the points left at 0 are dropped from both arrays, which have
    one length. *)
Theorem SavitskyGolayFilter_returns_positive w p d h mz int h' mz' int' :
  SavitskyGolayFilter_filter w p d mz int h = (h', Return (mz', int')) →
  ∃ c' i',
    h' !! mz' = Some c' ∧ h' !! int' = Some i' ∧
    length c' = length i' ∧ Forall (λ x, 0 < x)%Q i'.
Proof.
  intros Hrun.
  apply SavitskyGolayFilter_inv in Hrun
    as (c & i & s & Hc & Hi & Hs & Hlen & -> & -> & ->).
  destruct (lookup_new2 h (np.select (np.greater (np.clip s 0) 0) c)
              (np.select (np.greater (np.clip s 0) 0) (np.clip s 0)))
    as [E1 E2].
  eexists _, _. split_and!; [exact E1 | exact E2 | |].
  - apply select_length_eq. unfold np.clip. by rewrite length_map.
  - eapply Forall_impl; [apply (select_own_mask (λ x, Qltb 0 x))|].
    simpl. intros x Hx. by apply Qltb_lt.
Qed.

(** X13. Mean-below-mean compares the intensities with a fraction of
    points, a number between 0 and 1: it leaves every intensity that is at
    least 1 as it is, sets every negative intensity to 0, and so leaves no
    negative value in the array. *)
Theorem MeanBelowMeanFilter_touches_small_values_only h mz int i :
  h !! int = Some i →
  ∃ i',
    MeanBelowMeanFilter_filter mz int h = (<[int := i']> h, Return (mz, int)) ∧
    Forall2 (λ x y, ((1 <= x)%Q → y = x) ∧ ((x < 0)%Q → y = 0%Q) ∧
                    (y = x ∨ y = 0%Q)) i i' ∧
    Forall (λ y, 0 <= y)%Q i'.
Proof.
  intros Hi. eexists. split; [by apply MeanBelowMeanFilter_run|].
  destruct (np.mean_bool (np.less i (np.mean i))) as [f|] eqn:Hf.
  - destruct (mean_bool_range _ _ Hf) as [Hf0 Hf1]. unfold zero_below.
    generalize i. clear Hi Hf. intros l. split.
    + induction l as [|x l IH]; simpl; constructor; [|done].
      destruct (Qltb x f) eqn:Hx.
      * apply Qltb_lt in Hx. split_and!; [lra | done | by right].
      * apply Qltb_ge in Hx. split_and!; [done | lra | by left].
    + induction l as [|x l IH]; simpl; constructor; [|done].
      destruct (Qltb x f) eqn:Hx; [done|]. apply Qltb_ge in Hx. lra.
  - assert (i = []) as ->.
    { destruct i as [|x i]; [done|]. destruct (np.mean (x :: i)); done. }
    split; constructor.
Qed.

End ValueFacts.

(** X13 on the intensities [-1, 1/2, 10]. *)
Lemma MeanBelowMeanFilter_touches_small_values_only_witness :
  ∃ i',
    MeanBelowMeanFilter_filter 0 1 [[1; 2; 3]; [-1; 1 # 2; 10]]%Q
    = (<[1 := i']> [[1; 2; 3]; [-1; 1 # 2; 10]]%Q, Return (0, 1)) ∧
    Forall (λ y, 0 <= y)%Q i'.
Proof.
  destruct (MeanBelowMeanFilter_touches_small_values_only
              [[1; 2; 3]; [-1; 1 # 2; 10]]%Q 0 1 [-1; 1 # 2; 10]%Q eq_refl)
    as (i' & Hrun & _ & Hpos).
  exists i'. split; [exact Hrun | exact Hpos].
Defined.

(** X12 with the identity smoother (window 1, order 0) on the intensities
    [0, 10, -20, 30]. *)
Lemma SavitskyGolayFilter_returns_positive_witness :
  ∃ c' i',
    [[1; 2; 4; 5]; [0; 10; -20; 30]; [2; 5]; [10; 30]]%Q !! 2 = Some c' ∧
    [[1; 2; 4; 5]; [0; 10; -20; 30]; [2; 5]; [10; 30]]%Q !! 3 = Some i' ∧
    length c' = length i' ∧ Forall (λ x, 0 < x)%Q i'.
Proof.
  apply (@SavitskyGolayFilter_returns_positive stand_in 1%Z 0%Z 0%Z
           [[1; 2; 4; 5]; [0; 10; -20; 30]]%Q 0 1).
  vm_compute. reflexivity.
Defined.

(** ** The median *)

#[local] Instance Qle_total : Total Qle.
Proof.
  intros x y. destruct (Qlt_le_dec x y) as [H|H]; [left | by right].
  by apply Qlt_le_weak.
Qed.

#[local] Instance Qle_transitive : Transitive Qle.
Proof. intros x y z. apply Qle_trans. Qed.




Section MedianFacts.
Context {ext : Collaborators}.
Implicit Types (h : heap) (mz int : loc) (c i : list Q).


End MedianFacts.


(** ** Sorted coordinates *)

Lemma select_Forall (P : Q → Prop) mask (a : list Q) :
  Forall P a → Forall P (np.select mask a).
Proof.
  intros Ha. revert mask. induction Ha as [|x a Hx Ha IH]; intros [|b mask];
    simpl; try constructor.
  destruct b; [constructor|]; auto.
Qed.

Lemma select_sorted mask (c : list Q) :
  StronglySorted Qle c → StronglySorted Qle (np.select mask c).
Proof.
  intros Hs. revert mask.
  induction Hs as [|x c Hs IH Hall]; intros [|b mask]; simpl; try constructor.
  destruct b; [|apply IH]. constructor; [apply IH|]. by apply select_Forall.
Qed.

Section SortedFacts.
Context {ext : Collaborators}.
Implicit Types (h : heap) (mz int : loc) (c i : list Q).

(** X15. For a spacing whose float64 value is positive, resampling returns
    non-decreasing coordinates, as float64 computes them, whatever the
    order of the coordinates it is given. *)
Theorem LinearResampling_returns_sorted_grid spacing h mz int c i :
  h !! mz = Some c → h !! int = Some i → length i = length c → c ≠ [] →
  (0 < float64.of_Q spacing)%Q →
  ∃ g v,
    LinearResampling_filter spacing mz int h
    = (h ++ [g] ++ [v], Return (length h, S (length h))) ∧
    length g = length v ∧ StronglySorted Qle g.
Proof.
  intros Hc Hi Hlen Hne Hpos.
  destruct (amin_Return c Hne) as [lo Hlo].
  destruct (amax_Return c Hne) as [hi Hhi].
  destruct (LinearResampling_run spacing h mz int c i lo hi)
    as (g & Hg & Hrun); try done; [lra|].
  apply arange_Return in Hg as (n & Hn & Hg).
  exists g, (np.interp_loop c i 0 g).
  split; [done|]. split; [by rewrite length_interp_loop|].
  rewrite Hg. apply consecutive_sorted. intros k.
  apply arange_item_step. lra.
Qed.

(** X16. The filters that keep or select points keep the order of the
    coordinates: when the coordinates given are non-decreasing and are not
    the same object as the intensities, the coordinates returned by the
    median, mean-below-mean, Savitzky-Golay, p-fraction-of-max,
    constant-threshold and maximum-rescale filters are non-decreasing. *)
Theorem selected_coordinates_stay_sorted instance h mz int c h' mz' int' :
  (∀ w r k, instance ≠ FTICRBaselineRemoval w r k) →
  (∀ spacing, instance ≠ LinearResampling spacing) →
  h !! mz = Some c → mz ≠ int → StronglySorted Qle c →
  filter_method instance mz int h = (h', Return (mz', int')) →
  ∃ c', h' !! mz' = Some c' ∧ StronglySorted Qle c' ∧ c' `sublist_of` c.
Proof.
  intros Hnof Hnor Hc Hne Hs Hrun. destruct instance; simpl in Hrun.
  - injection Hrun as <- <- <-. by exists c.
  - apply MedianIntensityFilter_inv in Hrun as (i & Hi & -> & -> & ->).
    exists c. split_and!; [by apply lookup_old | done | done].
  - apply MeanBelowMeanFilter_inv in Hrun as (i & Hi & -> & -> & ->).
    exists c. by rewrite list_lookup_insert_ne.
  - apply SavitskyGolayFilter_inv in Hrun
      as (c0 & i & s & Hc0 & Hi & _ & _ & -> & -> & ->).
    simplify_eq. eexists. split; [apply lookup_new2|].
    split; [by apply select_sorted|].
    clear. generalize (np.greater (np.clip s 0) 0). intros mask. revert mask.
    induction c as [|x c IH]; intros [|b mask]; simpl; try done.
    + apply sublist_nil_l.
    + destruct b; [by apply sublist_skip | by apply sublist_cons].
  - apply NPercentOfMaxFilter_inv in Hrun as (i & m & Hi & _ & -> & -> & ->).
    exists c. split_and!; [by apply lookup_old | done | done].
  - by destruct (Hnof window_length region_width scale).
  - by destruct (Hnor spacing).
  - apply ConstantThreshold_inv in Hrun
      as (c0 & i & Hc0 & Hi & _ & -> & -> & ->).
    simplify_eq. eexists. split; [apply lookup_new2|].
    split; [by apply select_sorted|].
    clear. generalize (np.greater i constant). intros mask. revert mask.
    induction c as [|x c IH]; intros [|b mask]; simpl; try done.
    + apply sublist_nil_l.
    + destruct b; [by apply sublist_skip | by apply sublist_cons].
  - apply MaximumScaler_inv in Hrun as (i & m & Hi & _ & -> & Hcases).
    destruct Hcases as [(_ & _ & -> & ->)|(_ & -> & ->)].
    + exists c. split_and!; [by apply lookup_old | done | done].
    + by exists c.
Qed.

End SortedFacts.

(** X15 on the float64 coordinates nearest to 100 and 100.05 with the
    registered spacing 0.01: seven coordinates, in non-decreasing order. *)
Lemma LinearResampling_returns_sorted_grid_witness :
  ∃ g v,
    LinearResampling_filter 0.01 0 1
      [map float64.of_Q [100; 100.05]%Q; [1; 2]%Q]
    = ([map float64.of_Q [100; 100.05]%Q; [1; 2]%Q] ++ [g] ++ [v],
       Return (2, 3)) ∧
    length g = length v ∧ StronglySorted Qle g ∧ length g = 7.
Proof.
  destruct (LinearResampling_returns_sorted_grid 0.01%Q
              [map float64.of_Q [100; 100.05]%Q; [1; 2]%Q] 0 1
              (map float64.of_Q [100; 100.05]%Q) [1; 2]%Q)
    as (g & v & Hrun & Hlen & Hs);
    [reflexivity | reflexivity | reflexivity | discriminate | by vm_compute |].
  exists g, v. split; [exact Hrun|]. split; [exact Hlen|]. split; [exact Hs|].
  vm_compute in Hrun. injection Hrun as <- <-. reflexivity.
Defined.

(** X16 for the threshold 10 on the coordinates [1, 2, 3, 4, 5]. *)
Lemma selected_coordinates_stay_sorted_witness :
  ∃ c',
    [[1; 2; 3; 4; 5]; [1; 50; 1; 60; 1]; [2; 4]; [50; 60]]%Q !! 2 = Some c' ∧
    StronglySorted Qle c' ∧ c' `sublist_of` [1; 2; 3; 4; 5]%Q.
Proof.
  apply (@selected_coordinates_stay_sorted stand_in (ConstantThreshold 10)
           [[1; 2; 3; 4; 5]; [1; 50; 1; 60; 1]]%Q 0 1 [1; 2; 3; 4; 5]%Q
           [[1; 2; 3; 4; 5]; [1; 50; 1; 60; 1]; [2; 4]; [50; 60]]%Q 2 3).
  - intros w r k. discriminate.
  - intros spacing. discriminate.
  - reflexivity.
  - discriminate.
  - repeat (apply SSorted_cons;
            [|repeat (apply Forall_cons; split; [by vm_compute|]);
              apply Forall_nil_2]).
    apply SSorted_nil.
  - vm_compute. reflexivity.
Defined.

(** ** Resampling: the range of the intensities *)


Section ResamplingFacts.
Context {ext : Collaborators}.
Implicit Types (h : heap) (mz int : loc) (c i : list Q).


End ResamplingFacts.

